(** * hprofviz: call-graph aggregation, text trace parser and HPROF binary decoder

    A shallow embedding of the Go sources of cespare/hprofviz
    (main.go, hprof.go, hprofbin/hprofbin.go) and the properties of the
    decode-and-aggregate pipeline proved about it.

    Conventions.
    - Go's [int] and [int64] are 64-bit two's complement: they are modelled
      as [Z] with the wrap-around of every accumulating addition written out
      ([add64]).
    - A Go pointer into a family of heap objects ([*CallSite], [*Node]) is an
      index ([loc]) into an arena list; an index outside the arena plays the
      role of [nil], and dereferencing it is a run-time panic.
    - A Go [map] is a [gmap]; ranging over a map visits its entries in an
      unspecified order, so a ranged-over map of traces is given as the list
      of its entries in the order of the visit, and the theorems hold for
      every such list. *)

From stdpp Require Import gmap strings list fin_maps sorting pretty.
From Stdlib Require Import ZArith Lia Ascii.
From Stdlib.Strings Require Import Byte.

Open Scope Z_scope.

(** ** Machine integers *)

Definition wrap64 (z : Z) : Z := (z + 2 ^ 63) `mod` 2 ^ 64 - 2 ^ 63.

Definition add64 (a b : Z) : Z := wrap64 (a + b).

Definition in_int64 (z : Z) : Prop := - 2 ^ 63 <= z < 2 ^ 63.

(** ** Run-time panics and the result of a Go call that may panic *)

Abbreviation loc := nat.

Inductive runtime_panic :=
| NilDereference
| IndexOutOfRange (i : Z) (len : Z)
| SliceBoundsOutOfRange (k : Z) (len : Z).

Inductive go (A : Type) :=
| Return (a : A)
| Panics (p : runtime_panic).
Arguments Return {A} a.
Arguments Panics {A} p.

Global Instance go_bind : MBind go := λ A B k m,
  match m with
  | Return a => k a
  | Panics p => Panics p
  end.

(** [deref h p] is [*p]: an index outside the arena is a nil pointer. *)
Definition deref {A} (h : list A) (p : loc) : go A :=
  match h !! p with
  | Some a => Return a
  | None => Panics NilDereference
  end.

(** [sort.Sort] is not stable and its algorithm is not fixed by the
    language: the embedding takes the sort as a parameter and the theorems
    assume no more of it than [sort_spec]: when [less] is a strict weak
    order, the result is a permutation of the argument in which no later
    element is [less] than an earlier one. *)
Definition sorter := ∀ A : Type, (A → A → bool) → list A → list A.

Definition sort_spec (sort : sorter) : Prop :=
  ∀ (A : Type) (less : A → A → bool) (l : list A),
    (∀ a b, less a b = true → less b a = false) →
    (∀ a b c, less a b = false → less b c = false → less a c = false) →
    sort A less l ≡ₚ l ∧
    ∀ (i j : nat) (x y : A),
      (i < j)%nat → sort A less l !! i = Some x → sort A less l !! j = Some y →
      less y x = false.

(** [sort.Reverse(data)]: [Less(i, j)] becomes [data.Less(j, i)]. *)
Definition Reverse {A} (less : A → A → bool) : A → A → bool :=
  λ a b, less b a.

(** A sort to run the embedding with: stdpp's merge sort, with the order
    "[y] is not less than [x]". *)
Definition merge_sorter : sorter :=
  λ A less, @merge_sort A (λ x y, less y x = false) (λ x y, decide (less y x = false)).

(** The sum of a list of integers, without wrap-around. *)
Fixpoint sumZ (l : list Z) : Z :=
  match l with
  | [] => 0
  | x :: l' => x + sumZ l'
  end.

(** ** main.go: call sites, traces, filters and the aggregator *)

Module Main.

Record CallSite := mkCallSite {
  Name : string;
  Filename : string;
  LineNumber : Z; (* -1 is 'unknown' *)
  Count : Z;
  CumulativeCount : Z
}.

(** [Stack] holds [*CallSite] pointers into the arena of call sites. The
    field [Count] of the Go struct is [TraceCount] here. *)
Record Trace := mkTrace {
  ID : Z;
  Stack : list loc;
  TraceCount : Z
}.

(** The embedded [*CallSite] of a Node is [Node_CallSite]; the keys of
    [EdgeWeights] and [BackLinks] are [*Node] pointers into the arena of
    nodes; [None] is the nil map. *)
Record Node := mkNode {
  Node_CallSite : loc;
  EdgeWeights : option (gmap loc Z); (* outbound *)
  BackLinks : option (gmap loc bool)
}.

(** byCount.Less *)
Definition byCount_Less (a b : Trace) : bool :=
  bool_decide (TraceCount a < TraceCount b).

(** [FilterTopK]: [traces] is the set of traces in the order the range
    visits them; the result is the set that is left. [orderedTraces[k:]]
    panics unless [0 <= k <= len]. *)
Definition FilterTopK (sort : sorter) (traces : list Trace) (k : Z) : go (list Trace) :=
  let orderedTraces := sort Trace (Reverse byCount_Less) traces in
  if bool_decide (0 <= k <= Z.of_nat (length orderedTraces))
  then Return (take (Z.to_nat k) orderedTraces)
  else Panics (SliceBoundsOutOfRange k (Z.of_nat (length orderedTraces))).

(** [FilterMatching]: [MatchString] is the compiled regular expression.
    [trace.Stack[0]] panics on an empty stack. *)
Fixpoint FilterMatching (MatchString : string → bool) (sites : list CallSite)
    (traces : list Trace) : go (list Trace) :=
  match traces with
  | [] => Return []
  | trace :: rest =>
      match Stack trace !! 0%nat with
      | None => Panics (IndexOutOfRange 0 0)
      | Some p =>
          cs ← deref sites p;
          kept ← FilterMatching MatchString sites rest;
          Return (if MatchString (Name cs) then trace :: kept else kept)
      end
  end.

(** The state of [CreateNodes]: the call sites (whose counts it updates
    through the embedded pointer), the nodes allocated so far, and the local
    map [nodes] from [*CallSite] to [*Node]. *)
Record cn_state := mkCn {
  cn_sites : list CallSite;
  cn_objs : list Node;
  cn_nodes : gmap loc loc
}.

Definition add_Count (c : Z) (cs : CallSite) : CallSite :=
  mkCallSite (Name cs) (Filename cs) (LineNumber cs) (add64 (Count cs) c) (CumulativeCount cs).

Definition add_CumulativeCount (c : Z) (cs : CallSite) : CallSite :=
  mkCallSite (Name cs) (Filename cs) (LineNumber cs) (Count cs) (add64 (CumulativeCount cs) c).

(** [node.EdgeWeights[child] += c], allocating the map when it is nil. *)
Definition add_edge (child : loc) (c : Z) (nd : Node) : Node :=
  let m := default ∅ (EdgeWeights nd) in
  mkNode (Node_CallSite nd) (Some (<[child := add64 (default 0 (m !! child)) c]> m)) (BackLinks nd).

(** [child.BackLinks[node] = true], allocating the map when it is nil. *)
Definition add_backlink (node : loc) (nd : Node) : Node :=
  mkNode (Node_CallSite nd) (EdgeWeights nd) (Some (<[node := true]> (default ∅ (BackLinks nd)))).

(** The body of the inner loop of [CreateNodes] at stack position [i];
    the result carries the new value of [child]. *)
Definition visit (c : Z) (i : nat) (sp : loc) (child : option loc) (st : cn_state)
    : go (cn_state * option loc) :=
  let '(node, objs, nodes) :=
    match cn_nodes st !! sp with
    | Some node => (node, cn_objs st, cn_nodes st)
    | None =>
        let node := length (cn_objs st) in
        (node, cn_objs st ++ [mkNode sp None None], <[sp := node]> (cn_nodes st))
    end in
  nd ← deref objs node;
  _ ← deref (cn_sites st) (Node_CallSite nd);
  let sites1 :=
    if bool_decide (i = 0%nat)
    then alter (add_Count c) (Node_CallSite nd) (cn_sites st)
    else cn_sites st in
  let sites2 := alter (add_CumulativeCount c) (Node_CallSite nd) sites1 in
  let objs2 :=
    match child with
    | Some ch => alter (add_backlink node) ch (alter (add_edge ch c) node objs)
    | None => objs
    end in
  Return (mkCn sites2 objs2 nodes, Some node).

Fixpoint walk (c : Z) (i : nat) (stack : list loc) (child : option loc) (st : cn_state)
    : go cn_state :=
  match stack with
  | [] => Return st
  | sp :: rest =>
      r ← visit c i sp child st;
      walk c (S i) rest r.2 r.1
  end.

Fixpoint each_trace (traces : list Trace) (st : cn_state) : go cn_state :=
  match traces with
  | [] => Return st
  | trace :: rest =>
      st' ← walk (TraceCount trace) 0 (Stack trace) None st;
      each_trace rest st'
  end.

(** [CreateNodes]: returns the updated call sites, the arena of the nodes
    it allocated, and [nodeList] (the values of [nodes], in the order
    [map_to_list] gives them; Go's order is some permutation of it). *)
Definition CreateNodes (sites : list CallSite) (traces : list Trace)
    : go (list CallSite * list Node * list loc) :=
  st ← each_trace traces (mkCn sites [] ∅);
  Return (cn_sites st, cn_objs st, (map_to_list (cn_nodes st)).*2).

Definition CountSum (traces : list Trace) : Z :=
  foldl (λ sum trace, add64 sum (TraceCount trace)) 0 traces.

(** [node.Count] and [node.CumulativeCount], read through the embedded
    pointer; 0 stands for a dangling node, which [CreateNodes] never
    returns. *)
Definition Node_Count (sites : list CallSite) (objs : list Node) (n : loc) : Z :=
  default 0 (nd ← objs !! n; cs ← sites !! Node_CallSite nd; Some (Count cs)).

Definition Node_CumulativeCount (sites : list CallSite) (objs : list Node) (n : loc) : Z :=
  default 0 (nd ← objs !! n; cs ← sites !! Node_CallSite nd; Some (CumulativeCount cs)).

(** The sum of the self counts of a node list, as [WriteDotFormat]
    accumulates it in [totalCount]. *)
Definition totalCount (sites : list CallSite) (objs : list Node) (nodes : list loc) : Z :=
  foldl (λ sum n, add64 sum (Node_Count sites objs n)) 0 nodes.

(** *** Vocabulary of the properties of [CreateNodes] *)

(** No stack holds a nil pointer. *)
Definition valid_traces (sites : list CallSite) (traces : list Trace) : Prop :=
  ∀ t sp, t ∈ traces → sp ∈ Stack t → (sp < length sites)%nat.

(** The call sites that occur in the stacks. *)
Definition stack_sites (traces : list Trace) : gset loc :=
  ⋃ ((λ t, list_to_set (Stack t)) <$> traces).

Definition count_at (sites : list CallSite) (p : loc) : Z :=
  default 0 (Count <$> sites !! p).

Definition cum_at (sites : list CallSite) (p : loc) : Z :=
  default 0 (CumulativeCount <$> sites !! p).

(** What a trace adds to the self count of the call site [p]: its count when
    [p] is at position 0 of its stack. *)
Definition self_of (p : loc) (t : Trace) : Z :=
  if decide (head (Stack t) = Some p) then TraceCount t else 0.

Definition occurrences (p : loc) (stack : list loc) : Z :=
  Z.of_nat (length (filter (λ q, q = p) stack)).

(** What a trace adds to the cumulative count of [p]: its count once for
    every position of its stack that holds [p]. *)
Definition cum_of (p : loc) (t : Trace) : Z :=
  TraceCount t * occurrences p (Stack t).

(** The count of a trace when its stack holds [p] anywhere. *)
Definition holds_of (p : loc) (t : Trace) : Z :=
  if decide (p ∈ Stack t) then TraceCount t else 0.

(** The call site of the node at [n]. *)
Definition node_site (objs : list Node) (n : loc) : option loc :=
  Node_CallSite <$> objs !! n.

(** The loop invariant of [CreateNodes]: the node that [nodes] holds for a
    call site is allocated and embeds that call site. *)
Definition cn_inv (st : cn_state) : Prop :=
  ∀ sp node, cn_nodes st !! sp = Some node →
    ∃ nd, cn_objs st !! node = Some nd ∧ Node_CallSite nd = sp.

(** What one position, one stack and all the traces do to the counts of
    the call sites. *)
Definition bump (c : Z) (i : nat) (sp : loc) (sites : list CallSite) : list CallSite :=
  alter (add_CumulativeCount c) sp
    (if bool_decide (i = 0%nat) then alter (add_Count c) sp sites else sites).

Fixpoint bump_stack (c : Z) (i : nat) (stack : list loc) (sites : list CallSite) : list CallSite :=
  match stack with
  | [] => sites
  | sp :: rest => bump_stack c (S i) rest (bump c i sp sites)
  end.

Definition bump_traces (traces : list Trace) (sites : list CallSite) : list CallSite :=
  foldl (λ s t, bump_stack (TraceCount t) 0 (Stack t) s) sites traces.

(** The counts are 64-bit values. *)
Definition sites_in_range (sites : list CallSite) : Prop :=
  ∀ p, in_int64 (count_at sites p) ∧ in_int64 (cum_at sites p).

(** *** Vocabulary of the properties of the edges *)

(** The edges by call site, to state what [EdgeWeights] holds: [add_link]
    is [node.EdgeWeights[child] += c] for the nodes of the call sites [p]
    and [q]; [link_stack] and [link_traces] follow the loops. *)
Definition add_link (c : Z) (p q : loc) (E : gmap (loc * loc) Z) : gmap (loc * loc) Z :=
  <[(p, q) := add64 (default 0 (E !! (p, q))) c]> E.

Fixpoint link_stack (c : Z) (stack : list loc) (child : option loc)
    (E : gmap (loc * loc) Z) : gmap (loc * loc) Z :=
  match stack with
  | [] => E
  | sp :: rest =>
      link_stack c rest (Some sp)
        (match child with Some q => add_link c sp q E | None => E end)
  end.

Definition link_traces (traces : list Trace) (E : gmap (loc * loc) Z) : gmap (loc * loc) Z :=
  foldl (λ E t, link_stack (TraceCount t) (Stack t) None E) E traces.

(** The number of positions of [stack] that hold [q] with [p] at the next
    position: [q] called from [p]. *)
Fixpoint adjacent (p q : loc) (stack : list loc) : Z :=
  match stack with
  | a :: rest =>
      (match rest with
       | b :: _ => if decide (a = q ∧ b = p) then 1 else 0
       | [] => 0
       end) + adjacent p q rest
  | [] => 0
  end.


(** [q] is called from [p] in some trace. *)
Definition calls (traces : list Trace) (p q : loc) : Prop :=
  Exists (λ t, 0 < adjacent p q (Stack t)) traces.

(** [n.EdgeWeights[m]] with its presence, and [m.BackLinks[n]]. *)
Definition edge_weight (objs : list Node) (n m : loc) : option Z :=
  nd ← objs !! n; default ∅ (EdgeWeights nd) !! m.

Definition back_link (objs : list Node) (m n : loc) : option bool :=
  md ← objs !! m; default ∅ (BackLinks md) !! n.

Global Instance calls_dec traces p q : Decision (calls traces p q) :=
  decide (Exists (λ t, 0 < adjacent p q (Stack t)) traces).


(** The edge table after a stack, from the child [child]: the stack seen
    is [child] (when there is one) followed by [stack]. *)
Definition seen (child : option loc) (stack : list loc) : list loc :=
  match child with Some q => q :: stack | None => stack end.

(** The invariant of [CreateNodes] on the edges, with the edges by call
    site [E]: every node allocated is the node of its call site; the weight
    of an edge between two nodes is what [E] holds for their call sites; an
    edge leads to a node allocated; [m.BackLinks[n]] is true exactly when
    [n] has an edge to [m]; [E] only mentions call sites that have a node. *)
Record en_inv (st : cn_state) (E : gmap (loc * loc) Z) : Prop := {
  en_nodes : cn_inv st;
  en_registered : ∀ n nd, cn_objs st !! n = Some nd → cn_nodes st !! Node_CallSite nd = Some n;
  en_edges : ∀ n m nd md, cn_objs st !! n = Some nd → cn_objs st !! m = Some md →
    edge_weight (cn_objs st) n m = E !! (Node_CallSite nd, Node_CallSite md);
  en_closed : ∀ n m, is_Some (edge_weight (cn_objs st) n m) → (m < length (cn_objs st))%nat;
  en_back : ∀ n m, back_link (cn_objs st) m n = (λ _, true) <$> edge_weight (cn_objs st) n m;
  en_dom : ∀ p q, is_Some (E !! (p, q)) → is_Some (cn_nodes st !! p) ∧ is_Some (cn_nodes st !! q)
}.

(** The child of the loop of [CreateNodes] is the node of the call site
    visited before, when there is one. *)
Definition child_of (st : cn_state) (child csite : option loc) : Prop :=
  match child, csite with
  | Some ch, Some q => cn_nodes st !! q = Some ch
  | None, None => True
  | _, _ => False
  end.

(** Two call sites and two traces to run the aggregator on. *)
Definition example_sites : list CallSite :=
  [mkCallSite "foo" "Foo.java" 10 0 0; mkCallSite "bar" "Bar.java" 5 0 0].

Definition example_traces : list Trace :=
  [mkTrace 1 [0; 1]%nat 5; mkTrace 2 [1]%nat 3].

End Main.

(** ** hprof.go: the parser of the ASCII CPU-sampling dump *)

Module Hprof.
Import Main.

Definition code (c : ascii) : Z := Z.of_nat (nat_of_ascii c).

Definition tab : ascii := ascii_of_nat 9.

Definition is_digit (c : ascii) : bool := (48 <=? code c) && (code c <=? 57).

(** [strip_prefix p s] is [Some r] when [s = p ++ r]. *)
Fixpoint strip_prefix (p s : string) : option string :=
  match p, s with
  | EmptyString, _ => Some s
  | String a p', String b s' => if Ascii.eqb a b then strip_prefix p' s' else None
  | String _ _, EmptyString => None
  end.

(** strings.HasPrefix, strings.TrimPrefix *)
Definition HasPrefix (s p : string) : bool := bool_decide (is_Some (strip_prefix p s)).

Definition TrimPrefix (s p : string) : string := default s (strip_prefix p s).

(** [span f s]: the longest prefix of [s] whose characters satisfy [f], and
    the rest; this is what a greedy [c+] (or [c*]) takes when the character
    that must follow is outside the class. *)
Fixpoint span (f : ascii → bool) (s : string) : string * string :=
  match s with
  | EmptyString => (EmptyString, EmptyString)
  | String c s' =>
      if f c then let '(a, b) := span f s' in (String c a, b)
      else (EmptyString, s)
  end.

Definition nonempty (s : string) : bool :=
  match s with EmptyString => false | String _ _ => true end.

Definition all_chars (f : ascii → bool) (s : string) : bool :=
  forallb f (String.list_ascii_of_string s).

(** strconv.Atoi on a 64-bit platform: an optional sign, then one or more
    decimal digits, the value within int64; [None] stands for a non-nil
    error. *)
Definition digits_value (ds : string) : Z :=
  fold_left (λ acc c, acc * 10 + (code c - 48)) (String.list_ascii_of_string ds) 0.

Definition Atoi (s : string) : option Z :=
  let '(neg, ds) :=
    match s with
    | String c r =>
        if Ascii.eqb c "-" then (true, r)
        else if Ascii.eqb c "+" then (false, r)
        else (false, s)
    | EmptyString => (false, s)
    end in
  if nonempty ds && all_chars is_digit ds then
    let v := if neg : bool then - digits_value ds else digits_value ds in
    if bool_decide (- 2 ^ 63 <= v < 2 ^ 63) then Some v else None
  else None.

(** traceHeader = `^TRACE (\d+):$`; the result is the submatch. *)
Definition traceHeader (line : string) : option string :=
  rest ← strip_prefix "TRACE " line;
  let '(ds, tl) := span is_digit rest in
  if nonempty ds && String.eqb tl ":" then Some ds else None.

(** traceLine = `^([^\(]+)\(([^\:]+):([^\)]+)\)$`; the result is the three
    submatches. No class contains the character that follows it, so each
    group ends at the first occurrence of that character. *)
Definition traceLine (line : string) : option (string * string * string) :=
  let '(name, r1) := span (λ c, negb (Ascii.eqb c "(")) line in
  r1 ← strip_prefix "(" r1;
  let '(file, r2) := span (λ c, negb (Ascii.eqb c ":")) r1 in
  r2 ← strip_prefix ":" r2;
  let '(ln, r3) := span (λ c, negb (Ascii.eqb c ")")) r2 in
  if nonempty name && nonempty file && nonempty ln && String.eqb r3 ")"
  then Some (name, file, ln) else None.

(** samplesHeader = `^CPU SAMPLES BEGIN \(total = (\d+)\)` (no end anchor) *)
Definition samplesHeader (line : string) : bool :=
  match strip_prefix "CPU SAMPLES BEGIN (total = " line with
  | Some rest =>
      let '(ds, tl) := span is_digit rest in
      nonempty ds && HasPrefix tl ")"
  | None => false
  end.

(** The class [\s] of Go's regexp: [\t\n\f\r ]. *)
Definition is_re_space (c : ascii) : bool :=
  bool_decide (code c = 9 ∨ code c = 10 ∨ code c = 12 ∨ code c = 13 ∨ code c = 32).

(** [word w] then [\s+] *)
Definition word_spaces (w s : string) : option string :=
  r ← strip_prefix w s;
  let '(sp, r') := span is_re_space r in
  if nonempty sp then Some r' else None.

(** samplesColumns = `^rank\s+self\s+accum\s+count\s+trace\s+method$` *)
Definition samplesColumns (line : string) : bool :=
  bool_decide
    ((r ← word_spaces "rank" line; r ← word_spaces "self" r;
      r ← word_spaces "accum" r; r ← word_spaces "count" r;
      word_spaces "trace" r) = Some "method"%string).

(** The white space of strings.Fields is unicode.IsSpace: the ASCII
    characters [\t\n\v\f\r ] and the code points U+0085, U+00A0, U+1680,
    U+2000..U+200A, U+2028, U+2029, U+202F, U+205F, U+3000. Their UTF-8
    encodings start with a lead byte, which is never inside another rune, so
    they are recognised on the bytes. [space_width s] is the width of the
    white-space rune at the head of [s]. *)
Definition space_width (s : string) : option nat :=
  match map code (String.list_ascii_of_string s) with
  | 9 :: _ | 10 :: _ | 11 :: _ | 12 :: _ | 13 :: _ | 32 :: _ => Some 1%nat
  | 194 :: 133 :: _ | 194 :: 160 :: _ => Some 2%nat
  | 225 :: 154 :: 128 :: _ => Some 3%nat
  | 226 :: 128 :: b :: _ =>
      if bool_decide (128 <= b <= 138 ∨ b = 168 ∨ b = 169 ∨ b = 175)
      then Some 3%nat else None
  | 226 :: 129 :: 159 :: _ => Some 3%nat
  | 227 :: 128 :: 128 :: _ => Some 3%nat
  | _ => None
  end.

(** [fields_from s skip cur]: [skip] bytes of a white-space rune are still
    to be dropped; [cur] is the field being collected. *)
Fixpoint fields_from (s : string) (skip : nat) (cur : string) : list string :=
  match s with
  | EmptyString => if nonempty cur then [cur] else []
  | String c s' =>
      match skip with
      | S k => fields_from s' k cur
      | O =>
          match space_width s with
          | Some w =>
              (if nonempty cur then [cur] else []) ++ fields_from s' (w - 1) EmptyString
          | None => fields_from s' 0 (cur +:+ String c EmptyString)
          end
      end
  end.

(** strings.Fields *)
Definition Fields (s : string) : list string := fields_from s 0 EmptyString.

Inductive parse_error :=
| CannotParseTraceHeader    (* "cannot parse TRACE line" *)
| DuplicateTrace (id : Z)   (* "duplicate trace with id" *)
| CannotParseTraceLine      (* "cannot parse trace line" *)
| BadLineNumber             (* "bad line number" *)
| UnexpectedColumns         (* "unexpected number of columns" *)
| CannotParseCount          (* "cannot parse count" *)
| CannotParseId             (* "cannot parse id" *)
| NoSuchTrace (id : Z).     (* "found id %d, but no trace with such id exists" *)

(** The outcome of parsing: [Fatal n e] is [parseError], which logs the
    1-based line number and exits the process. *)
Inductive parsing (A : Type) :=
| Parsed (a : A)
| Fatal (lineNumber : Z) (e : parse_error).
Arguments Parsed {A} a.
Arguments Fatal {A} lineNumber e.

Global Instance parsing_bind : MBind parsing := λ A B k m,
  match m with
  | Parsed a => k a
  | Fatal n e => Fatal n e
  end.

(** The variables of [ParseHProfFile]. [currentTrace] always points to the
    trace stored at [traces[currentTrace.ID]] (line 167), so the pointer is
    kept as that key; the call sites allocated so far are the arena
    [p_sites]. *)
Record pstate := mkP {
  p_sites : list CallSite;
  lineNumber : Z;
  traces : gmap Z Trace;
  callSites : gmap string loc; (* by line (stripped of leading \t) *)
  currentTrace : option Z;
  inTrace : bool;
  inSamples : bool
}.

Definition push_site (p : loc) (t : Trace) : Trace :=
  mkTrace (ID t) (Stack t ++ [p]) (TraceCount t).

Definition set_count (c : Z) (t : Trace) : Trace :=
  mkTrace (ID t) (Stack t) c.

(** One iteration of the scanner loop, in the block for header lines. *)
Definition header_line (line : string) (st : pstate) : parsing pstate :=
  match traceHeader line with
  | Some digits =>
      match Atoi digits with
      | None => Fatal (lineNumber st) CannotParseTraceHeader
      | Some id =>
          match traces st !! id with
          | Some _ => Fatal (lineNumber st) (DuplicateTrace id)
          | None =>
              Parsed (mkP (p_sites st) (lineNumber st) (<[id := mkTrace id [] 0]> (traces st))
                          (callSites st) (Some id) true (inSamples st))
          end
      end
  | None =>
      Parsed (mkP (p_sites st) (lineNumber st) (traces st) (callSites st) (currentTrace st)
                  (inTrace st) (if samplesHeader line then true else inSamples st))
  end.

(** The block for the lines of a trace: the call site of the line is looked
    up by the text of the line, and allocated when the text is new. *)
Definition resolve_site (line : string) (st : pstate) : parsing (loc * list CallSite * gmap string loc) :=
  match callSites st !! line with
  | Some callSite => Parsed (callSite, p_sites st, callSites st)
  | None =>
      match traceLine line with
      | None => Fatal (lineNumber st) CannotParseTraceLine
      | Some (name, file, ln) =>
          n ← match Atoi ln with
              | Some n => Parsed n
              | None =>
                  if String.eqb ln "Unknown line" then Parsed (-1)
                  else Fatal (lineNumber st) BadLineNumber
              end;
          let callSite := length (p_sites st) in
          Parsed (callSite, p_sites st ++ [mkCallSite name file n 0 0],
                  <[line := callSite]> (callSites st))
      end
  end.

Definition trace_line (line0 : string) (st : pstate) : parsing pstate :=
  let line := TrimPrefix line0 (String tab EmptyString) in
  r ← resolve_site line st;
  let '(callSite, sites, cs) := r in
  Parsed (mkP sites (lineNumber st)
              (match currentTrace st with
               | Some id => alter (push_site callSite) id (traces st)
               | None => traces st
               end)
              cs (currentTrace st) (inTrace st) (inSamples st)).

(** The block for the lines of the samples table. *)
Definition samples_line (line : string) (st : pstate) : parsing pstate :=
  st1 ← (if HasPrefix line " " then
           let fields := Fields line in
           if bool_decide (length fields = 6%nat) then
             match Atoi (default EmptyString (fields !! 3%nat)) with
             | None => Fatal (lineNumber st) CannotParseCount
             | Some count =>
                 match Atoi (default EmptyString (fields !! 4%nat)) with
                 | None => Fatal (lineNumber st) CannotParseId
                 | Some id =>
                     match traces st !! id with
                     | None => Fatal (lineNumber st) (NoSuchTrace id)
                     | Some _ =>
                         Parsed (mkP (p_sites st) (lineNumber st)
                                     (alter (set_count count) id (traces st))
                                     (callSites st) (currentTrace st) (inTrace st) (inSamples st))
                     end
                 end
             end
           else Fatal (lineNumber st) UnexpectedColumns
         else Parsed st);
  if samplesColumns line then Parsed st1
  else if String.eqb line "CPU SAMPLES END" then
    Parsed (mkP (p_sites st1) (lineNumber st1) (traces st1) (callSites st1) (currentTrace st1)
                (inTrace st1) false)
  else Parsed st1.

(** The body of [for scanner.Scan()] on the line [line]. *)
Definition scan_line (line : string) (st0 : pstate) : parsing pstate :=
  let st1 := mkP (p_sites st0) (lineNumber st0 + 1) (traces st0) (callSites st0)
                 (currentTrace st0) (inTrace st0) (inSamples st0) in
  let st := if inTrace st1 && negb (HasPrefix line (String tab EmptyString))
            then mkP (p_sites st1) (lineNumber st1) (traces st1) (callSites st1)
                     (currentTrace st1) false (inSamples st1)
            else st1 in
  if negb (inTrace st) && negb (inSamples st) then header_line line st
  else if inTrace st then trace_line line st
  else if inSamples st then samples_line line st
  else Parsed st.

Fixpoint scan_lines (lines : list string) (st : pstate) : parsing pstate :=
  match lines with
  | [] => Parsed st
  | line :: rest => st' ← scan_line line st; scan_lines rest st'
  end.

Definition initial : pstate := mkP [] 0 ∅ ∅ None false false.

(** [ParseHProfFile] on the lines the scanner yields (the file opened and
    split into lines without error): the traces by ID, with the arena of the
    call sites their stacks point into. *)
Definition ParseHProfFile (lines : list string) : parsing (list CallSite * gmap Z Trace) :=
  st ← scan_lines lines initial;
  Parsed (p_sites st, traces st).

(** *** Vocabulary of the properties of the parser *)

(** The line number of a call site, from the third submatch of the trace
    line (lines 185-192). *)
Definition line_number (ln : string) : option Z :=
  match Atoi ln with
  | Some n => Some n
  | None => if String.eqb ln "Unknown line" then Some (-1) else None
  end.

(** What holds of the call sites, the traces and the map [callSites]
    throughout the scan: a stack entry is the call site of some line text;
    the call site of a line text holds what the text parses to, with zero
    counts; no two texts have the same call site; a trace is stored at its
    ID. *)
Record pinv (sites : list CallSite) (tr : gmap Z Trace) (cs : gmap string loc) : Prop := {
  pinv_stack : ∀ id t p, tr !! id = Some t → p ∈ Stack t → ∃ L, cs !! L = Some p;
  pinv_sites : ∀ L p, cs !! L = Some p →
    ∃ name file ln n, traceLine L = Some (name, file, ln) ∧ line_number ln = Some n ∧
      sites !! p = Some (mkCallSite name file n 0 0);
  pinv_fresh : ∀ p c, sites !! p = Some c → Count c = 0 ∧ CumulativeCount c = 0;
  pinv_inj : ∀ L L' p, cs !! L = Some p → cs !! L' = Some p → L = L';
  pinv_id : ∀ id t, tr !! id = Some t → ID t = id
}.

Definition pinv_state (st : pstate) : Prop :=
  pinv (p_sites st) (traces st) (callSites st).

(** While the parser is inside a trace block there is a current trace,
    and the current trace is one of the map. *)
Definition current_stored (st : pstate) : Prop :=
  (inTrace st = true → is_Some (currentTrace st)) ∧
  ∀ id, currentTrace st = Some id → is_Some (traces st !! id).

(** From [st] to [st'] the map [callSites] keeps its entries and the
    stacks of the traces keep theirs, in their positions. *)
Definition grows (st st' : pstate) : Prop :=
  callSites st ⊆ callSites st' ∧
  ∀ id t, traces st !! id = Some t →
    ∃ t', traces st' !! id = Some t' ∧ Stack t `prefix_of` Stack t'.

(** The character [c] does not occur in [s]. *)
Definition lacks (c : ascii) (s : string) : Prop :=
  all_chars (λ a, negb (Ascii.eqb a c)) s = true.

(** The text [L] of a frame line parses to the call site [c], as it is when
    allocated. *)
Definition parses_to (L : string) (c : CallSite) : Prop :=
  ∃ ln, traceLine L = Some (Name c, Filename c, ln) ∧
        line_number ln = Some (LineNumber c) ∧
        Count c = 0 ∧ CumulativeCount c = 0.

(** A column of the samples table: printable ASCII characters, at least
    one; a run of [n] spaces; and a row, each column after at least one
    space. *)
Definition plain (s : string) : Prop :=
  s ≠ EmptyString ∧ all_chars (λ c, (33 <=? code c) && (code c <=? 126)) s = true.

Fixpoint spaces (n : nat) : string :=
  match n with
  | O => EmptyString
  | S n' => String " " (spaces n')
  end.

Definition row (cols : list (nat * string)) : string :=
  foldr (λ col acc, spaces (S col.1) +:+ col.2 +:+ acc) EmptyString cols.

End Hprof.

(** ** The process around the pipeline: files, output and exits *)

Module Os.
Import Main.

Inductive event :=
| OpenInput (filename : string)    (* os.Open in ParseHProfFile *)
| Printf (p q : Z)                 (* a line on the standard output *)
| CreateOutput (filename : string) (* os.Create *)
| WriteDot (filename : string) (nodes : list loc). (* WriteDotFormat *)

Inductive fatal :=
| BothFilters   (* "Cannot provide both -topk and -regexp." *)
| UsageLine     (* "Usage: hprofviz HPROF_FILE.txt OUTPUT_FILE.dot" *)
| OpenFailed
| ParseFailed (lineNumber : Z) (e : Hprof.parse_error)
| RegexpFailed
| CreateFailed
| WriteFailed.

(** How the process ends other than by returning from [main]:
    [LogFatal] is log.Fatal (the message, then exit status 1), [UsageExit]
    is the [flag.Usage] of main.go (the usage text, then exit status 1),
    [Panicked] is an uncaught run-time panic. *)
Inductive termination :=
| LogFatal (msg : fatal)
| UsageExit
| Panicked (p : runtime_panic).

(** A computation of the process: the events so far, and either a value or
    the end of the process. *)
Inductive io (A : Type) :=
| Running (log : list event) (a : A)
| Stopped (log : list event) (t : termination).
Arguments Running {A} log a.
Arguments Stopped {A} log t.

Global Instance io_bind : MBind io := λ A B k m,
  match m with
  | Running l a =>
      match k a with
      | Running l' b => Running (l ++ l') b
      | Stopped l' t => Stopped (l ++ l') t
      end
  | Stopped l t => Stopped l t
  end.

Definition emit (e : event) : io unit := Running [e] tt.

Definition stop {A} (t : termination) : io A := Stopped [] t.

Definition run_go {A} (m : go A) : io A :=
  match m with
  | Return a => Running [] a
  | Panics p => Stopped [] (Panicked p)
  end.

(** What the process finds around it: the input files (as the lines the
    scanner yields), regexp.Compile, whether os.Create succeeds, whether
    WriteDotFormat succeeds. *)
Record world := mkWorld {
  files : string → option (list string);
  regexp_Compile : string → option (string → bool);
  can_create : string → bool;
  dot_ok : list loc → bool
}.

(** [ParseHProfFile(filename)] with its os.Open. *)
Definition ParseHProfFile (w : world) (filename : string)
    : io (list CallSite * gmap Z Trace) :=
  _ ← emit (OpenInput filename);
  match files w filename with
  | None => stop (LogFatal OpenFailed)
  | Some lines =>
      match Hprof.ParseHProfFile lines with
      | Hprof.Fatal n e => stop (LogFatal (ParseFailed n e))
      | Hprof.Parsed r => Running [] r
      end
  end.

(** [os.Create(flag.Arg(1))] then, where the caller puts it,
    [WriteDotFormat]. *)
Definition create_output (w : world) (out : string) : io unit :=
  _ ← emit (CreateOutput out);
  if can_create w out then Running [] tt else stop (LogFatal CreateFailed).

Definition WriteDotFormat (w : world) (filename : string) (nodes : list loc) : io unit :=
  _ ← emit (WriteDot filename nodes);
  if dot_ok w nodes then Running [] tt else stop (LogFatal WriteFailed).

End Os.

(** ** main.go: [main] *)

Module Cli.
Import Main Os.

(** The flags [-topk] (default -1) and [-regex] (default the empty string)
    and the remaining arguments. *)
Record flags := mkFlags {
  topk : Z;
  regex : string;
  args : list string
}.

Definition main (sort : sorter) (w : world) (f : flags) : io unit :=
  if bool_decide (0 < topk f) && negb (String.eqb (regex f) "")
  then stop (LogFatal BothFilters)
  else if negb (bool_decide (length (args f) = 2%nat))
  then stop UsageExit
  else
    let filename := default EmptyString (args f !! 0%nat) in
    r ← ParseHProfFile w filename;
    let '(sites, byID) := r in
    let traces := (map_to_list byID).*2 in
    traces ← (if bool_decide (0 < topk f) then
                let countBefore := CountSum traces in
                kept ← run_go (FilterTopK sort traces (topk f));
                _ ← emit (Printf (CountSum kept) countBefore);
                Running [] kept
              else Running [] traces);
    traces ← (if negb (String.eqb (regex f) "") then
                match regexp_Compile w (regex f) with
                | None => stop (LogFatal RegexpFailed)
                | Some reg =>
                    let countBefore := CountSum traces in
                    kept ← run_go (FilterMatching reg sites traces);
                    _ ← emit (Printf (CountSum kept) countBefore);
                    Running [] kept
                end
              else Running [] traces);
    r ← run_go (CreateNodes sites traces);
    let '(_, _, nodes) := r in
    _ ← emit (Printf (Z.of_nat (length nodes)) 0);
    _ ← create_output w (default EmptyString (args f !! 1%nat));
    WriteDotFormat w filename nodes.

End Cli.

(** ** main.go with the [-keep] flag: nodes that carry their own count, and
    the pruning of the node list *)

Module Keep.
Import Main Os.

(** The call sites of this variant have no counts; the arena of call sites
    is the parser's, and the counts in it are not used. *)
Record Node := mkNode {
  Node_CallSite : loc;
  Count : Z;
  EdgeWeights : option (gmap loc Z) (* outbound *)
}.

Record cn_state := mkCn {
  cn_objs : list Node;
  cn_nodes : gmap loc loc
}.

Definition add_Count (c : Z) (nd : Node) : Node :=
  mkNode (Node_CallSite nd) (add64 (Count nd) c) (EdgeWeights nd).

Definition add_edge (child : loc) (c : Z) (nd : Node) : Node :=
  let m := default ∅ (EdgeWeights nd) in
  mkNode (Node_CallSite nd) (Count nd) (Some (<[child := add64 (default 0 (m !! child)) c]> m)).

Definition visit (c : Z) (sp : loc) (child : option loc) (st : cn_state)
    : cn_state * option loc :=
  let '(node, objs, nodes) :=
    match cn_nodes st !! sp with
    | Some node => (node, cn_objs st, cn_nodes st)
    | None =>
        let node := length (cn_objs st) in
        (node, cn_objs st ++ [mkNode sp 0 None], <[sp := node]> (cn_nodes st))
    end in
  let objs1 := alter (add_Count c) node objs in
  let objs2 :=
    match child with
    | Some ch => alter (add_edge ch c) node objs1
    | None => objs1
    end in
  (mkCn objs2 nodes, Some node).

Fixpoint walk (c : Z) (stack : list loc) (child : option loc) (st : cn_state) : cn_state :=
  match stack with
  | [] => st
  | sp :: rest => let r := visit c sp child st in walk c rest r.2 r.1
  end.

(** [CreateNodes] of this variant: it dereferences nodes only, which it
    allocates itself, so it cannot panic. *)
Definition CreateNodes (traces : list Trace) : list Node * list loc :=
  let st := foldl (λ st trace, walk (TraceCount trace) (Stack trace) None st)
                  (mkCn [] ∅) traces in
  (cn_objs st, (map_to_list (cn_nodes st)).*2).

(** byWeight.Less on two node pointers that are not nil. *)
Definition byWeight_Less (objs : list Node) (a b : loc) : bool :=
  bool_decide (default 0 (Count <$> objs !! a) < default 0 (Count <$> objs !! b)).

(** [for edge := range m { if pruned[edge] { delete(m, edge) } }] *)
Definition delete_pruned (pruned : gset loc) (m : gmap loc Z) : gmap loc Z :=
  foldl (λ acc edge, if decide (edge ∈ pruned) then delete edge acc else acc)
        m (map_to_list m).*1.

(** The loop of [Prune] over [topK]. *)
Fixpoint prune_edges (pruned : gset loc) (topK : list loc) (objs : list Node)
    : go (list Node) :=
  match topK with
  | [] => Return objs
  | node :: rest =>
      nd ← deref objs node;
      let m := delete_pruned pruned <$> EdgeWeights nd in
      let m' := if bool_decide (size (default ∅ m) = 0%nat) then None else m in
      prune_edges pruned rest (<[node := mkNode (Node_CallSite nd) (Count nd) m']> objs)
  end.

(** [Prune] with the value [keep] of the flag. Sorting two or more nodes
    compares, and so dereferences, each of them. [nodes[:keep]] panics when
    [keep] is negative or beyond the capacity of the slice, and
    [nodes[keep:]] when it is beyond its length. *)
Definition Prune (sort : sorter) (keep : Z) (objs : list Node) (nodes : list loc)
    : go (list Node * list loc) :=
  _ ← (if bool_decide (2 ≤ length nodes)%nat
       then foldr (λ n acc, _ ← deref objs n; acc) (Return tt) nodes
       else Return tt);
  let nodes := sort loc (Reverse (byWeight_Less objs)) nodes in
  if bool_decide (0 <= keep <= Z.of_nat (length nodes)) then
    let topK := take (Z.to_nat keep) nodes in
    let pruned : gset loc := list_to_set (drop (Z.to_nat keep) nodes) in
    objs' ← prune_edges pruned topK objs;
    Return (objs', topK)
  else Panics (SliceBoundsOutOfRange keep (Z.of_nat (length nodes))).

Definition main (sort : sorter) (w : world) (keep : Z) (args : list string) : io unit :=
  if negb (bool_decide (length args = 2%nat))
  then stop (LogFatal UsageLine)
  else
    let filename := default EmptyString (args !! 0%nat) in
    r ← ParseHProfFile w filename;
    let '(objs, nodes) := CreateNodes (map_to_list r.2).*2 in
    _ ← create_output w (default EmptyString (args !! 1%nat));
    r ← run_go (Prune sort keep objs nodes);
    WriteDotFormat w filename r.2.

(** *** Vocabulary of the properties of [Prune] *)

(** What the loop of [Prune] makes of a retained node. *)
Definition pruned_node (pruned : gset loc) (nd : Node) : Node :=
  let m := delete_pruned pruned <$> EdgeWeights nd in
  mkNode (Node_CallSite nd) (Count nd)
         (if bool_decide (size (default ∅ m) = 0%nat) then None else m).

(** [node.Count] of the node at [n]. *)
Definition count_of (objs : list Node) (n : loc) : Z := default 0 (Count <$> objs !! n).

(** The invariant of [CreateNodes]: the node that [nodes] holds for a call
    site is allocated and embeds it; every node allocated is the node of
    its call site; an edge leads to a node allocated. *)
Record kn_inv (st : cn_state) : Prop := {
  kn_nodes : ∀ sp node, cn_nodes st !! sp = Some node →
    ∃ nd, cn_objs st !! node = Some nd ∧ Node_CallSite nd = sp;
  kn_registered : ∀ n nd, cn_objs st !! n = Some nd →
    cn_nodes st !! Node_CallSite nd = Some n;
  kn_closed : ∀ n nd c, cn_objs st !! n = Some nd →
    is_Some (default ∅ (EdgeWeights nd) !! c) → (c < length (cn_objs st))%nat
}.

End Keep.

(** ** dot.go: the graph that [WriteDotFormat] hands to the template *)

Module Dot.
Import Main.

Record DotNode := mkDotNode {
  Num : Z;
  Label : string
}.

Record DotEdge := mkDotEdge {
  Node1 : Z; (* DotNode.Num *)
  Node2 : Z;
  EdgeLabel : string
}.

Record DotGraph := mkDotGraph {
  Graph_Filename : string;
  Nodes : list DotNode;
  Edges : list DotEdge
}.

(** What [WriteDotFormat] reads through a [*Node]: the fields of the
    embedded call site, the count and the edges. It is written for both
    variants of main.go, whose nodes differ in where the count is kept. *)
Record view := mkView {
  v_Count : Z;
  v_Name : string;
  v_Filename : string;
  v_LineNumber : Z;
  v_EdgeWeights : option (gmap loc Z)
}.

(** strconv.Itoa, and the verb %d of fmt.Sprintf on an int *)
Definition Itoa (z : Z) : string := pretty z.

(** [fmt.Sprintf("(%d) %s[%s:%s]", ...)] with the line number, or "???". *)
Definition label (v : view) : string :=
  let lineNumber := if bool_decide (v_LineNumber v > 0) then Itoa (v_LineNumber v) else "???" in
  "(" +:+ Itoa (v_Count v) +:+ ") " +:+ v_Name v +:+ "[" +:+ v_Filename v
      +:+ ":" +:+ lineNumber +:+ "]".

Section graph.

(** [look n] is what the node at [n] holds; [None] when the pointer, or
    that of its call site, is nil: reading a field through it panics. *)
Variable look : loc → option view.

Definition read (n : loc) : go view :=
  match look n with
  | Some v => Return v
  | None => Panics NilDereference
  end.

(** The first loop: [num] is the next number, [tbl] is [nodeToDotNode] and
    [acc] is [dotNodes]. A slice has fewer than 2^63 elements, so [num]
    does not wrap. *)
Fixpoint dot_nodes (nodes : list loc) (num : Z) (tbl : gmap loc DotNode)
    (acc : list DotNode) : go (gmap loc DotNode * list DotNode) :=
  match nodes with
  | [] => Return (tbl, acc)
  | node :: rest =>
      v ← read node;
      let dotNode := mkDotNode num (label v) in
      dot_nodes rest (num + 1) (<[node := dotNode]> tbl) (acc ++ [dotNode])
  end.

(** [nodeToDotNode[n].Num]: the map yields nil for a key that is absent. *)
Definition num_of (tbl : gmap loc DotNode) (n : loc) : go Z :=
  match tbl !! n with
  | Some d => Return (Num d)
  | None => Panics NilDereference
  end.

(** The inner loop of the second loop, over the entries of
    [node.EdgeWeights] in the order the range visits them. *)
Fixpoint node_edges (tbl : gmap loc DotNode) (node : loc) (entries : list (loc * Z))
    : go (list DotEdge) :=
  match entries with
  | [] => Return []
  | (child, weight) :: rest =>
      n1 ← num_of tbl node;
      n2 ← num_of tbl child;
      es ← node_edges tbl node rest;
      Return (mkDotEdge n1 n2 (Itoa weight) :: es)
  end.

Fixpoint dot_edges (tbl : gmap loc DotNode) (nodes : list loc) : go (list DotEdge) :=
  match nodes with
  | [] => Return []
  | node :: rest =>
      v ← read node;
      es ← node_edges tbl node (map_to_list (default ∅ (v_EdgeWeights v)));
      es' ← dot_edges tbl rest;
      Return (es ++ es')
  end.

(** The graph that [WriteDotFormat] builds and executes the template on.
    The entries of a map are visited in the order of [map_to_list]; Go's
    order is some permutation of it. *)
Definition build_graph (filename : string) (nodes : list loc) : go DotGraph :=
  r ← dot_nodes nodes 1 ∅ [];
  edges ← dot_edges r.1 nodes;
  Return (mkDotGraph filename r.2 edges).

End graph.

(** The nodes of main.go, which read their count through the call site,
    and those of the variant with [-keep], which hold it. *)
Definition main_view (sites : list CallSite) (objs : list Node) (n : loc) : option view :=
  nd ← objs !! n;
  cs ← sites !! Node_CallSite nd;
  Some (mkView (Count cs) (Name cs) (Filename cs) (LineNumber cs) (EdgeWeights nd)).

Definition keep_view (sites : list CallSite) (objs : list Keep.Node) (n : loc) : option view :=
  nd ← objs !! n;
  cs ← sites !! Keep.Node_CallSite nd;
  Some (mkView (Keep.Count nd) (Name cs) (Filename cs) (LineNumber cs) (Keep.EdgeWeights nd)).

(** *** Vocabulary of the properties of the graph *)

(** Two nodes to build a graph on: the first has an edge to the second,
    whose line number is unknown. *)
Definition example_look (n : loc) : option view :=
  match n with
  | O => Some (mkView 5 "foo" "Foo.java" 10 (Some {[1%nat := 5]}))
  | S O => Some (mkView 5 "bar" "Bar.java" (-1) None)
  | _ => None
  end.


(** Every node of the list can be read, and its edges lead to nodes of the
    list. *)
Definition closed (look : loc → option view) (nodes : list loc) : Prop :=
  ∀ n, n ∈ nodes →
    ∃ v, look n = Some v ∧
         ∀ child, is_Some (default ∅ (v_EdgeWeights v) !! child) → child ∈ nodes.

End Dot.

(** ** hprofbin/hprofbin.go: the decoder of the binary HPROF format *)

Module Hprofbin.

Global Instance byte_eq_dec : EqDecision byte := Byte.byte_eq_dec.

(** The errors passed to [r.error]: the two of io.ReadFull and io.CopyN, and
    one per [r.errorf] call. *)
Inductive error :=
| EOF
| ErrUnexpectedEOF
| ClassUnknownName (nameID : Z)
| FrameUnknownMethodName (sid : Z)
| FrameUnknownMethodSig (sid : Z)
| FrameUnknownFilename (sid : Z)
| FrameUnknownClassSerial (serial : Z)
| TraceUnknownFrame (id : Z)
| UnexpectedBasicType (typ : Z)
| ClassDumpBadClass (classObjectID : Z)
| UnknownSubTag (tag : Z)
| BadHeaderString (s : list byte)
| BadIdSize (idSize : Z).

Record class := mkClass {
  class_serial : Z;
  class_id : Z;
  class_stackTraceSerial : Z;
  class_name : list byte
}.

Record frame := mkFrame {
  frame_id : Z;
  methodName : list byte;
  methodSig : list byte;
  filename : list byte;
  frame_class : class;
  lineNum : Z
}.

Record trace := mkTrace {
  trace_serial : Z;
  threadSerial : Z;
  frames : list frame
}.

(** The reader: [input] is what is left to read of the underlying stream
    (which ends without any other I/O error); the arrays [tags] and
    [subTags] are maps from the tag to its count, 0 when absent. Classes
    and frames are never changed once built, so the pointers to them are
    replaced by their values. *)
Record reader := mkReader {
  input : list byte;
  idSize : Z;
  strings : gmap Z (list byte);
  classByID : gmap Z class;
  classBySerial : gmap Z class;
  frameByID : gmap Z frame;
  traceBySerial : gmap Z trace;
  total : Z;
  instanceOverhead : Z;
  objectArrayOverhead : Z;
  primitiveArrayOverhead : Z;
  traceSizes : gmap Z Z;
  tags : gmap Z Z;
  subTags : gmap Z Z
}.

Definition newReader (stream : list byte) : reader :=
  mkReader stream 0 ∅ ∅ ∅ ∅ ∅ 0 0 0 0 ∅ ∅ ∅.

Definition instanceHeaderSize : Z := 16.
Definition objectArrayHeaderSize : Z := 24.
Definition primitiveArrayHeaderSize : Z := 24.

(** The outcome of a method of the reader: a value and the reader after
    it, [panic(readerError{e})], or a run-time panic of Go itself. *)
Inductive outcome (A : Type) :=
| Ok (a : A) (r : reader)
| Fails (e : error)
| Crashes (p : runtime_panic).
Arguments Ok {A} a r.
Arguments Fails {A} e.
Arguments Crashes {A} p.

Record dec (A : Type) := Dec { run : reader → outcome A }.
Arguments Dec {A} run.
Arguments run {A} d r.

Global Instance dec_ret : MRet dec := λ A a, Dec (λ r, Ok a r).

Global Instance dec_bind : MBind dec := λ A B k m,
  Dec (λ r,
    match run m r with
    | Ok a r' => run (k a) r'
    | Fails e => Fails e
    | Crashes p => Crashes p
    end).

(** r.error *)
Definition error_ {A} (e : error) : dec A := Dec (λ _, Fails e).

Definition crash {A} (p : runtime_panic) : dec A := Dec (λ _, Crashes p).

Definition get {A} (f : reader → A) : dec A := Dec (λ r, Ok (f r) r).

Definition modify (f : reader → reader) : dec unit := Dec (λ r, Ok tt (f r)).

Definition set_input (i : list byte) (r : reader) : reader :=
  mkReader i (idSize r) (strings r) (classByID r) (classBySerial r) (frameByID r)
    (traceBySerial r) (total r) (instanceOverhead r) (objectArrayOverhead r)
    (primitiveArrayOverhead r) (traceSizes r) (tags r) (subTags r).

Definition set_idSize (n : Z) (r : reader) : reader :=
  mkReader (input r) n (strings r) (classByID r) (classBySerial r) (frameByID r)
    (traceBySerial r) (total r) (instanceOverhead r) (objectArrayOverhead r)
    (primitiveArrayOverhead r) (traceSizes r) (tags r) (subTags r).

Definition set_strings (m : gmap Z (list byte)) (r : reader) : reader :=
  mkReader (input r) (idSize r) m (classByID r) (classBySerial r) (frameByID r)
    (traceBySerial r) (total r) (instanceOverhead r) (objectArrayOverhead r)
    (primitiveArrayOverhead r) (traceSizes r) (tags r) (subTags r).

Definition set_classes (byID bySerial : gmap Z class) (r : reader) : reader :=
  mkReader (input r) (idSize r) (strings r) byID bySerial (frameByID r)
    (traceBySerial r) (total r) (instanceOverhead r) (objectArrayOverhead r)
    (primitiveArrayOverhead r) (traceSizes r) (tags r) (subTags r).

Definition set_frameByID (m : gmap Z frame) (r : reader) : reader :=
  mkReader (input r) (idSize r) (strings r) (classByID r) (classBySerial r) m
    (traceBySerial r) (total r) (instanceOverhead r) (objectArrayOverhead r)
    (primitiveArrayOverhead r) (traceSizes r) (tags r) (subTags r).

Definition set_traceBySerial (m : gmap Z trace) (r : reader) : reader :=
  mkReader (input r) (idSize r) (strings r) (classByID r) (classBySerial r) (frameByID r)
    m (total r) (instanceOverhead r) (objectArrayOverhead r)
    (primitiveArrayOverhead r) (traceSizes r) (tags r) (subTags r).

Definition set_tags (m : gmap Z Z) (r : reader) : reader :=
  mkReader (input r) (idSize r) (strings r) (classByID r) (classBySerial r) (frameByID r)
    (traceBySerial r) (total r) (instanceOverhead r) (objectArrayOverhead r)
    (primitiveArrayOverhead r) (traceSizes r) m (subTags r).

Definition set_subTags (m : gmap Z Z) (r : reader) : reader :=
  mkReader (input r) (idSize r) (strings r) (classByID r) (classBySerial r) (frameByID r)
    (traceBySerial r) (total r) (instanceOverhead r) (objectArrayOverhead r)
    (primitiveArrayOverhead r) (traceSizes r) (tags r) m.

(** [m[k]++] on a counter array *)
Definition incr (k : Z) (m : gmap Z Z) : gmap Z Z :=
  <[k := add64 (default 0 (m !! k)) 1]> m.

(** The three accounting steps shared by the object dumps:
    [r.total += size], the overhead counter selected by [which] [+=
    header], [r.traceSizes[traceSerial] += size]. *)
Inductive dump_kind := Instance | ObjectArray | PrimitiveArray.

Definition account (which : dump_kind) (traceSerial size header : Z) (r : reader) : reader :=
  mkReader (input r) (idSize r) (strings r) (classByID r) (classBySerial r) (frameByID r)
    (traceBySerial r) (add64 (total r) size)
    (match which with Instance => add64 (instanceOverhead r) header | _ => instanceOverhead r end)
    (match which with ObjectArray => add64 (objectArrayOverhead r) header | _ => objectArrayOverhead r end)
    (match which with PrimitiveArray => add64 (primitiveArrayOverhead r) header | _ => primitiveArrayOverhead r end)
    (<[traceSerial := add64 (default 0 (traceSizes r !! traceSerial)) size]> (traceSizes r))
    (tags r) (subTags r).

(** binary.BigEndian *)
Definition BigEndian (b : list byte) : Z :=
  foldl (λ acc x, acc * 256 + Z.of_N (Byte.to_N x)) 0 b.

(** [io.ReadFull(r, b)] with [len(b) = n]: all [n] bytes, or io.EOF when
    there is none and io.ErrUnexpectedEOF when there are fewer; no error
    when [n] is 0. *)
Definition ReadFull (n : nat) : dec (list byte) :=
  Dec (λ r,
    if bool_decide (n ≤ length (input r))%nat
    then Ok (take n (input r)) (set_input (drop n (input r)) r)
    else Fails (match input r with [] => EOF | _ => ErrUnexpectedEOF end)).

Definition u1 : dec Z := b ← ReadFull 1; mret (BigEndian b).
Definition u2 : dec Z := b ← ReadFull 2; mret (BigEndian b).
Definition u4 : dec Z := b ← ReadFull 4; mret (BigEndian b).
Definition u8 : dec Z := b ← ReadFull 8; mret (BigEndian b).
Definition id : dec Z := u8.

(** [r.bytes(n)]: [r.scratch[:n]] when [n <= 8], which panics for a
    negative [n]. *)
Definition bytes (n : Z) : dec (list byte) :=
  if bool_decide (n <= 8) then
    if bool_decide (n < 0) then crash (SliceBoundsOutOfRange n 8)
    else ReadFull (Z.to_nat n)
  else ReadFull (Z.to_nat n).

(** [r.ignore(n)]: io.CopyN reports io.EOF when fewer than [n] bytes are
    left. *)
Definition ignore (n : Z) : dec unit :=
  Dec (λ r,
    if bool_decide (n <= Z.of_nat (length (input r)))
    then Ok tt (set_input (drop (Z.to_nat n) (input r)) r)
    else Fails EOF).

Definition readString (n : Z) : dec unit :=
  id_ ← id;
  sz ← get idSize;
  s ← bytes (n - sz);
  modify (λ r, set_strings (<[id_ := s]> (strings r)) r).

Definition readClass (n : Z) : dec unit :=
  serial ← u4;
  id_ ← id;
  stackTraceSerial ← u4;
  nameID ← id;
  names ← get strings;
  match names !! nameID with
  | None => error_ (ClassUnknownName nameID)
  | Some name =>
      let c := mkClass serial id_ stackTraceSerial name in
      modify (λ r, set_classes (<[id_ := c]> (classByID r)) (<[serial := c]> (classBySerial r)) r)
  end.

Definition unknownFile : list byte :=
  String.list_byte_of_string "<unknown>".

Definition lookup_string (sid : Z) (e : error) : dec (list byte) :=
  names ← get strings;
  match names !! sid with
  | Some s => mret s
  | None => error_ e
  end.

Definition readFrame (n : Z) : dec unit :=
  id_ ← id;
  sid ← id;
  methodName ← lookup_string sid (FrameUnknownMethodName sid);
  sid ← id;
  methodSig ← lookup_string sid (FrameUnknownMethodSig sid);
  sid ← id;
  filename ← (if bool_decide (sid > 0) then lookup_string sid (FrameUnknownFilename sid)
              else mret unknownFile);
  serial ← u4;
  classes ← get classBySerial;
  match classes !! serial with
  | None => error_ (FrameUnknownClassSerial serial)
  | Some c =>
      lineNum ← u4;
      let f := mkFrame id_ methodName methodSig filename c lineNum in
      modify (λ r, set_frameByID (<[id_ := f]> (frameByID r)) r)
  end.

(** [for i := range frames], [n] frames to go *)
Fixpoint read_frames (n : nat) : dec (list frame) :=
  match n with
  | O => mret []
  | S n' =>
      id_ ← id;
      known ← get frameByID;
      match known !! id_ with
      | None => error_ (TraceUnknownFrame id_)
      | Some f => fs ← read_frames n'; mret (f :: fs)
      end
  end.

Definition readTrace (_ : Z) : dec unit :=
  serial ← u4;
  threadSerial ← u4;
  n ← u4;
  frames ← read_frames (Z.to_nat n);
  let t := mkTrace serial threadSerial frames in
  modify (λ r, set_traceBySerial (<[serial := t]> (traceBySerial r)) r).

Definition basicSize (typ : Z) : dec Z :=
  if bool_decide (typ = 2) then get idSize (* object *)
  else if bool_decide (typ = 4) then mret 1 (* boolean *)
  else if bool_decide (typ = 5) then mret 2 (* char *)
  else if bool_decide (typ = 6) then mret 4 (* float *)
  else if bool_decide (typ = 7) then mret 8 (* double *)
  else if bool_decide (typ = 8) then mret 1 (* byte *)
  else if bool_decide (typ = 9) then mret 2 (* short *)
  else if bool_decide (typ = 10) then mret 4 (* int *)
  else if bool_decide (typ = 11) then mret 8 (* long *)
  else error_ (UnexpectedBasicType typ).

(** [for i := 0; i < count; i++ { body; n += k }]: the loops over the
    tables of a class dump, with the running value of [n]; [body] yields
    the [k] of its round. *)
Fixpoint repeat_add (count : nat) (body : dec Z) (n : Z) : dec Z :=
  match count with
  | O => mret n
  | S count' => k ← body; repeat_add count' body (n + k)
  end.

(** [for i := 0; i < count; i++ { body }]: the loop over the elements of an
    object array. *)
Fixpoint times (count : nat) (body : dec unit) : dec unit :=
  match count with
  | O => mret tt
  | S count' => _ ← body; times count' body
  end.

Definition readHeapDumpSegment : dec Z :=
  tag ← u1;
  _ ← modify (λ r, set_subTags (incr tag (subTags r)) r);
  sz ← get idSize;
  let n := 1 in
  if bool_decide (tag = 255) then (* ROOT UNKNOWN *)
    _ ← id; mret (n + sz)
  else if bool_decide (tag = 1) then (* ROOT JNI GLOBAL *)
    _ ← id; _ ← id; mret (n + (sz + sz))
  else if bool_decide (tag = 2) then (* ROOT JNI LOCAL *)
    _ ← id; _ ← u4; _ ← u4; mret (n + (sz + 4 + 4))
  else if bool_decide (tag = 3) then (* ROOT JAVA FRAME *)
    _ ← id; _ ← u4; _ ← u4; mret (n + (sz + 4 + 4))
  else if bool_decide (tag = 4) then (* ROOT NATIVE STACK *)
    _ ← id; _ ← u4; mret (n + (sz + 4))
  else if bool_decide (tag = 5) then (* ROOT STICKY CLASS *)
    _ ← id; mret (n + sz)
  else if bool_decide (tag = 6) then (* ROOT THREAD BLOCK *)
    _ ← id; _ ← u4; mret (n + (sz + 4))
  else if bool_decide (tag = 7) then (* ROOT MONITOR USED *)
    _ ← id; mret (n + sz)
  else if bool_decide (tag = 8) then (* ROOT THREAD OBJECT *)
    _ ← id; _ ← u4; _ ← u4; mret (n + (sz + 4 + 4))
  else if bool_decide (tag = 32) then (* CLASS DUMP *)
    classObjectID ← id;
    classes ← get classByID;
    match classes !! classObjectID with
    | None => error_ (ClassDumpBadClass classObjectID)
    | Some _ =>
        _ ← u4; _ ← id; _ ← id; _ ← id; _ ← id; _ ← id; _ ← id; _ ← u4;
        let n := n + (sz + 4 + sz + sz + sz + sz + sz + sz + 4) in
        numCP ← u2;
        let n := n + 2 in
        n ← repeat_add (Z.to_nat numCP)
              (_ ← u2; typ ← u1; w ← basicSize typ; _ ← ignore w; mret (2 + 1 + w)) n;
        numSF ← u2;
        let n := n + 2 in
        n ← repeat_add (Z.to_nat numSF)
              (_ ← id; typ ← u1; w ← basicSize typ; _ ← ignore w; mret (sz + 1 + w)) n;
        numIF ← u2;
        let n := n + 2 in
        repeat_add (Z.to_nat numIF) (_ ← id; _ ← u1; mret (sz + 1)) n
    end
  else if bool_decide (tag = 33) then (* INSTANCE DUMP *)
    _ ← id;
    traceSerial ← u4;
    _ ← id;
    nn ← u4;
    _ ← ignore nn;
    let n := n + (sz + 4 + sz + 4 + nn) in
    let size := nn + instanceHeaderSize in
    _ ← modify (account Instance traceSerial size instanceHeaderSize);
    mret n
  else if bool_decide (tag = 34) then (* OBJECT ARRAY DUMP *)
    _ ← id;
    traceSerial ← u4;
    nn ← u4;
    _ ← id;
    _ ← times (Z.to_nat nn) (_ ← id; mret tt);
    let n := n + (sz + 4 + 4 + sz + nn * sz) in
    let size := nn * sz + objectArrayHeaderSize in
    _ ← modify (account ObjectArray traceSerial size objectArrayHeaderSize);
    mret n
  else if bool_decide (tag = 35) then (* PRIMITIVE ARRAY DUMP *)
    _ ← id;
    traceSerial ← u4;
    nn ← u4;
    typ ← u1;
    w ← basicSize typ;
    _ ← ignore (nn * w);
    let n := n + (sz + 4 + 4 + 1 + nn * w) in
    let size := nn * w + primitiveArrayHeaderSize in
    _ ← modify (account PrimitiveArray traceSerial size primitiveArrayHeaderSize);
    mret n
  else error_ (UnknownSubTag tag).

(** [for n > 0 { n -= r.readHeapDumpSegment() }]; the result is the value
    of [n] when the loop ends. A round that does not fail reads at least the
    sub-tag, so there are no more rounds than bytes left to read, plus the
    round that fails at the end of the stream: with that many rounds the
    first branch for [O] is never taken ([heap_dump_rounds_enough]). *)
Fixpoint heap_dump_rounds (rounds : nat) (n : Z) : dec Z :=
  if bool_decide (n > 0) then
    match rounds with
    | O => mret n
    | S rounds' => k ← readHeapDumpSegment; heap_dump_rounds rounds' (n - k)
    end
  else mret n.

Definition heap_dump_loop (n : Z) : dec Z :=
  left ← get (λ r, length (input r));
  heap_dump_rounds (S left) n.

(** [sub_records r ks r']: from the reader [r], successive calls of
    [readHeapDumpSegment] return the byte counts [ks], one sub-record each,
    and leave the reader [r']. *)
Inductive sub_records : reader → list Z → reader → Prop :=
| sub_records_nil r : sub_records r [] r
| sub_records_cons r k r1 ks r' :
    run readHeapDumpSegment r = Ok k r1 → sub_records r1 ks r' →
    sub_records r (k :: ks) r'.

(** Every sub-record of [ks] begins while what is left of the declared
    length [n] is positive. *)
Definition begun_positive (n : Z) (ks : list Z) : Prop :=
  ∀ i, (i < length ks)%nat → 0 < n - sumZ (take i ks).

(** [readRecord]: the one byte of the tag is read with io.ReadFull, which
    gives io.EOF exactly when nothing is left. *)
Definition readRecord : dec bool :=
  left ← get (λ r, length (input r));
  if bool_decide (left = 0%nat) then mret true
  else
    tag ← u1;
    _ ← modify (λ r, set_tags (incr tag (tags r)) r);
    _ ← u4; (* timestamp *)
    n ← u4;
    _ ← (if bool_decide (tag = 1) then readString n (* STRING IN UTF8 *)
         else if bool_decide (tag = 2) then readClass n (* LOAD CLASS *)
         else if bool_decide (tag = 4) then readFrame n (* STACK FRAME *)
         else if bool_decide (tag = 5) then readTrace n (* STACK TRACE *)
         else if bool_decide (tag = 28) then _ ← heap_dump_loop n; mret tt (* HEAP DUMP SEGMENT *)
         else ignore n);
    mret false.

Definition magic : list byte :=
  String.list_byte_of_string "JAVA PROFILE 1.0.2" ++ [x00].

(** [r.ReadString(0)]: through the first 0 byte; io.EOF when there is
    none. *)
Fixpoint ReadString0 (i : list byte) : option (list byte * list byte) :=
  match i with
  | [] => None
  | b :: rest =>
      if bool_decide (b = x00) then Some ([b], rest)
      else r ← ReadString0 rest; Some (b :: r.1, r.2)
  end.

Definition readHeader : dec unit :=
  i ← get input;
  match ReadString0 i with
  | None => error_ EOF
  | Some (s, rest) =>
      _ ← modify (set_input rest);
      if bool_decide (s = magic) then
        idSize ← u4;
        if bool_decide (idSize = 8) then
          _ ← modify (set_idSize idSize);
          _ ← u4;
          _ ← u4;
          mret tt
        else error_ (BadIdSize idSize)
      else error_ (BadHeaderString s)
  end.

(** [for !r.readRecord() {}]: a record that is not the end of the stream
    reads at least its tag, so there are no more records than bytes left,
    plus the call that finds the end of the stream: with that many rounds
    the branch for [O] is never taken ([read_records_enough]). *)
Fixpoint read_records (rounds : nat) : dec unit :=
  match rounds with
  | O => mret tt
  | S rounds' => done ← readRecord; if done : bool then mret tt else read_records rounds'
  end.

(** What a call of [readAll] does: it returns [err] (nil or the recovered
    readerError) with the reader as it is then, or it panics again with a
    value that is not a readerError. The reader of a failed decode is not
    used by [main]; it is left out. *)
Inductive result :=
| Returns (err : option error) (r : option reader)
| Repanics (p : runtime_panic).

Definition readAll (r : reader) : result :=
  match run (_ ← readHeader;
             left ← get (λ r, length (input r));
             read_records (S left)) r with
  | Ok _ r' => Returns None (Some r')
  | Fails e => Returns (Some e) None
  | Crashes p => Repanics p
  end.

(** *** Vocabulary of the properties of the decoder *)

(** The number of bytes left to read. *)
Definition remaining (r : reader) : Z := Z.of_nat (length (input r)).

(** [reads m post]: from a reader with identifiers of 8 bytes, [m] does not
    panic at run time, and when it returns [a] it has read [c] bytes with
    [post a c] (and nothing else of the stream has changed hands). *)
Definition reads {A} (m : dec A) (post : A → Z → Prop) : Prop :=
  ∀ r, idSize r = 8 →
    match run m r with
    | Ok a r' => idSize r' = 8 ∧ remaining r' <= remaining r ∧ post a (remaining r - remaining r')
    | Fails _ => True
    | Crashes _ => False
    end.

(** The big-endian encoding of [z] on [k] bytes, to state what the records
    look like. *)
Definition byte_of (z : Z) : byte :=
  default x00 (Byte.of_N (Z.to_N (z `mod` 256))).

Fixpoint be (k : nat) (z : Z) : list byte :=
  match k with
  | O => []
  | S k' => be k' (z / 256) ++ [byte_of z]
  end.

(** The STACK TRACE record of serial [serial] and thread [thread], without
    frames, and the header of a stream. *)
Definition trace_record (serial thread : byte) : list byte :=
  [x05; x00; x00; x00; x00; x00; x00; x00; x0c;
   x00; x00; x00; serial; x00; x00; x00; thread; x00; x00; x00; x00].

Definition header : list byte :=
  magic ++ [x00; x00; x00; x08; x00; x00; x00; x00; x00; x00; x00; x00].

(** The panic of [r.scratch[:n]] with a negative [n]. *)
Definition short_slice (p : runtime_panic) : Prop :=
  ∃ n, n < 0 ∧ p = SliceBoundsOutOfRange n 8.

(** [steps m post]: as [reads], but [m] may panic with [short_slice]. *)
Definition steps {A} (m : dec A) (post : A → Z → Prop) : Prop :=
  ∀ r, idSize r = 8 →
    match run m r with
    | Ok a r' => idSize r' = 8 ∧ remaining r' <= remaining r ∧ post a (remaining r - remaining r')
    | Fails _ => True
    | Crashes p => short_slice p
    end.

(** The postcondition that says nothing. *)
Definition any {A} : A → Z → Prop := λ _ _, True.

(** The fields of the reader that the object dumps account in, and the
    counts of the sub-tags. *)
Record ledger := mkLedger {
  l_total : Z;
  l_instance : Z;
  l_objectArray : Z;
  l_primitiveArray : Z;
  l_traceSizes : gmap Z Z;
  l_subTags : gmap Z Z
}.

Definition led (r : reader) : ledger :=
  mkLedger (total r) (instanceOverhead r) (objectArrayOverhead r)
           (primitiveArrayOverhead r) (traceSizes r) (subTags r).

(** The sum of the sizes of a table, without wrap-around. *)
Definition sum_sizes (m : gmap Z Z) : Z := sumZ ((map_to_list m).*2).

(** The books balance: the total is the sum of the sizes per trace, and the
    overhead of a kind of dump is its header size times the count of its
    sub-tag (0x21, 0x22, 0x23), all as int wraps them. *)
Definition balanced (x : ledger) : Prop :=
  l_total x = wrap64 (sum_sizes (l_traceSizes x)) ∧
  l_instance x = wrap64 (instanceHeaderSize * default 0 (l_subTags x !! 33)) ∧
  l_objectArray x = wrap64 (objectArrayHeaderSize * default 0 (l_subTags x !! 34)) ∧
  l_primitiveArray x = wrap64 (primitiveArrayHeaderSize * default 0 (l_subTags x !! 35)).

(** [wp m x Q]: from a reader with the ledger [x], when [m] returns [a] the
    ledger [y] of the reader then has [Q a y]. [quiet m]: [m] leaves the
    ledger as it is. *)
Definition wp {A} (m : dec A) (x : ledger) (Q : A → ledger → Prop) : Prop :=
  ∀ r, led r = x →
    match run m r with
    | Ok a r' => Q a (led r')
    | _ => True
    end.

Definition quiet {A} (m : dec A) : Prop :=
  ∀ x (Q : A → ledger → Prop), (∀ a, Q a x) → wp m x Q.

(** Readers and a stream to run the decoder on: a STACK FRAME payload with
    the file-name id 0; an INSTANCE DUMP of 3 bytes and an OBJECT ARRAY
    DUMP of 2 elements, each followed by one more byte; and a stream with
    one HEAP DUMP SEGMENT that holds the INSTANCE DUMP, with the reader
    that [readAll] leaves. *)
Definition frame_example : reader :=
  set_classes ∅ {[3 := mkClass 3 9 0 [x43]]}
    (set_strings {[0 := [x7a]; 1 := [x6d]; 2 := [x73]]}
       (newReader (be 8 4 ++ be 8 1 ++ be 8 2 ++ be 8 0 ++ be 4 3 ++ be 4 17 ++ []))).

Definition instance_dump : list byte :=
  x21 :: be 8 1 ++ be 4 7 ++ be 8 2 ++ be 4 3 ++ [x00; x00; x00].

Definition instance_example : reader :=
  set_idSize 8 (newReader (instance_dump ++ [x2a])).

Definition object_array_example : reader :=
  set_idSize 8
    (newReader (x22 :: be 8 1 ++ be 4 7 ++ be 4 2 ++ be 8 2 ++ concat (be 8 <$> [5; 6]) ++ [x2a])).

Definition stream_example : list byte :=
  header ++ x1c :: be 4 0 ++ be 4 28 ++ instance_dump.

Definition decoded_example : reader :=
  mkReader [] 8 ∅ ∅ ∅ ∅ ∅ 19 16 0 0 {[7 := 19]} {[28 := 1]} {[33 := 1]}.

(** *** top10 and container/heap *)

Record serialSize := mkSS {
  serial : Z;
  size : Z
}.

(** serialSizes.Less and Swap on the slice [h] *)
Definition Less (h : list serialSize) (i j : nat) : bool :=
  match h !! i, h !! j with
  | Some a, Some b => bool_decide (size a < size b)
  | _, _ => false
  end.

Definition Swap (h : list serialSize) (i j : nat) : list serialSize :=
  match h !! i, h !! j with
  | Some a, Some b => <[j := a]> (<[i := b]> h)
  | _, _ => h
  end.

(** container/heap: [up(h, j)] *)
Fixpoint up (rounds : nat) (h : list serialSize) (j : nat) : list serialSize :=
  match rounds with
  | O => h
  | S rounds' =>
      let i := ((j - 1) / 2)%nat in (* parent *)
      if bool_decide (i = j) || negb (Less h j i) then h
      else up rounds' (Swap h i j) i
  end.

(** container/heap: [down(h, i0, n)]; the result carries [i > i0]. *)
Fixpoint down (rounds : nat) (h : list serialSize) (i0 i n : nat) : list serialSize * bool :=
  match rounds with
  | O => (h, bool_decide (i0 < i)%nat)
  | S rounds' =>
      let j1 := (2 * i + 1)%nat in
      if bool_decide (n ≤ j1)%nat then (h, bool_decide (i0 < i)%nat)
      else
        let j := if bool_decide (j1 + 1 < n)%nat && Less h (j1 + 1) j1 then (j1 + 1)%nat else j1 in
        if negb (Less h j i) then (h, bool_decide (i0 < i)%nat)
        else down rounds' (Swap h i j) i0 j n
  end.

(** heap.Push: append, then [up(h, h.Len()-1)]. Both loops move along a
    branch of the tree, whose length is below the number of elements. *)
Definition Push (h : list serialSize) (x : serialSize) : list serialSize :=
  let h := h ++ [x] in
  up (length h) h (length h - 1).

(** heap.Fix: [if !down(h, i, h.Len()) { up(h, i) }] *)
Definition Fix (h : list serialSize) (i : nat) : list serialSize :=
  let '(h', moved) := down (length h) h i i (length h) in
  if moved then h' else up (length h') h' i.

(** The first loop of [top10], over the entries of the map in the order
    the range visits them. *)
Definition top10_step (h : list serialSize) (ss : serialSize) : list serialSize :=
  if bool_decide (length h < 10)%nat then Push h ss
  else
    match h !! 0%nat with
    | Some h0 => if bool_decide (size ss > size h0) then Fix (<[0%nat := ss]> h) 0 else h
    | None => h
    end.

(** The second loop: [h[i], h[j] = h[j], h[i]] for [i < len(h)/2] and
    [j = len(h)-1-i]. *)
Fixpoint swap_ends (count : nat) (i : nat) (h : list serialSize) : list serialSize :=
  match count with
  | O => h
  | S count' => swap_ends count' (S i) (Swap h i (length h - 1 - i))
  end.

Definition top10 (m : list serialSize) : list serialSize :=
  let h := foldl top10_step [] m in
  swap_ends (length h / 2) 0 h.

(** *** Vocabulary of the properties of [top10] *)

(** The parent of the element at [j] in the tree that container/heap lays
    out in the slice. *)
Definition parent (j : nat) : nat := ((j - 1) / 2)%nat.

(** The element at [i] is not larger than the element at [j]. *)
Definition le_at (h : list serialSize) (i j : nat) : Prop :=
  ∀ a b, h !! i = Some a → h !! j = Some b → size a <= size b.

(** The slice is a min-heap. *)
Definition is_heap (h : list serialSize) : Prop :=
  ∀ j, (0 < j)%nat → le_at h (parent j) j.

(** The invariants of the loops of [up] and [down]: a min-heap but for
    the element at [j] and its parent, respectively the element at [i] and
    its children. *)
Definition up_inv (h : list serialSize) (j : nat) : Prop :=
  (∀ k, (0 < k)%nat → k ≠ j → le_at h (parent k) k) ∧
  ((0 < j)%nat → ∀ c, (0 < c)%nat → parent c = j → le_at h (parent j) c).

Definition down_inv (h : list serialSize) (i : nat) : Prop :=
  (∀ k, (0 < k)%nat → parent k ≠ i → le_at h (parent k) k) ∧
  ((0 < i)%nat → ∀ c, (0 < c)%nat → parent c = i → le_at h (parent i) c).

(** What the first loop of [top10] keeps of the pairs [seen] so far: a
    min-heap [h] of the 10 largest (all of them when there are fewer), the
    other pairs [rest] being no larger than any pair kept. *)
Definition selection (h seen : list serialSize) : Prop :=
  is_heap h ∧ length h = (10 `min` length seen)%nat ∧
  ∃ rest, h ++ rest ≡ₚ seen ∧ ∀ a b, a ∈ h → b ∈ rest → size b <= size a.

End Hprofbin.

(** * Properties *)

(** ** Machine integers *)

Lemma wrap64_range z : in_int64 (wrap64 z).
Proof.
  unfold in_int64, wrap64.
  pose proof (Z.mod_pos_bound (z + 2 ^ 63) (2 ^ 64) ltac:(lia)). lia.
Qed.

Lemma wrap64_id z : in_int64 z → wrap64 z = z.
Proof.
  unfold in_int64, wrap64. intros H.
  rewrite Z.mod_small; lia.
Qed.

Lemma wrap64_add_l a b : wrap64 (wrap64 a + b) = wrap64 (a + b).
Proof.
  unfold wrap64. f_equal.
  replace ((a + 2 ^ 63) `mod` 2 ^ 64 - 2 ^ 63 + b + 2 ^ 63)
    with ((a + 2 ^ 63) `mod` 2 ^ 64 + b) by lia.
  rewrite Zplus_mod_idemp_l. f_equal. lia.
Qed.

Lemma wrap64_add_r a b : wrap64 (a + wrap64 b) = wrap64 (a + b).
Proof. rewrite (Z.add_comm a), wrap64_add_l. f_equal. lia. Qed.

Lemma wrap64_idemp a : wrap64 (wrap64 a) = wrap64 a.
Proof. apply wrap64_id, wrap64_range. Qed.

Lemma sumZ_app l1 l2 : sumZ (l1 ++ l2) = sumZ l1 + sumZ l2.
Proof. induction l1; simpl; lia. Qed.

Lemma sumZ_perm l1 l2 : l1 ≡ₚ l2 → sumZ l1 = sumZ l2.
Proof. induction 1; simpl; lia. Qed.

Lemma foldl_add64 {A} (f : A → Z) (l : list A) (acc : Z) :
  foldl (λ s x, add64 s (f x)) (wrap64 acc) l = wrap64 (acc + sumZ (f <$> l)).
Proof.
  revert acc. induction l as [|x l IH]; intros acc;
    [simpl | rewrite fmap_cons; cbn [foldl sumZ]].
  - f_equal. lia.
  - replace (add64 (wrap64 acc) (f x)) with (wrap64 (acc + f x))
      by (unfold add64; by rewrite wrap64_add_l).
    rewrite IH. f_equal. lia.
Qed.

Lemma foldl_add64_0 {A} (f : A → Z) (l : list A) :
  foldl (λ s x, add64 s (f x)) 0 l = wrap64 (sumZ (f <$> l)).
Proof. change 0 with (wrap64 0) at 1. rewrite foldl_add64. f_equal. Qed.

(** ** The sort used to run the embedding meets [sort_spec] *)

Lemma merge_sorter_spec : sort_spec merge_sorter.
Proof.
  intros A less l Hasym Htrans. unfold merge_sorter.
  set (R := λ x y : A, less y x = false).
  set (D := λ x y : A, decide (less y x = false)).
  assert (HT : Transitive R). { intros x y z Hxy Hyz. unfold R in *. eauto. }
  assert (Htot : Total R).
  { intros x y. unfold R. destruct (less y x) eqn:E; [right; by apply Hasym|by left]. }
  split; [apply (@merge_sort_Permutation A R D)|].
  intros i j x y Hij Hx Hy.
  pose proof (@StronglySorted_merge_sort A R D HT Htot l) as HS.
  revert i j Hij Hx Hy. induction HS as [|a l' HS IH Hall]; intros i j Hij Hx Hy.
  - by rewrite lookup_nil in Hx.
  - destruct i as [|i], j as [|j]; try lia; simpl in *.
    + injection Hx as <-. rewrite Forall_forall in Hall. apply Hall.
      by eapply list_elem_of_lookup_2.
    + eapply (IH i j); [lia|done..].
Qed.

Module MainFacts.
Import Main.

Lemma bump_length c i sp sites : length (bump c i sp sites) = length sites.
Proof. unfold bump. case_bool_decide; by rewrite !length_alter. Qed.

Lemma bump_stack_length c i stack sites :
  length (bump_stack c i stack sites) = length sites.
Proof.
  revert i sites. induction stack as [|sp rest IH]; intros i sites; simpl; [done|].
  by rewrite IH, bump_length.
Qed.

Lemma lookup_alter_site (f : Node → Node) (objs : list Node) (i j : nat) (nd : Node) :
  (∀ x, Node_CallSite (f x) = Node_CallSite x) →
  objs !! j = Some nd →
  ∃ nd', alter f i objs !! j = Some nd' ∧ Node_CallSite nd' = Node_CallSite nd.
Proof.
  intros Hf Hj. destruct (decide (i = j)) as [->|Hne].
  - rewrite list_lookup_alter_eq, Hj. simpl. eauto.
  - rewrite list_lookup_alter_ne by done. eauto.
Qed.

Lemma visit_spec c i sp child st :
  cn_inv st → (sp < length (cn_sites st))%nat →
  ∃ st' node,
    visit c i sp child st = Return (st', Some node) ∧
    cn_sites st' = bump c i sp (cn_sites st) ∧
    cn_inv st' ∧
    dom (cn_nodes st') = {[sp]} ∪ dom (cn_nodes st).
Proof.
  intros Hinv Hsp. unfold visit.
  assert (Hcs : ∃ cs, cn_sites st !! sp = Some cs) by by apply lookup_lt_is_Some_2.
  destruct Hcs as [cs Hcs].
  set (upd := λ (node : loc) (objs : list Node),
         match child with
         | Some ch => alter (add_backlink node) ch (alter (add_edge ch c) node objs)
         | None => objs
         end).
  assert (Hupd : ∀ node objs j nd, objs !! j = Some nd →
            ∃ nd', upd node objs !! j = Some nd' ∧ Node_CallSite nd' = Node_CallSite nd).
  { intros node objs j nd Hj. unfold upd. destruct child as [ch|]; [|eauto].
    destruct (lookup_alter_site (add_edge ch c) objs node j nd) as (nd1 & H1 & E1); [done..|].
    destruct (lookup_alter_site (add_backlink node) _ ch j nd1 ltac:(done) H1)
      as (nd2 & H2 & E2).
    exists nd2. split; [done|congruence]. }
  destruct (cn_nodes st !! sp) as [node|] eqn:E; cbv beta iota zeta.
  - destruct (Hinv _ _ E) as (nd & Hnd & Hsite).
    unfold deref. rewrite Hnd. cbn. rewrite Hsite, Hcs. cbn.
    eexists _, _. split; [reflexivity|]. cbn. split; [done|]. split.
    + intros sp' node' H'. cbn [cn_nodes cn_objs] in H' |- *. destruct (Hinv _ _ H') as (nd' & Hnd' & Hs').
      destruct (Hupd node (cn_objs st) node' nd' Hnd') as (nd'' & ? & ?).
      exists nd''. split; [done|congruence].
    + apply elem_of_dom_2 in E. set_solver.
  - unfold deref. rewrite lookup_app_r, Nat.sub_diag by done. cbn.
    rewrite Hcs. cbn.
    eexists _, _. split; [reflexivity|]. cbn. split; [done|]. split.
    + intros sp' node' H'. cbn [cn_nodes cn_objs] in H' |- *.
      assert (∃ nd', (cn_objs st ++ [mkNode sp None None]) !! node' = Some nd'
                     ∧ Node_CallSite nd' = sp') as (nd' & Hnd' & Hs').
      { destruct (decide (sp = sp')) as [->|Hne].
        - rewrite lookup_insert_eq in H'. injection H' as <-.
          rewrite lookup_app_r, Nat.sub_diag by done. eauto.
        - rewrite lookup_insert_ne in H' by done.
          destruct (Hinv _ _ H') as (nd' & Hnd' & Hs').
          exists nd'. split; [|done]. by apply lookup_app_l_Some. }
      destruct (Hupd (length (cn_objs st)) _ node' nd' Hnd') as (nd'' & ? & ?).
      exists nd''. split; [done|congruence].
    + by rewrite dom_insert_L.
Qed.

Lemma walk_spec c stack : ∀ i child st,
  cn_inv st → (∀ sp, sp ∈ stack → (sp < length (cn_sites st))%nat) →
  ∃ st',
    walk c i stack child st = Return st' ∧
    cn_sites st' = bump_stack c i stack (cn_sites st) ∧
    cn_inv st' ∧
    dom (cn_nodes st') = list_to_set stack ∪ dom (cn_nodes st).
Proof.
  induction stack as [|sp rest IH]; intros i child st Hinv Hvalid; simpl.
  - exists st. split_and!; [done..|set_solver].
  - destruct (visit_spec c i sp child st Hinv) as (st1 & node & Hv & Hs & Hinv1 & Hdom).
    { apply Hvalid. set_solver. }
    rewrite Hv. cbn.
    destruct (IH (S i) (Some node) st1 Hinv1) as (st' & Hw & Hs' & Hinv' & Hdom').
    { intros sp' Hin. rewrite Hs, bump_length. apply Hvalid. set_solver. }
    exists st'. split_and!; [done|by rewrite Hs', Hs|done|].
    rewrite Hdom', Hdom. set_solver.
Qed.

Lemma each_trace_spec traces : ∀ st,
  cn_inv st → valid_traces (cn_sites st) traces →
  ∃ st',
    each_trace traces st = Return st' ∧
    cn_sites st' = bump_traces traces (cn_sites st) ∧
    cn_inv st' ∧
    dom (cn_nodes st') = stack_sites traces ∪ dom (cn_nodes st).
Proof.
  induction traces as [|t rest IH]; intros st Hinv Hvalid; simpl.
  - exists st. split_and!; [done..|]. unfold stack_sites. set_solver.
  - destruct (walk_spec (TraceCount t) (Stack t) 0%nat None st Hinv)
      as (st1 & Hw & Hs & Hinv1 & Hdom).
    { intros sp Hin. apply (Hvalid t); [set_solver|done]. }
    rewrite Hw. cbn.
    destruct (IH st1 Hinv1) as (st' & He & Hs' & Hinv' & Hdom').
    { intros t' sp Ht' Hsp. rewrite Hs, bump_stack_length.
      apply (Hvalid t'); [set_solver|done]. }
    exists st'. split_and!; [done|by rewrite Hs', Hs|done|].
    rewrite Hdom', Hdom. unfold stack_sites. simpl. set_solver.
Qed.

Lemma count_at_bump c i sp sites p :
  (sp < length sites)%nat →
  count_at (bump c i sp sites) p =
    if decide (i = 0%nat ∧ sp = p) then add64 (count_at sites p) c else count_at sites p.
Proof.
  intros Hsp. unfold bump, count_at.
  destruct (lookup_lt_is_Some_2 _ _ Hsp) as [cs Hcs].
  destruct (decide (sp = p)) as [->|Hne].
  - rewrite list_lookup_alter_eq. case_bool_decide.
    + rewrite list_lookup_alter_eq, Hcs. simpl. rewrite decide_True; done.
    + rewrite Hcs. simpl. rewrite decide_False; [done|tauto].
  - rewrite list_lookup_alter_ne by done. rewrite decide_False by tauto.
    case_bool_decide; [by rewrite list_lookup_alter_ne|done].
Qed.

Lemma cum_at_bump c i sp sites p :
  (sp < length sites)%nat →
  cum_at (bump c i sp sites) p =
    if decide (sp = p) then add64 (cum_at sites p) c else cum_at sites p.
Proof.
  intros Hsp. unfold bump, cum_at.
  destruct (lookup_lt_is_Some_2 _ _ Hsp) as [cs Hcs].
  destruct (decide (sp = p)) as [->|Hne].
  - rewrite list_lookup_alter_eq. case_bool_decide.
    + rewrite list_lookup_alter_eq, Hcs. done.
    + rewrite Hcs. done.
  - rewrite list_lookup_alter_ne by done.
    case_bool_decide; [by rewrite list_lookup_alter_ne|done].
Qed.

Lemma count_at_bump_stack c stack p : ∀ i sites,
  (∀ sp, sp ∈ stack → (sp < length sites)%nat) →
  wrap64 (count_at (bump_stack c i stack sites) p) =
    wrap64 (count_at sites p +
            if decide (i = 0%nat ∧ head stack = Some p) then c else 0).
Proof.
  induction stack as [|sp rest IH]; intros i sites Hv; simpl.
  - rewrite decide_False by (intros [_ ?]; done). f_equal. lia.
  - rewrite IH by (intros; rewrite bump_length; apply Hv; set_solver).
    rewrite (decide_False (P := S i = 0%nat ∧ _)) by lia.
    rewrite Z.add_0_r, count_at_bump by (apply Hv; set_solver).
    destruct (decide (i = 0%nat ∧ sp = p)) as [[-> ->]|Hn].
    + rewrite decide_True by done. unfold add64. by rewrite wrap64_idemp.
    + rewrite decide_False; [f_equal; lia|]. intros [? [=]]. tauto.
Qed.

Lemma cum_at_bump_stack c stack p : ∀ i sites,
  (∀ sp, sp ∈ stack → (sp < length sites)%nat) →
  wrap64 (cum_at (bump_stack c i stack sites) p) =
    wrap64 (cum_at sites p + c * occurrences p stack).
Proof.
  unfold occurrences.
  induction stack as [|sp rest IH]; intros i sites Hv; simpl.
  - f_equal. lia.
  - rewrite IH by (intros; rewrite bump_length; apply Hv; set_solver).
    rewrite cum_at_bump by (apply Hv; set_solver).
    rewrite filter_cons. destruct (decide (sp = p)) as [->|Hn].
    + unfold add64. rewrite wrap64_add_l. f_equal. simpl length. lia.
    + done.
Qed.

Lemma count_at_bump_traces p traces : ∀ sites,
  valid_traces sites traces →
  wrap64 (count_at (bump_traces traces sites) p) =
    wrap64 (count_at sites p + sumZ (self_of p <$> traces)).
Proof.
  unfold bump_traces.
  induction traces as [|t rest IH]; intros sites Hv;
    [rewrite fmap_nil | rewrite fmap_cons]; cbn [foldl sumZ].
  - f_equal. lia.
  - rewrite IH.
    2:{ intros t' sp Ht' Hsp. rewrite bump_stack_length. apply (Hv t'); [set_solver|done]. }
    rewrite <- wrap64_add_l, count_at_bump_stack, wrap64_add_l.
    2:{ intros sp Hsp. apply (Hv t); [set_solver|done]. }
    f_equal. unfold self_of.
    destruct (decide (head (Stack t) = Some p)).
    + rewrite decide_True by done. lia.
    + rewrite decide_False by tauto. lia.
Qed.

Lemma cum_at_bump_traces p traces : ∀ sites,
  valid_traces sites traces →
  wrap64 (cum_at (bump_traces traces sites) p) =
    wrap64 (cum_at sites p + sumZ (cum_of p <$> traces)).
Proof.
  unfold bump_traces.
  induction traces as [|t rest IH]; intros sites Hv;
    [rewrite fmap_nil | rewrite fmap_cons]; cbn [foldl sumZ].
  - f_equal. lia.
  - rewrite IH.
    2:{ intros t' sp Ht' Hsp. rewrite bump_stack_length. apply (Hv t'); [set_solver|done]. }
    rewrite <- wrap64_add_l, cum_at_bump_stack, wrap64_add_l.
    2:{ intros sp Hsp. apply (Hv t); [set_solver|done]. }
    f_equal. unfold cum_of. lia.
Qed.

Lemma in_int64_0 : in_int64 0.
Proof. unfold in_int64. lia. Qed.

Lemma bump_in_range c i sp sites :
  (sp < length sites)%nat → sites_in_range sites → sites_in_range (bump c i sp sites).
Proof.
  intros Hsp Hr p. rewrite count_at_bump, cum_at_bump by done.
  destruct (Hr p). split; case_decide; try done; apply wrap64_range.
Qed.

Lemma bump_stack_in_range c stack : ∀ i sites,
  (∀ sp, sp ∈ stack → (sp < length sites)%nat) →
  sites_in_range sites → sites_in_range (bump_stack c i stack sites).
Proof.
  induction stack as [|sp rest IH]; intros i sites Hv Hr; simpl; [done|].
  apply IH.
  - intros. rewrite bump_length. apply Hv. set_solver.
  - apply bump_in_range; [apply Hv; set_solver|done].
Qed.

Lemma bump_traces_in_range traces : ∀ sites,
  valid_traces sites traces →
  sites_in_range sites → sites_in_range (bump_traces traces sites).
Proof.
  unfold bump_traces.
  induction traces as [|t rest IH]; intros sites Hv Hr; simpl; [done|].
  apply IH.
  - intros t' sp Ht' Hsp. rewrite bump_stack_length. apply (Hv t'); [set_solver|done].
  - apply bump_stack_in_range; [|done]. intros sp Hsp. apply (Hv t); [set_solver|done].
Qed.

Lemma cn_inv_initial sites : cn_inv (mkCn sites [] ∅).
Proof. intros sp node H. cbn in H. by rewrite lookup_empty in H. Qed.

(** [CreateNodes] returns on traces whose stacks hold no nil pointer; the
    call sites it returns are [bump_traces], and its node list runs through
    the call sites of the stacks, each once ([keys]). *)
Lemma CreateNodes_spec sites traces :
  valid_traces sites traces →
  ∃ objs nodeList keys,
    CreateNodes sites traces = Return (bump_traces traces sites, objs, nodeList) ∧
    NoDup keys ∧ (∀ p, p ∈ keys ↔ p ∈ stack_sites traces) ∧
    Forall2 (λ n p, node_site objs n = Some p) nodeList keys.
Proof.
  intros Hv. unfold CreateNodes.
  destruct (each_trace_spec traces (mkCn sites [] ∅) (cn_inv_initial sites) Hv)
    as (st & He & Hs & Hinv & Hdom).
  rewrite He. cbn. rewrite Hs. cbn.
  exists (cn_objs st), (map_to_list (cn_nodes st)).*2, (map_to_list (cn_nodes st)).*1.
  split_and!.
  - done.
  - apply NoDup_fst_map_to_list.
  - intros p. cbn in Hdom. rewrite dom_empty_L, (right_id_L ∅ (∪)) in Hdom.
    rewrite <- Hdom, elem_of_dom, list_elem_of_fmap. split.
    + intros ([sp n] & -> & Hin). apply elem_of_map_to_list in Hin. eauto.
    + intros [n Hn]. exists (p, n). split; [done|]. by apply elem_of_map_to_list.
  - apply Forall2_fmap, Forall_Forall2_diag, Forall_forall.
    intros [sp n] Hin. apply elem_of_map_to_list in Hin.
    destruct (Hinv _ _ Hin) as (nd & Hnd & Hsite).
    unfold node_site. simpl. by rewrite Hnd; simpl; rewrite Hsite.
Qed.

Lemma one_node_per_site objs nodeList keys p :
  Forall2 (λ n q, node_site objs n = Some q) nodeList keys →
  NoDup keys → p ∈ keys →
  length (filter (λ n, node_site objs n = Some p) nodeList) = 1%nat.
Proof.
  induction 1 as [|n q ns qs Hnq HF IH]; intros Hnd Hin.
  - by apply elem_of_nil in Hin.
  - apply NoDup_cons in Hnd as [Hq Hnd]. rewrite filter_cons.
    destruct (decide (q = p)) as [->|Hne].
    + rewrite decide_True by done. simpl. f_equal.
      assert (Hnone : ∀ ns', Forall2 (λ n q, node_site objs n = Some q) ns' qs →
                length (filter (λ n, node_site objs n = Some p) ns') = 0%nat).
      { clear -Hq. revert Hq. induction qs as [|q' qs IHq]; intros Hq ns' HF'.
        - by apply Forall2_nil_inv_r in HF' as ->.
        - apply Forall2_cons_inv_r in HF' as (n' & ns'' & Hn' & HF'' & ->).
          rewrite filter_cons, decide_False.
          + apply IHq; [set_solver|done].
          + rewrite Hn'. intros [= ->]. set_solver. }
      by apply Hnone.
    + rewrite decide_False by (rewrite Hnq; congruence).
      apply IH; [done|set_solver].
Qed.

Lemma Node_Count_site sites objs n p :
  node_site objs n = Some p → Node_Count sites objs n = count_at sites p.
Proof.
  unfold node_site, Node_Count, count_at. intros H.
  destruct (objs !! n) as [nd|]; [|done]. simpl in *. injection H as ->.
  by destruct (sites !! p).
Qed.

Lemma Node_CumulativeCount_site sites objs n p :
  node_site objs n = Some p → Node_CumulativeCount sites objs n = cum_at sites p.
Proof.
  unfold node_site, Node_CumulativeCount, cum_at. intros H.
  destruct (objs !! n) as [nd|]; [|done]. simpl in *. injection H as ->.
  by destruct (sites !! p).
Qed.

Lemma wrap64_sumZ_ext {A} (f g : A → Z) (l : list A) :
  (∀ x, x ∈ l → wrap64 (f x) = wrap64 (g x)) →
  wrap64 (sumZ (f <$> l)) = wrap64 (sumZ (g <$> l)).
Proof.
  induction l as [|x l IH]; intros H; [done|].
  rewrite !fmap_cons. cbn [sumZ].
  rewrite <- wrap64_add_l, <- wrap64_add_r, (H x), IH, wrap64_add_l, wrap64_add_r;
    [done|set_solver|set_solver].
Qed.

Lemma sumZ_const0 {A} (l : list A) : sumZ ((λ _, 0) <$> l) = 0.
Proof. induction l as [|x l IH]; [done|]. rewrite fmap_cons. cbn [sumZ]. lia. Qed.

Lemma sumZ_swap {A B} (f : A → B → Z) (la : list A) (lb : list B) :
  sumZ ((λ a, sumZ (f a <$> lb)) <$> la) = sumZ ((λ b, sumZ ((λ a, f a b) <$> la)) <$> lb).
Proof.
  induction la as [|a la IH].
  - symmetry. apply (sumZ_const0 lb).
  - rewrite fmap_cons. cbn [sumZ]. rewrite IH. clear IH.
    induction lb as [|b lb IHb]; [done|].
    rewrite !fmap_cons. cbn [sumZ]. rewrite <- IHb. cbn beta.
    rewrite ?fmap_cons. cbn [sumZ]. lia.
Qed.

Lemma sumZ_self_of keys t :
  NoDup keys →
  sumZ ((λ p, self_of p t) <$> keys) =
    match head (Stack t) with
    | Some h => if decide (h ∈ keys) then TraceCount t else 0
    | None => 0
    end.
Proof.
  unfold self_of. induction keys as [|k keys IH]; intros Hnd.
  - rewrite fmap_nil. cbn. destruct (head (Stack t)); [|done].
    rewrite decide_False; [done|set_solver].
  - apply NoDup_cons in Hnd as [Hk Hnd]. rewrite fmap_cons. cbn [sumZ].
    rewrite IH by done. destruct (head (Stack t)) as [h|].
    + destruct (decide (h = k)) as [->|Hne].
      * rewrite decide_True by done. rewrite (decide_False (P := k ∈ keys)) by done.
        rewrite decide_True by set_solver. lia.
      * rewrite decide_False by congruence.
        destruct (decide (h ∈ keys)).
        -- rewrite decide_True by set_solver. lia.
        -- rewrite decide_False by set_solver. lia.
    + rewrite decide_False by done. lia.
Qed.

Lemma CountSum_sum traces : CountSum traces = wrap64 (sumZ (TraceCount <$> traces)).
Proof. unfold CountSum. apply foldl_add64_0. Qed.

Lemma head_in_stack_sites t traces h :
  t ∈ traces → head (Stack t) = Some h → h ∈ stack_sites traces.
Proof.
  intros Ht Hh. unfold stack_sites. apply elem_of_union_list.
  exists (list_to_set (Stack t)). split.
  - apply list_elem_of_fmap. eauto.
  - apply elem_of_list_to_set. destruct (Stack t); [done|]. injection Hh as ->. set_solver.
Qed.

Lemma Forall2_fmap_eq {A B C} (f : A → C) (g : B → C) (la : list A) (lb : list B) :
  Forall2 (λ a b, f a = g b) la lb → f <$> la = g <$> lb.
Proof. induction 1; [done|]. rewrite !fmap_cons. congruence. Qed.

Lemma totalCount_sum sites objs nodes :
  totalCount sites objs nodes = wrap64 (sumZ (Node_Count sites objs <$> nodes)).
Proof. apply foldl_add64_0. Qed.

(** The self counts of the node list, summed the way Go sums them, are the
    wrapped sum of the self counts of the call sites of the stacks. *)
Lemma totalCount_keys sites objs nodeList keys nodes :
  Forall2 (λ n p, node_site objs n = Some p) nodeList keys →
  nodes ≡ₚ nodeList →
  totalCount sites objs nodes = wrap64 (sumZ (count_at sites <$> keys)).
Proof.
  intros HF Hp. rewrite totalCount_sum. f_equal.
  rewrite (sumZ_perm _ (Node_Count sites objs <$> nodeList)) by by rewrite Hp.
  f_equal. apply Forall2_fmap_eq. eapply Forall2_impl; [exact HF|].
  intros n p H. by apply Node_Count_site.
Qed.

(** C1, as amended: conservation of the self counts, for traces whose
    stacks are not empty and whose call sites carry no count yet. For every
    list of traces with non-nil call sites, non-empty stacks and zero
    initial self counts, [CreateNodes] returns, and the sum of [Node.Count]
    over the nodes it returns (in any order) is [CountSum] of the traces. *)
Theorem conservation (sites : list CallSite) (traces : list Trace) :
  valid_traces sites traces →
  (∀ t, t ∈ traces → Stack t ≠ []) →
  (∀ p, p ∈ stack_sites traces → count_at sites p = 0) →
  ∃ sites' objs nodeList,
    CreateNodes sites traces = Return (sites', objs, nodeList) ∧
    ∀ nodes, nodes ≡ₚ nodeList → totalCount sites' objs nodes = CountSum traces.
Proof.
  intros Hv Hne H0.
  destruct (CreateNodes_spec sites traces Hv) as (objs & nodeList & keys & HC & Hnd & Hk & HF).
  exists (bump_traces traces sites), objs, nodeList. split; [done|].
  intros nodes Hp. rewrite (totalCount_keys _ _ _ _ _ HF Hp), CountSum_sum.
  rewrite (wrap64_sumZ_ext _ (λ p, sumZ (self_of p <$> traces))).
  2:{ intros p Hin. rewrite count_at_bump_traces by done.
      rewrite H0 by by apply Hk. done. }
  rewrite sumZ_swap. apply wrap64_sumZ_ext. intros t Ht. f_equal.
  rewrite sumZ_self_of by done.
  destruct (Stack t) as [|h rest] eqn:E; [by destruct (Hne t Ht)|]. simpl.
  rewrite decide_True; [done|]. apply Hk. eapply head_in_stack_sites; [done|].
  by rewrite E.
Qed.

(** C1, counterexample: a trace with an empty stack and 5 samples, as the
    parser builds it from a TRACE header without stack lines, leaves no
    node: the self counts sum to 0, the counts of the traces to 5. *)
Lemma empty_stack_breaks_conservation :
  ∃ sites byID sites' objs nodeList,
    Hprof.ParseHProfFile
      ["TRACE 1:"; "CPU SAMPLES BEGIN (total = 5)"; "   1 100.00% 100.00%       5     1 foo"]
      = Hprof.Parsed (sites, byID) ∧
    CreateNodes sites (map_to_list byID).*2 = Return (sites', objs, nodeList) ∧
    totalCount sites' objs nodeList = 0 ∧
    CountSum (map_to_list byID).*2 = 5.
Proof.
  eexists _, _, _, _, _. split; [vm_compute; reflexivity|].
  split; [vm_compute; reflexivity|]. split; vm_compute; reflexivity.
Qed.

Lemma conservation_witness :
  ∃ sites' objs nodeList,
    CreateNodes [mkCallSite "foo" "Foo.java" 10 0 0; mkCallSite "bar" "Bar.java" 5 0 0]
                [mkTrace 1 [0; 1]%nat 5; mkTrace 2 [1]%nat 3]
      = Return (sites', objs, nodeList) ∧
    ∀ nodes, nodes ≡ₚ nodeList →
      totalCount sites' objs nodes = CountSum [mkTrace 1 [0; 1]%nat 5; mkTrace 2 [1]%nat 3].
Proof.
  apply conservation.
  - intros t sp Ht Hsp. simpl.
    repeat (apply elem_of_cons in Ht as [->|Ht]; [simpl in Hsp|]);
      [..|by apply elem_of_nil in Ht];
      repeat (apply elem_of_cons in Hsp as [->|Hsp]; [lia|]); by apply elem_of_nil in Hsp.
  - intros t Ht.
    repeat (apply elem_of_cons in Ht as [->|Ht]; [discriminate|]). by apply elem_of_nil in Ht.
  - intros p _. unfold count_at. by destruct p as [|[|p]].
Defined.

End MainFacts.

Module HprofFacts.
Import Main Hprof.

Lemma pinv_initial : pinv_state initial.
Proof. split; cbn; intros *; rewrite ?lookup_empty; done. Qed.

Lemma resolve_site_inv line st p sites' cs' :
  pinv_state st →
  resolve_site line st = Parsed (p, sites', cs') →
  pinv sites' (traces st) cs' ∧ cs' !! line = Some p.
Proof.
  intros [Hstack Hsites Hfresh Hinj Hid]. unfold resolve_site.
  destruct (callSites st !! line) as [q|] eqn:E.
  { intros [= <- <- <-]. by split. }
  destruct (traceLine line) as [[[name file] ln]|] eqn:ET; [|done].
  destruct (line_number ln) as [n|] eqn:EL.
  2:{ unfold line_number in EL. destruct (Atoi ln); [done|].
      destruct (String.eqb ln "Unknown line"); done. }
  assert (Hn : (match Atoi ln with
                | Some n => Parsed n
                | None => if String.eqb ln "Unknown line" then Parsed (-1)
                          else Fatal (lineNumber st) BadLineNumber
                end) = Parsed n).
  { unfold line_number in EL. destruct (Atoi ln); [congruence|].
    destruct (String.eqb ln "Unknown line"); congruence. }
  rewrite Hn. cbn. intros [= <- <- <-].
  assert (Hlt : ∀ L q, callSites st !! L = Some q → (q < length (p_sites st))%nat).
  { intros L q HL. destruct (Hsites L q HL) as (? & ? & ? & ? & _ & _ & Hq).
    by apply lookup_lt_Some in Hq. }
  split; [|by rewrite lookup_insert_eq]. split.
  - intros id t q Ht Hq. destruct (Hstack id t q Ht Hq) as [L HL].
    exists L. rewrite lookup_insert_ne; [done|]. intros <-. congruence.
  - intros L q HL. destruct (decide (line = L)) as [<-|Hne].
    + rewrite lookup_insert_eq in HL. injection HL as <-.
      exists name, file, ln, n. split_and!; [done..|].
      by rewrite lookup_app_r, Nat.sub_diag.
    + rewrite lookup_insert_ne in HL by done.
      destruct (Hsites L q HL) as (a & b & c & d & ? & ? & Hq).
      exists a, b, c, d. split_and!; [done..|]. by apply lookup_app_l_Some.
  - intros q c Hq. apply lookup_app_Some in Hq as [Hq|[_ Hq]]; [by eapply Hfresh|].
    destruct (q - length (p_sites st))%nat; [|done]. by injection Hq as <-.
  - intros L L' q HL HL'.
    destruct (decide (line = L)) as [<-|Hne], (decide (line = L')) as [<-|Hne'].
    + done.
    + rewrite lookup_insert_eq in HL. rewrite lookup_insert_ne in HL' by done.
      injection HL as <-. apply Hlt in HL'. lia.
    + rewrite lookup_insert_eq in HL'. rewrite lookup_insert_ne in HL by done.
      injection HL' as <-. apply Hlt in HL. lia.
    + rewrite lookup_insert_ne in HL, HL' by done. by eapply Hinj.
  - done.
Qed.

Lemma header_line_inv line st st' :
  pinv_state st → header_line line st = Parsed st' → pinv_state st'.
Proof.
  intros [Hstack Hsites Hfresh Hinj Hid]. unfold header_line.
  destruct (traceHeader line) as [digits|].
  - destruct (Atoi digits) as [id|]; [|done].
    destruct (traces st !! id) eqn:E; [done|]. intros [= <-]. split; cbn; try done.
    + intros id' t p Ht Hp. destruct (decide (id = id')) as [<-|Hne].
      * rewrite lookup_insert_eq in Ht. injection Ht as <-. by apply elem_of_nil in Hp.
      * rewrite lookup_insert_ne in Ht by done. by eapply Hstack.
    + intros id' t Ht. destruct (decide (id = id')) as [<-|Hne].
      * rewrite lookup_insert_eq in Ht. by injection Ht as <-.
      * rewrite lookup_insert_ne in Ht by done. by eapply Hid.
  - intros [= <-]. by split.
Qed.

Lemma trace_line_inv line st st' :
  pinv_state st → trace_line line st = Parsed st' → pinv_state st'.
Proof.
  intros Hinv. unfold trace_line.
  destruct (resolve_site _ st) as [[[p sites'] cs']|] eqn:E; [|done]. cbn.
  intros [= <-].
  destruct (resolve_site_inv _ _ _ _ _ Hinv E) as [[Hstack Hsites Hfresh Hinj Hid] Hp].
  split; cbn; try done.
  - intros id t q Ht Hq. destruct (currentTrace st) as [cur|]; [|by eapply Hstack].
    destruct (decide (cur = id)) as [->|Hne].
    + rewrite lookup_alter_eq in Ht.
      destruct (traces st !! id) as [t0|] eqn:E0; [|done]. injection Ht as <-.
      cbn in Hq. apply elem_of_app in Hq as [Hq|Hq]; [by eapply Hstack|].
      apply list_elem_of_singleton in Hq as ->. eauto.
    + rewrite lookup_alter_ne in Ht by done. by eapply Hstack.
  - intros id t Ht. destruct (currentTrace st) as [cur|]; [|by eapply Hid].
    destruct (decide (cur = id)) as [->|Hne].
    + rewrite lookup_alter_eq in Ht.
      destruct (traces st !! id) as [t0|] eqn:E0; [|done]. injection Ht as <-.
      cbn. by eapply Hid.
    + rewrite lookup_alter_ne in Ht by done. by eapply Hid.
Qed.

Lemma set_count_inv sites tr cs count id :
  pinv sites tr cs → pinv sites (alter (set_count count) id tr) cs.
Proof.
  intros [Hstack Hsites Hfresh Hinj Hid]. split; try done.
  - intros id' t q Ht Hq. destruct (decide (id = id')) as [->|Hne].
    + rewrite lookup_alter_eq in Ht.
      destruct (tr !! id') as [t0|] eqn:E0; [|done]. injection Ht as <-.
      by eapply Hstack.
    + rewrite lookup_alter_ne in Ht by done. by eapply Hstack.
  - intros id' t Ht. destruct (decide (id = id')) as [->|Hne].
    + rewrite lookup_alter_eq in Ht.
      destruct (tr !! id') as [t0|] eqn:E0; [|done]. injection Ht as <-.
      cbn. by eapply Hid.
    + rewrite lookup_alter_ne in Ht by done. by eapply Hid.
Qed.

Lemma samples_line_inv line st st' :
  pinv_state st → samples_line line st = Parsed st' → pinv_state st'.
Proof.
  intros Hinv. unfold samples_line.
  assert (Htail : ∀ st1, pinv_state st1 →
            (if samplesColumns line then Parsed st1
             else if String.eqb line "CPU SAMPLES END" then
               Parsed (mkP (p_sites st1) (lineNumber st1) (traces st1) (callSites st1)
                           (currentTrace st1) (inTrace st1) false)
             else Parsed st1) = Parsed st' → pinv_state st').
  { intros st1 H1. destruct (samplesColumns line); [by intros [= <-]|].
    destruct (String.eqb _ _); by intros [= <-]. }
  destruct (HasPrefix line " "); cbn; [|by apply Htail].
  case_bool_decide; [|done].
  destruct (Atoi _) as [count|]; [|done].
  destruct (Atoi _) as [id|]; [|done].
  destruct (traces st !! id); [|done]. cbn.
  apply Htail. by apply set_count_inv.
Qed.

Lemma scan_line_inv line st st' :
  pinv_state st → scan_line line st = Parsed st' → pinv_state st'.
Proof.
  intros Hinv. unfold scan_line.
  cbn [inTrace inSamples p_sites lineNumber traces callSites currentTrace].
  destruct (inTrace st) eqn:E1, (HasPrefix line _) eqn:E2, (inSamples st) eqn:E3;
    cbn [andb negb inTrace inSamples];
    first [ apply header_line_inv; exact Hinv
          | apply trace_line_inv; exact Hinv
          | apply samples_line_inv; exact Hinv
          | by intros [= <-] ].
Qed.

Lemma scan_lines_inv lines : ∀ st st',
  pinv_state st → scan_lines lines st = Parsed st' → pinv_state st'.
Proof.
  induction lines as [|line rest IH]; intros st st' Hinv; simpl.
  - by intros [= <-].
  - destruct (scan_line line st) as [st1|] eqn:E; [|done]. cbn.
    apply IH. by eapply scan_line_inv.
Qed.

Import MainFacts.

Lemma parsed_traces_valid st traces :
  pinv_state st → traces ≡ₚ (map_to_list (Hprof.traces st)).*2 →
  valid_traces (p_sites st) traces ∧
  ∀ t p, t ∈ traces → p ∈ Stack t → ∃ L, callSites st !! L = Some p.
Proof.
  intros [Hstack Hsites Hfresh Hinj Hid] Hp.
  assert (Hin : ∀ t, t ∈ traces → ∃ id, Hprof.traces st !! id = Some t).
  { intros t Ht. rewrite Hp in Ht. apply list_elem_of_fmap in Ht as ([id t'] & -> & Hin).
    exists id. by apply elem_of_map_to_list. }
  assert (HL : ∀ t p, t ∈ traces → p ∈ Stack t → ∃ L, callSites st !! L = Some p).
  { intros t p Ht Hpin. destruct (Hin t Ht) as [id Hid']. by eapply Hstack. }
  split; [|done].
  intros t p Ht Hpin. destruct (HL t p Ht Hpin) as [L HLp].
  destruct (Hsites L p HLp) as (? & ? & ? & ? & _ & _ & Hs).
  by apply lookup_lt_Some in Hs.
Qed.

Lemma fresh_in_range sites :
  (∀ p c, sites !! p = Some c → Count c = 0 ∧ CumulativeCount c = 0) →
  ∀ p, count_at sites p = 0 ∧ cum_at sites p = 0.
Proof.
  intros H p. unfold count_at, cum_at. destruct (sites !! p) as [c|] eqn:E; [|done].
  destruct (H p c E) as [H1 H2]. by cbn.
Qed.

Lemma scan_lines_app l1 l2 st :
  scan_lines (l1 ++ l2) st = st' ← scan_lines l1 st; scan_lines l2 st'.
Proof.
  revert st. induction l1 as [|line l1 IH]; intros st; cbn [app scan_lines]; [done|].
  destruct (scan_line line st); cbn; [apply IH|done].
Qed.

Lemma HasPrefix_tab (L : string) : HasPrefix (String tab L) (String tab EmptyString) = true.
Proof. unfold HasPrefix. cbn. by apply bool_decide_eq_true_2. Qed.

Lemma TrimPrefix_tab (L : string) : TrimPrefix (String tab L) (String tab EmptyString) = L.
Proof. unfold TrimPrefix. cbn. by destruct L. Qed.

Lemma occurrences_once (p : loc) (stack : list loc) :
  (∀ i j : nat, stack !! i = Some p → stack !! j = Some p → i = j) →
  occurrences p stack = if decide (p ∈ stack) then 1 else 0.
Proof.
  unfold occurrences. induction stack as [|q stack IH]; intros H.
  - by rewrite decide_False by set_solver.
  - assert (Hs : ∀ i j : nat, stack !! i = Some p → stack !! j = Some p → i = j).
    { intros i j Hi Hj. specialize (H (S i) (S j) Hi Hj). lia. }
    specialize (IH Hs). rewrite filter_cons. destruct (decide (q = p)) as [->|Hne].
    + assert (Hp : p ∉ stack).
      { intros [j Hj]%list_elem_of_lookup. by specialize (H 0%nat (S j) eq_refl Hj). }
      rewrite decide_True by set_solver. cbn [length].
      rewrite decide_False in IH by done. lia.
    + rewrite IH. destruct (decide (p ∈ stack)).
      * by rewrite decide_True by set_solver.
      * by rewrite decide_False by set_solver.
Qed.

Lemma cum_of_once (p : loc) (t : Trace) :
  (∀ i j : nat, Stack t !! i = Some p → Stack t !! j = Some p → i = j) →
  cum_of p t = holds_of p t.
Proof.
  intros H. unfold cum_of, holds_of. rewrite (occurrences_once p _ H). case_decide; lia.
Qed.

Lemma grows_refl st : grows st st.
Proof. split; [done|]. intros id t H. by exists t. Qed.

Lemma grows_trans st1 st2 st3 : grows st1 st2 → grows st2 st3 → grows st1 st3.
Proof.
  intros [Hc1 Ht1] [Hc2 Ht2]. split; [by etrans|].
  intros id t H. destruct (Ht1 id t H) as (t' & H' & Hp).
  destruct (Ht2 id t' H') as (t'' & H'' & Hp'). exists t''. split; [done|by etrans].
Qed.

Lemma header_line_step line st st' :
  current_stored st → header_line line st = Parsed st' →
  current_stored st' ∧ grows st st'.
Proof.
  intros [Hc1 Hc2]. unfold header_line. destruct (traceHeader line).
  - destruct (Atoi _) as [id|]; [|done]. destruct (traces st !! id) as [t0|] eqn:E; [done|].
    intros [= <-]. split.
    + split; cbn; [eauto|]. intros id' [= <-]. rewrite lookup_insert_eq. eauto.
    + split; [done|]. cbn. intros id' t H. exists t. split; [|done].
      rewrite lookup_insert_ne; [done|]. intros <-. congruence.
  - intros [= <-]. split; [by split|]. split; cbn; [done|]. intros id t H. by exists t.
Qed.

Lemma alter_stack_grows (f : Trace → Trace) (tr : gmap Z Trace) (k id : Z) (t : Trace) :
  (∀ x, Stack x `prefix_of` Stack (f x)) →
  tr !! id = Some t →
  ∃ t', alter f k tr !! id = Some t' ∧ Stack t `prefix_of` Stack t'.
Proof.
  intros Hf H. destruct (decide (k = id)) as [->|Hne].
  - rewrite lookup_alter_eq, H. cbn. eauto.
  - rewrite lookup_alter_ne by done. eauto.
Qed.

Lemma resolve_site_grows line st p sites' cs' :
  resolve_site line st = Parsed (p, sites', cs') → callSites st ⊆ cs'.
Proof.
  unfold resolve_site. destruct (callSites st !! line) eqn:E.
  - by intros [= <- <- <-].
  - destruct (traceLine line) as [[[name file] ln]|]; [|done].
    destruct (Atoi ln); cbn.
    + intros [= <- <- <-]. by apply insert_subseteq.
    + destruct (String.eqb ln _); [|done]. cbn. intros [= <- <- <-]. by apply insert_subseteq.
Qed.

Lemma trace_line_step line st st' :
  current_stored st → trace_line line st = Parsed st' →
  current_stored st' ∧ grows st st'.
Proof.
  intros [Hc1 Hc2]. unfold trace_line.
  destruct (resolve_site _ st) as [[[p sites'] cs']|] eqn:E; [|done]. cbn.
  intros [= <-]. apply resolve_site_grows in E. split.
  - split; cbn; [done|]. intros id Hid. destruct (Hc2 id Hid) as [t Ht].
    rewrite Hid. rewrite lookup_alter_eq, Ht. cbn. eauto.
  - split; [done|]. cbn. intros id t H. destruct (currentTrace st) as [cur|]; [|eauto].
    apply alter_stack_grows; [|done]. intros x. cbn. by apply prefix_app_r.
Qed.

Lemma samples_line_step line st st' :
  current_stored st → samples_line line st = Parsed st' →
  current_stored st' ∧ grows st st'.
Proof.
  intros [Hc1 Hc2]. unfold samples_line.
  assert (∀ st1, current_stored st1 ∧ grows st st1 →
    (if samplesColumns line then Parsed st1
     else if String.eqb line "CPU SAMPLES END" then
       Parsed (mkP (p_sites st1) (lineNumber st1) (traces st1) (callSites st1)
                   (currentTrace st1) (inTrace st1) false)
     else Parsed st1) = Parsed st' → current_stored st' ∧ grows st st') as Htail.
  { intros st1 [Hs Hg] H. destruct (samplesColumns line); [by injection H as <-|].
    destruct (String.eqb line _); injection H as <-; [|done]. done. }
  destruct (HasPrefix line " ").
  - case_bool_decide; [|done]. destruct (Atoi _) as [count|]; [|done].
    destruct (Atoi _) as [id|]; [|done]. destruct (traces st !! id) as [t0|] eqn:E; [|done].
    cbn [mbind parsing_bind]. apply Htail. split.
    + split; cbn; [done|]. intros id' Hid. destruct (Hc2 id' Hid) as [t Ht].
      destruct (decide (id = id')) as [->|Hne].
      * rewrite lookup_alter_eq, Ht. cbn. eauto.
      * rewrite lookup_alter_ne by done. eauto.
    + split; [done|]. cbn. intros id' t Hlk. by apply alter_stack_grows.
  - cbn [mbind parsing_bind]. apply Htail. split; [by split|apply grows_refl].
Qed.

Lemma scan_line_step line st st' :
  current_stored st → scan_line line st = Parsed st' →
  current_stored st' ∧ grows st st'.
Proof.
  intros Hc. destruct st as [sites ln tr cs cur intr insam].
  assert (∀ ln', current_stored (mkP sites ln' tr cs cur false insam)) as Hf.
  { intros ln'. destruct Hc as [H1 H2]. by split. }
  assert (∀ ln', current_stored (mkP sites ln' tr cs cur intr insam)) as Hsame.
  { intros ln'. destruct Hc as [H1 H2]. by split. }
  unfold scan_line.
  cbn [inTrace inSamples p_sites lineNumber traces callSites currentTrace].
  destruct intr, (HasPrefix line _), insam;
    cbn [andb negb inTrace inSamples p_sites lineNumber traces callSites currentTrace];
    intros H;
    first [ apply header_line_step in H; [exact H|done]
          | apply trace_line_step in H; [exact H|done]
          | apply samples_line_step in H; [exact H|done] ].
Qed.

Lemma scan_lines_step lines : ∀ st st',
  current_stored st → scan_lines lines st = Parsed st' →
  current_stored st' ∧ grows st st'.
Proof.
  induction lines as [|line rest IH]; intros st st' Hc; cbn [scan_lines].
  - intros [= <-]. split; [done|apply grows_refl].
  - destruct (scan_line line st) as [st1|] eqn:E; [|done]. cbn [mbind parsing_bind].
    intros H. destruct (scan_line_step line st st1 Hc E) as [Hc1 Hg1].
    destruct (IH st1 st' Hc1 H) as [Hc' Hg']. split; [done|by eapply grows_trans].
Qed.

Lemma current_stored_initial : current_stored initial.
Proof. split; cbn; [done|]. by intros id H. Qed.

(** A frame line read inside a trace block appends the call site of its
    text to the stack of the current trace. *)
Lemma frame_line_step (L : string) (st st' : pstate) (id : Z) (t : Trace) :
  pinv_state st → inTrace st = true → currentTrace st = Some id →
  traces st !! id = Some t →
  scan_line (String tab L) st = Parsed st' →
  ∃ p, callSites st' !! L = Some p ∧ traces st' !! id = Some (push_site p t).
Proof.
  intros Hinv Hin Hcur Ht.
  destruct st as [sites ln tr cs cur intr insam]. cbn in Hin, Hcur, Ht. subst intr cur.
  unfold scan_line.
  cbn [inTrace inSamples p_sites lineNumber traces callSites currentTrace].
  rewrite HasPrefix_tab.
  cbn [negb andb inTrace inSamples p_sites lineNumber traces callSites currentTrace].
  unfold trace_line. rewrite TrimPrefix_tab.
  destruct (resolve_site L _) as [[[p sites'] cs']|] eqn:E; [|done].
  cbn [mbind parsing_bind currentTrace traces]. intros [= <-].
  destruct (resolve_site_inv L (mkP sites (ln + 1) tr cs (Some id) true insam) p sites' cs'
              Hinv E) as [_ HL].
  exists p. split; [done|]. cbn. by rewrite lookup_alter_eq, Ht.
Qed.

Lemma frame_line_entry (lines : list string) (st : pstate) (k : nat) (L : string)
    (st_k : pstate) :
  scan_lines lines initial = Parsed st →
  lines !! k = Some (String tab L) →
  scan_lines (take k lines) initial = Parsed st_k → inTrace st_k = true →
  ∃ id t_k t p,
    currentTrace st_k = Some id ∧ traces st_k !! id = Some t_k ∧
    traces st !! id = Some t ∧ callSites st !! L = Some p ∧
    Stack t !! length (Stack t_k) = Some p.
Proof.
  intros Hscan Hk Hpre Hin.
  rewrite <- (take_drop_middle lines k _ Hk), scan_lines_app, Hpre in Hscan.
  cbn [mbind parsing_bind scan_lines] in Hscan.
  destruct (scan_line (String tab L) st_k) as [st1|] eqn:E; [|done].
  cbn [mbind parsing_bind] in Hscan.
  pose proof (scan_lines_inv _ _ _ pinv_initial Hpre) as Hinv.
  destruct (scan_lines_step _ _ _ current_stored_initial Hpre) as [[Hc1 Hc2] _].
  destruct (Hc1 Hin) as [id Hid]. destruct (Hc2 id Hid) as [t_k Htk].
  destruct (frame_line_step L st_k st1 id t_k Hinv Hin Hid Htk E) as (p & HL & Ht1).
  assert (current_stored st1) as Hcs1 by (by eapply scan_line_step).
  destruct (scan_lines_step _ _ _ Hcs1 Hscan) as [_ [Hcs Htr]].
  destruct (Htr id _ Ht1) as (t & Ht & Hp).
  exists id, t_k, t, p. split_and!; [done..|by eapply lookup_weaken|].
  eapply prefix_lookup_Some; [|exact Hp]. cbn.
  by rewrite lookup_app_r, Nat.sub_diag by done.
Qed.

(** C2, as amended: call sites are shared by the text of the stack-frame
    line. When the parser succeeds: a line [tab ++ L] read inside a trace
    block appends to the stack of the current trace the call site that
    [callSites] holds for the text [L], at the position that was the length
    of the stack; every stack entry of every trace is the call site of one
    line text; [CreateNodes] returns on the parsed traces (in any order),
    and for the call site [p] of a line text [L]: no other text has this
    call site, it holds the name, file and line that [L] parses to, the
    node list has exactly one node for [p] when [p] is on some stack, the
    self count of a node for [p] is the wrapped sum of the counts of the
    traces that have [p] at position 0, and, when no stack holds [p] at two
    positions, its cumulative count is the wrapped sum of the counts of the
    traces whose stack holds [p]. *)
Theorem one_node_per_line (lines : list string) (st : pstate) (traces : list Trace) :
  scan_lines lines initial = Parsed st →
  traces ≡ₚ (map_to_list (Hprof.traces st)).*2 →
  (∀ (k : nat) L st_k,
     lines !! k = Some (String tab L) →
     scan_lines (take k lines) initial = Parsed st_k → inTrace st_k = true →
     ∃ id t_k t p,
       currentTrace st_k = Some id ∧ Hprof.traces st_k !! id = Some t_k ∧
       Hprof.traces st !! id = Some t ∧ callSites st !! L = Some p ∧
       Stack t !! length (Stack t_k) = Some p) ∧
  ∃ sites' objs nodeList,
    CreateNodes (p_sites st) traces = Return (sites', objs, nodeList) ∧
    (∀ t p, t ∈ traces → p ∈ Stack t → ∃ L, callSites st !! L = Some p) ∧
    ∀ L p, callSites st !! L = Some p →
      (∀ L', callSites st !! L' = Some p → L' = L) ∧
      (∃ name file ln n,
         traceLine L = Some (name, file, ln) ∧ line_number ln = Some n ∧
         p_sites st !! p = Some (mkCallSite name file n 0 0)) ∧
      (p ∈ stack_sites traces →
         length (filter (λ n, node_site objs n = Some p) nodeList) = 1%nat) ∧
      ∀ n, node_site objs n = Some p →
        Node_Count sites' objs n = wrap64 (sumZ (self_of p <$> traces)) ∧
        ((∀ t (i j : nat), t ∈ traces →
            Stack t !! i = Some p → Stack t !! j = Some p → i = j) →
         Node_CumulativeCount sites' objs n = wrap64 (sumZ (holds_of p <$> traces))).
Proof.
  intros Hscan Hperm. split.
  { intros k L st_k Hk Hpre Hin. by apply (frame_line_entry lines st k L st_k). }
  pose proof (scan_lines_inv lines initial st pinv_initial Hscan) as Hinv.
  destruct (parsed_traces_valid st traces Hinv Hperm) as [Hv HL].
  destruct (CreateNodes_spec (p_sites st) traces Hv)
    as (objs & nodeList & keys & HC & Hnd & Hk & HF).
  exists (bump_traces traces (p_sites st)), objs, nodeList.
  split; [done|]. split; [done|].
  intros L p HLp. split_and!.
  - intros L' HL'. by eapply (pinv_inj _ _ _ Hinv).
  - by apply (pinv_sites _ _ _ Hinv).
  - intros Hin. eapply one_node_per_site; [done..|]. by apply Hk.
  - intros n Hn.
    pose proof (fresh_in_range _ (pinv_fresh _ _ _ Hinv)) as H0.
    assert (Hr : sites_in_range (bump_traces traces (p_sites st))).
    { apply bump_traces_in_range; [done|]. intros q. destruct (H0 q) as [-> ->].
      split; apply in_int64_0. }
    destruct (Hr p) as [Hc Hcum]. destruct (H0 p) as [Hc0 Hcum0].
    rewrite (Node_Count_site _ _ _ _ Hn), (Node_CumulativeCount_site _ _ _ _ Hn).
    rewrite <- (wrap64_id _ Hc), <- (wrap64_id _ Hcum).
    rewrite count_at_bump_traces, cum_at_bump_traces by done.
    rewrite Hc0, Hcum0. split; [done|].
    intros Honce. cbn [Z.add]. apply wrap64_sumZ_ext.
    intros t Ht. rewrite cum_of_once; [done|]. intros i j. by apply Honce.
Qed.

(** C2, counterexample: the lines [foo(Foo.java:10)] and
    [foo(Foo.java:010)] denote the same (name, file, line), and the node
    list has two nodes for it; and a trace of 3 samples whose stack holds
    the line [foo(Foo.java:10)] twice gives its one node the cumulative
    count 6. *)
Lemma two_spellings_two_nodes :
  (∃ sites byID sites' objs nodeList,
    ParseHProfFile
      ["TRACE 1:"; String tab "foo(Foo.java:10)"; "TRACE 2:"; String tab "foo(Foo.java:010)"]
      = Parsed (sites, byID) ∧
    CreateNodes sites (map_to_list byID).*2 = Return (sites', objs, nodeList) ∧
    (λ n, nd ← objs !! n; cs ← sites' !! Node_CallSite nd;
          Some (Name cs, Filename cs, LineNumber cs)) <$> nodeList
      = [Some ("foo", "Foo.java", 10); Some ("foo", "Foo.java", 10)]) ∧
  (∃ sites byID sites' objs nodeList,
    ParseHProfFile
      ["TRACE 1:"; String tab "foo(Foo.java:10)"; String tab "foo(Foo.java:10)";
       "CPU SAMPLES BEGIN (total = 3)"; "   1 100.00% 100.00%       3     1 foo"]
      = Parsed (sites, byID) ∧
    (map_to_list byID).*2 = [mkTrace 1 [0%nat; 0%nat] 3] ∧
    CreateNodes sites (map_to_list byID).*2 = Return (sites', objs, nodeList) ∧
    Node_CumulativeCount sites' objs <$> nodeList = [6]).
Proof.
  split.
  - eexists _, _, _, _, _. split; [vm_compute; reflexivity|].
    split; vm_compute; reflexivity.
  - eexists _, _, _, _, _. split; [vm_compute; reflexivity|].
    split; [vm_compute; reflexivity|]. split; vm_compute; reflexivity.
Qed.

Lemma one_node_per_line_witness :
  ∃ st, scan_lines ["TRACE 1:"; String tab "foo(Foo.java:10)"; String tab "bar(Bar.java:5)";
                    "TRACE 2:"; String tab "bar(Bar.java:5)"] initial = Parsed st ∧
  (∀ (k : nat) L st_k,
     (["TRACE 1:"; String tab "foo(Foo.java:10)"; String tab "bar(Bar.java:5)";
     "TRACE 2:"; String tab "bar(Bar.java:5)"] : list string) !! k
       = Some (String tab L) →
     scan_lines (take k ["TRACE 1:"; String tab "foo(Foo.java:10)"; String tab "bar(Bar.java:5)";
                         "TRACE 2:"; String tab "bar(Bar.java:5)"])
       initial = Parsed st_k →
     inTrace st_k = true →
     ∃ id t_k t p,
       currentTrace st_k = Some id ∧ Hprof.traces st_k !! id = Some t_k ∧
       Hprof.traces st !! id = Some t ∧ callSites st !! L = Some p ∧
       Stack t !! length (Stack t_k) = Some p) ∧
  ∃ sites' objs nodeList,
    CreateNodes (p_sites st) (map_to_list (Hprof.traces st)).*2 = Return (sites', objs, nodeList) ∧
    (∀ t p, t ∈ (map_to_list (Hprof.traces st)).*2 → p ∈ Stack t → ∃ L, callSites st !! L = Some p) ∧
    ∀ L p, callSites st !! L = Some p →
      (∀ L', callSites st !! L' = Some p → L' = L) ∧
      (∃ name file ln n,
         traceLine L = Some (name, file, ln) ∧ line_number ln = Some n ∧
         p_sites st !! p = Some (mkCallSite name file n 0 0)) ∧
      (p ∈ stack_sites (map_to_list (Hprof.traces st)).*2 →
         length (filter (λ n, node_site objs n = Some p) nodeList) = 1%nat) ∧
      ∀ n, node_site objs n = Some p →
        Node_Count sites' objs n = wrap64 (sumZ (self_of p <$> (map_to_list (Hprof.traces st)).*2)) ∧
        ((∀ t (i j : nat), t ∈ (map_to_list (Hprof.traces st)).*2 →
            Stack t !! i = Some p → Stack t !! j = Some p → i = j) →
         Node_CumulativeCount sites' objs n
           = wrap64 (sumZ (holds_of p <$> (map_to_list (Hprof.traces st)).*2))).
Proof.
  eexists. split; [vm_compute; reflexivity|].
  apply (one_node_per_line
           ["TRACE 1:"; String tab "foo(Foo.java:10)"; String tab "bar(Bar.java:5)";
            "TRACE 2:"; String tab "bar(Bar.java:5)"]%string);
    [vm_compute; reflexivity|reflexivity].
Defined.

End HprofFacts.

Module FilterFacts.
Import Main Hprof.

Lemma FilterMatching_returns_inv M sites traces kept :
  FilterMatching M sites traces = Return kept →
  ∀ t, t ∈ traces → ∃ p cs, Stack t !! 0%nat = Some p ∧ sites !! p = Some cs.
Proof.
  revert kept. induction traces as [|t0 rest IH]; intros kept H t Ht.
  - by apply elem_of_nil in Ht.
  - simpl in H. destruct (Stack t0 !! 0%nat) as [p|] eqn:E0; [|done].
    unfold deref in H. destruct (sites !! p) as [cs|] eqn:Ecs; [|done]. cbn in H.
    destruct (FilterMatching M sites rest) as [kept'|] eqn:Er; [|done].
    apply elem_of_cons in Ht as [->|Ht]; [eauto|]. by eapply IH.
Qed.

Lemma FilterMatching_total M sites traces :
  (∀ t, t ∈ traces → ∃ p cs, Stack t !! 0%nat = Some p ∧ sites !! p = Some cs) →
  ∃ kept, FilterMatching M sites traces = Return kept.
Proof.
  induction traces as [|t0 rest IH]; intros H; simpl; [eauto|].
  destruct (H t0) as (p & cs & -> & Hcs); [set_solver|].
  unfold deref. rewrite Hcs. cbn.
  destruct IH as [kept ->]; [intros; apply H; set_solver|]. cbn. eauto.
Qed.

Lemma FilterMatching_empty_stack M sites traces t :
  t ∈ traces → Stack t = [] → ∃ p, FilterMatching M sites traces = Panics p.
Proof.
  intros Ht Hs. destruct (FilterMatching M sites traces) as [kept|p] eqn:E; [|eauto].
  destruct (FilterMatching_returns_inv _ _ _ _ E t Ht) as (p & cs & Hp & _).
  by rewrite Hs in Hp.
Qed.

(** C10: the parser yields a trace with an empty stack from a TRACE header
    followed by an unindented line; [FilterMatching] returns only if every
    stack is non-empty (it indexes position 0 of each), it does return when
    every stack is non-empty and holds no nil pointer, and on that output of
    the parser it panics with an index out of range, whatever the regular
    expression and the order of the traces. *)
Theorem FilterMatching_needs_stacks :
  (∃ sites byID,
     ParseHProfFile ["TRACE 1:"; "THREAD START (obj=1, id = 2)"]%string = Parsed (sites, byID) ∧
     byID !! 1 = Some (mkTrace 1 [] 0)) ∧
  (∀ M sites traces kept,
     FilterMatching M sites traces = Return kept → ∀ t, t ∈ traces → Stack t ≠ []) ∧
  (∀ M sites traces,
     valid_traces sites traces → (∀ t, t ∈ traces → Stack t ≠ []) →
     ∃ kept, FilterMatching M sites traces = Return kept) ∧
  (∃ sites byID,
     ParseHProfFile ["TRACE 1:"; "THREAD START (obj=1, id = 2)"]%string = Parsed (sites, byID) ∧
     ∀ M traces, traces ≡ₚ (map_to_list byID).*2 →
       FilterMatching M sites traces = Panics (IndexOutOfRange 0 0)).
Proof.
  split_and!.
  - eexists _, _. split; [vm_compute; reflexivity|]. vm_compute. reflexivity.
  - intros M sites traces kept H t Ht Hs.
    destruct (FilterMatching_returns_inv _ _ _ _ H t Ht) as (p & cs & Hp & _).
    by rewrite Hs in Hp.
  - intros M sites traces Hv Hne. apply FilterMatching_total. intros t Ht.
    destruct (Stack t) as [|p rest] eqn:E; [by destruct (Hne t Ht)|].
    assert (Hp : (p < length sites)%nat) by (apply (Hv t); [done|rewrite E; set_solver]).
    destruct (lookup_lt_is_Some_2 _ _ Hp) as [cs Hcs]. eauto.
  - eexists _, _. split; [vm_compute; reflexivity|].
    intros M traces Hp.
    assert (traces = [mkTrace 1 [] 0]) as ->.
    { apply Permutation_singleton_r. rewrite Hp. vm_compute. reflexivity. }
    reflexivity.
Qed.

End FilterFacts.

Module CliFacts.
Import Main Os Cli.

(** C8: with [-topk] positive and [-regex] non-empty (the conditions under
    which [main] applies the two filters) the process ends in the fatal
    message "Cannot provide both -topk and -regexp." with no event before
    it: the input file is not opened. *)
Theorem both_filters_usage_error (sort : sorter) (w : world) (f : flags) :
  0 < topk f → regex f ≠ EmptyString →
  main sort w f = Stopped [] (LogFatal BothFilters).
Proof.
  intros Hk Hr. unfold main. rewrite bool_decide_eq_true_2 by done.
  destruct (String.eqb (regex f) "") eqn:E; [|done].
  apply String.eqb_eq in E. done.
Qed.

Lemma both_filters_usage_error_witness :
  main merge_sorter (mkWorld (λ _, None) (λ _, None) (λ _, true) (λ _, true))
       (mkFlags 3 "Foo" ["java.hprof.txt"; "hprof.dot"]%string)
  = Stopped [] (LogFatal BothFilters).
Proof. apply both_filters_usage_error; [simpl; lia|discriminate]. Defined.

End CliFacts.

Module KeepFacts.
Import Main Os Keep.

Lemma delete_keys_lookup (pruned : gset loc) (keys : list loc) : ∀ (m : gmap loc Z) k,
  foldl (λ acc edge, if decide (edge ∈ pruned) then delete edge acc else acc) m keys !! k
  = if decide (k ∈ pruned ∧ k ∈ keys) then None else m !! k.
Proof.
  induction keys as [|e keys IH]; intros m k; simpl.
  - rewrite decide_False; [done|]. intros [_ H]. by apply elem_of_nil in H.
  - rewrite IH. destruct (decide (k ∈ pruned ∧ k ∈ keys)) as [[H1 H2]|Hn].
    + rewrite decide_True; [done|]. split; [done|set_solver].
    + destruct (decide (e ∈ pruned)) as [He|He].
      * destruct (decide (e = k)) as [->|Hne].
        -- rewrite lookup_delete_eq, decide_True; [done|]. split; [done|set_solver].
        -- rewrite lookup_delete_ne by done. rewrite decide_False; [done|].
           intros [H1 H2]. apply Hn. split; [done|]. set_solver.
      * rewrite decide_False; [done|]. intros [H1 H2]. apply Hn. split; [done|].
        apply elem_of_cons in H2 as [->|H2]; done.
Qed.

Lemma delete_pruned_lookup pruned (m : gmap loc Z) k :
  delete_pruned pruned m !! k = if decide (k ∈ pruned) then None else m !! k.
Proof.
  unfold delete_pruned. rewrite delete_keys_lookup.
  destruct (decide (k ∈ pruned)) as [Hk|Hk].
  - destruct (m !! k) as [v|] eqn:E.
    + rewrite decide_True; [done|]. split; [done|].
      apply list_elem_of_fmap. exists (k, v). split; [done|]. by apply elem_of_map_to_list.
    + by case_decide.
  - rewrite decide_False; [done|]. tauto.
Qed.

Lemma delete_pruned_idemp pruned (m : gmap loc Z) :
  delete_pruned pruned (delete_pruned pruned m) = delete_pruned pruned m.
Proof.
  apply map_eq. intros k. rewrite !delete_pruned_lookup.
  repeat case_decide; done.
Qed.

Lemma pruned_node_idemp pruned nd :
  pruned_node pruned (pruned_node pruned nd) = pruned_node pruned nd.
Proof.
  unfold pruned_node. destruct nd as [s c [m|]]; cbn; [|done].
  destruct (bool_decide (size (delete_pruned pruned m) = 0%nat)) eqn:E; cbn.
  - by destruct (bool_decide _).
  - by rewrite delete_pruned_idemp, E.
Qed.

Lemma prune_edges_spec pruned topK : ∀ objs,
  (∀ n, n ∈ topK → (n < length objs)%nat) →
  ∃ objs',
    prune_edges pruned topK objs = Return objs' ∧
    length objs' = length objs ∧
    ∀ n, objs' !! n =
         if decide (n ∈ topK) then pruned_node pruned <$> objs !! n else objs !! n.
Proof.
  induction topK as [|node rest IH]; intros objs Hv; cbn [prune_edges].
  - exists objs. split_and!; [done..|]. intros n. rewrite decide_False; [done|].
    apply not_elem_of_nil.
  - assert (Hn : (node < length objs)%nat) by (apply Hv; set_solver).
    destruct (lookup_lt_is_Some_2 _ _ Hn) as [nd Hnd].
    unfold deref. rewrite Hnd. cbn.
    change (mkNode (Node_CallSite nd) (Count nd) _) with (pruned_node pruned nd).
    destruct (IH (<[node := pruned_node pruned nd]> objs)) as (objs' & Hp & Hl & Hlk).
    { intros n Hin. rewrite length_insert. apply Hv. set_solver. }
    exists objs'. split; [done|]. split; [by rewrite Hl, length_insert|].
    intros n. rewrite Hlk. destruct (decide (n = node)) as [->|Hne].
    + rewrite list_lookup_insert_eq by done.
      rewrite (decide_True (P := node ∈ node :: rest)) by set_solver.
      rewrite Hnd. destruct (decide (node ∈ rest)); cbn; [by rewrite pruned_node_idemp|done].
    + rewrite list_lookup_insert_ne by done.
      destruct (decide (n ∈ rest)).
      * rewrite (decide_True (P := n ∈ node :: rest)) by set_solver. done.
      * rewrite (decide_False (P := n ∈ node :: rest)); [done|]. set_solver.
Qed.

Lemma deref_all_valid (objs : list Node) (nodes : list loc) :
  (∀ n, n ∈ nodes → (n < length objs)%nat) →
  foldr (λ n acc, _ ← deref objs n; acc) (Return tt) nodes = Return tt.
Proof.
  induction nodes as [|n rest IH]; intros Hv; simpl; [done|].
  destruct (lookup_lt_is_Some_2 objs n) as [nd Hnd]; [apply Hv; set_solver|].
  unfold deref. rewrite Hnd. cbn. apply IH. intros; apply Hv; set_solver.
Qed.

Lemma byWeight_asym objs (a b : loc) :
  Reverse (byWeight_Less objs) a b = true → Reverse (byWeight_Less objs) b a = false.
Proof.
  unfold Reverse, byWeight_Less. intros H. apply bool_decide_eq_true in H.
  apply bool_decide_eq_false. lia.
Qed.

Lemma byWeight_negtrans objs (a b c : loc) :
  Reverse (byWeight_Less objs) a b = false → Reverse (byWeight_Less objs) b c = false →
  Reverse (byWeight_Less objs) a c = false.
Proof.
  unfold Reverse, byWeight_Less. intros H1 H2.
  apply bool_decide_eq_false in H1, H2. apply bool_decide_eq_false. lia.
Qed.

(** [Prune] with [0 <= keep <= len(nodes)] and no nil node. *)
Lemma Prune_spec (sort : sorter) (keep : Z) (objs : list Node) (nodes : list loc) :
  sort_spec sort →
  0 <= keep <= Z.of_nat (length nodes) →
  (∀ n, n ∈ nodes → (n < length objs)%nat) →
  ∃ objs' topK dropped,
    Prune sort keep objs nodes = Return (objs', topK) ∧
    topK ++ dropped ≡ₚ nodes ∧
    length topK = Z.to_nat keep ∧
    (∀ a b, a ∈ topK → b ∈ dropped → count_of objs b <= count_of objs a) ∧
    ∀ n, objs' !! n =
         if decide (n ∈ topK) then pruned_node (list_to_set dropped) <$> objs !! n
         else objs !! n.
Proof.
  intros Hsort Hk Hv. unfold Prune.
  destruct (Hsort loc (Reverse (byWeight_Less objs)) nodes
              (byWeight_asym objs) (byWeight_negtrans objs)) as [Hperm Hsorted].
  set (sorted := sort loc (Reverse (byWeight_Less objs)) nodes) in *.
  assert (Hlen : length sorted = length nodes) by by rewrite Hperm.
  replace (if bool_decide (2 ≤ length nodes)%nat then _ else Return tt) with (Return tt).
  2:{ case_bool_decide; [|done]. symmetry. by apply deref_all_valid. }
  cbn. rewrite bool_decide_eq_true_2 by lia.
  destruct (prune_edges_spec (list_to_set (drop (Z.to_nat keep) sorted))
              (take (Z.to_nat keep) sorted) objs) as (objs' & Hp & Hl & Hlk).
  { intros n Hin. apply Hv. rewrite <- Hperm. by eapply subseteq_take. }
  rewrite Hp. cbn.
  exists objs', (take (Z.to_nat keep) sorted), (drop (Z.to_nat keep) sorted).
  split_and!.
  - done.
  - by rewrite take_drop.
  - rewrite length_take. lia.
  - intros a b Ha Hb.
    apply list_elem_of_lookup in Ha as [i Hi], Hb as [j Hj].
    rewrite lookup_take_Some in Hi. destruct Hi as [Hi Hlt].
    rewrite lookup_drop in Hj.
    specialize (Hsorted i (Z.to_nat keep + j)%nat a b ltac:(lia) Hi Hj).
    unfold Reverse, byWeight_Less in Hsorted. apply bool_decide_eq_false in Hsorted.
    unfold count_of. lia.
  - done.
Qed.

(** C6: for a node list of at least [keep] nodes, none nil, [Prune]
    returns [keep] nodes, the node list being a permutation of the retained
    and the dropped nodes and no dropped node having a greater count than a
    retained one; a retained node has no edge to a dropped node, keeps its
    other edges with their weights, and its [EdgeWeights] is never an empty
    map: it is nil when no edge is left. *)
Theorem Prune_closure (sort : sorter) (keep : Z) (objs : list Node) (nodes : list loc) :
  sort_spec sort →
  0 <= keep <= Z.of_nat (length nodes) →
  (∀ n, n ∈ nodes → (n < length objs)%nat) →
  ∃ objs' topK dropped,
    Prune sort keep objs nodes = Return (objs', topK) ∧
    topK ++ dropped ≡ₚ nodes ∧
    length topK = Z.to_nat keep ∧
    (∀ a b, a ∈ topK → b ∈ dropped → count_of objs b <= count_of objs a) ∧
    ∀ n, n ∈ topK →
      ∃ nd0 nd, objs !! n = Some nd0 ∧ objs' !! n = Some nd ∧
        EdgeWeights nd ≠ Some ∅ ∧
        ∀ target,
          default ∅ (EdgeWeights nd) !! target =
            if decide (target ∈ dropped) then None
            else default ∅ (EdgeWeights nd0) !! target.
Proof.
  intros Hsort Hk Hv.
  destruct (Prune_spec sort keep objs nodes Hsort Hk Hv)
    as (objs' & topK & dropped & HP & Hperm & Hlen & Hord & Hlk).
  exists objs', topK, dropped. split_and!; [done..|].
  intros n Hn.
  assert (Hin : n ∈ nodes) by (rewrite <- Hperm; set_solver).
  destruct (lookup_lt_is_Some_2 _ _ (Hv n Hin)) as [nd0 Hnd0].
  exists nd0, (pruned_node (list_to_set dropped) nd0).
  split; [done|]. split; [by rewrite Hlk, decide_True, Hnd0|].
  unfold pruned_node. cbn. destruct (EdgeWeights nd0) as [m|]; cbn.
  - case_bool_decide as Hs; cbn.
    + split; [done|]. intros target. apply map_size_empty_inv in Hs.
      pose proof (delete_pruned_lookup (list_to_set dropped) m target) as Hd.
      rewrite Hs, lookup_empty in Hd. rewrite lookup_empty.
      destruct (decide (target ∈ dropped)); [done|].
      rewrite decide_False in Hd by set_solver. done.
    + split.
      * intros [= Hm]. apply Hs. rewrite Hm. apply map_size_empty.
      * intros target. rewrite delete_pruned_lookup.
        destruct (decide (target ∈ dropped)).
        -- rewrite decide_True by set_solver. done.
        -- rewrite decide_False by set_solver. done.
  - split; [done|]. intros target. rewrite lookup_empty. by case_decide.
Qed.

Lemma Prune_beyond (sort : sorter) (keep : Z) (objs : list Node) (nodes : list loc) :
  sort_spec sort →
  Z.of_nat (length nodes) < keep →
  (∀ n, n ∈ nodes → (n < length objs)%nat) →
  Prune sort keep objs nodes = Panics (SliceBoundsOutOfRange keep (Z.of_nat (length nodes))).
Proof.
  intros Hsort Hk Hv. unfold Prune.
  destruct (Hsort loc (Reverse (byWeight_Less objs)) nodes
              (byWeight_asym objs) (byWeight_negtrans objs)) as [Hperm _].
  replace (if bool_decide (2 ≤ length nodes)%nat then _ else Return tt) with (Return tt).
  2:{ case_bool_decide; [|done]. symmetry. by apply deref_all_valid. }
  assert (Hlen : length (sort loc (Reverse (byWeight_Less objs)) nodes) = length nodes)
    by by rewrite Hperm.
  cbn. rewrite Hlen. rewrite bool_decide_eq_false_2 by lia. done.
Qed.

Lemma Prune_closure_witness :
  ∃ objs' topK dropped,
    Prune merge_sorter 2
      [mkNode 0 5 (Some {[1%nat := 5; 2%nat := 1]}); mkNode 1 7 (Some {[2%nat := 1]});
       mkNode 2 1 None] [0; 1; 2]%nat = Return (objs', topK) ∧
    topK ++ dropped ≡ₚ [0; 1; 2]%nat ∧
    length topK = Z.to_nat 2 ∧
    (∀ a b, a ∈ topK → b ∈ dropped →
       count_of [mkNode 0 5 (Some {[1%nat := 5; 2%nat := 1]}); mkNode 1 7 (Some {[2%nat := 1]});
                 mkNode 2 1 None] b
       <= count_of [mkNode 0 5 (Some {[1%nat := 5; 2%nat := 1]}); mkNode 1 7 (Some {[2%nat := 1]});
                    mkNode 2 1 None] a) ∧
    ∀ n, n ∈ topK →
      ∃ nd0 nd,
        [mkNode 0 5 (Some {[1%nat := 5; 2%nat := 1]}); mkNode 1 7 (Some {[2%nat := 1]});
         mkNode 2 1 None] !! n = Some nd0 ∧ objs' !! n = Some nd ∧
        EdgeWeights nd ≠ Some ∅ ∧
        ∀ target,
          default ∅ (EdgeWeights nd) !! target =
            if decide (target ∈ dropped) then None
            else default ∅ (EdgeWeights nd0) !! target.
Proof.
  apply (Prune_closure merge_sorter 2).
  - apply merge_sorter_spec.
  - simpl. lia.
  - intros n Hn. simpl.
    repeat (apply elem_of_cons in Hn as [->|Hn]; [lia|]). by apply elem_of_nil in Hn.
Defined.

(** C7, the code at the failing input: with the default [-keep 50] and a
    profile of two call sites, [main] creates the output file and then
    panics in [Prune] with a slice bound out of range; no usage error is
    reported. *)
Theorem keep_beyond_nodes_panics :
  main merge_sorter
    (mkWorld (λ _, Some ["TRACE 1:"; String Hprof.tab "foo(Foo.java:10)";
                         String Hprof.tab "bar(Bar.java:5)"]%string)
             (λ _, None) (λ _, true) (λ _, true))
    50 ["java.hprof.txt"; "hprof.dot"]%string
  = Stopped [OpenInput "java.hprof.txt"; CreateOutput "hprof.dot"]
            (Panicked (SliceBoundsOutOfRange 50 2)).
Proof. vm_compute. reflexivity. Qed.

(** [Prune] on three nodes with [keep = 2]: the edges to the dropped node 2
    are removed, and the map of node 1, now empty, is nil. *)
Lemma prune_example :
  ∃ objs', Prune merge_sorter 2
      [mkNode 0 5 (Some {[1%nat := 5; 2%nat := 1]}); mkNode 1 7 (Some {[2%nat := 1]});
       mkNode 2 1 None] [0; 1; 2]%nat = Return (objs', [1; 0]%nat) ∧
    EdgeWeights <$> objs' = [Some {[1%nat := 5]}; None; None].
Proof. eexists. split; vm_compute; reflexivity. Qed.

End KeepFacts.

Module HprofbinFacts.
Import Hprofbin.

Lemma run_bind {A B} (m : dec A) (k : A → dec B) r :
  run (m ≫= k) r =
    match run m r with
    | Ok a r' => run (k a) r'
    | Fails e => Fails e
    | Crashes p => Crashes p
    end.
Proof. reflexivity. Qed.

Lemma reads_bind {A B} (m : dec A) (k : A → dec B) (P : A → Z → Prop) (Q : B → Z → Prop) :
  reads m P →
  (∀ a c1, 0 <= c1 → P a c1 → reads (k a) (λ b c2, Q b (c1 + c2))) →
  reads (m ≫= k) Q.
Proof.
  intros Hm Hk r Hr. rewrite run_bind. specialize (Hm r Hr).
  destruct (run m r) as [a r'| |]; [|done..].
  destruct Hm as (Hr' & Hle & HP).
  specialize (Hk a (remaining r - remaining r') ltac:(lia) HP r' Hr').
  destruct (run (k a) r') as [b r''| |]; [|done..].
  destruct Hk as (Hr'' & Hle' & HQ). split_and!; [done|lia|].
  replace (remaining r - remaining r'') with (remaining r - remaining r' + (remaining r' - remaining r'')) by lia. done.
Qed.

Lemma reads_ret {A} (a : A) (Q : A → Z → Prop) : Q a 0 → reads (mret a) Q.
Proof. intros HQ r Hr. cbn. rewrite Z.sub_diag. split_and!; [done|lia|done]. Qed.

Lemma reads_weaken {A} (m : dec A) (P Q : A → Z → Prop) :
  reads m P → (∀ a c, 0 <= c → P a c → Q a c) → reads m Q.
Proof.
  intros Hm HPQ r Hr. specialize (Hm r Hr). destruct (run m r) as [a r'| |]; [|done..].
  destruct Hm as (? & ? & ?). split_and!; [done..|]. apply HPQ; [lia|done].
Qed.

Lemma reads_error {A} (e : error) (Q : A → Z → Prop) : reads (error_ e) Q.
Proof. by intros r Hr. Qed.

Lemma reads_get_idSize (Q : Z → Z → Prop) : Q 8 0 → reads (get idSize) Q.
Proof. intros HQ r Hr. cbn. rewrite Hr, Z.sub_diag. split_and!; [done|lia|done]. Qed.

Lemma reads_get {A} (f : reader → A) (Q : A → Z → Prop) : (∀ a, Q a 0) → reads (get f) Q.
Proof. intros HQ r Hr. cbn. rewrite Z.sub_diag. split_and!; [done|lia|done]. Qed.

Lemma reads_modify (f : reader → reader) (Q : unit → Z → Prop) :
  (∀ r, input (f r) = input r ∧ idSize (f r) = idSize r) → Q tt 0 → reads (modify f) Q.
Proof.
  intros Hf HQ r Hr. cbn. destruct (Hf r) as [Hi Hs]. unfold remaining. rewrite Hi, Hs.
  rewrite Z.sub_diag. split_and!; [done|lia|done].
Qed.

Lemma BigEndian_nonneg b : 0 <= BigEndian b.
Proof.
  unfold BigEndian. assert (H : ∀ acc, 0 <= acc →
    0 <= foldl (λ acc x, acc * 256 + Z.of_N (Byte.to_N x)) acc b).
  { induction b as [|x b IH]; intros acc Hacc; simpl; [done|]. apply IH. lia. }
  by apply H.
Qed.

Lemma reads_ReadFull (n : nat) :
  reads (ReadFull n) (λ b c, c = Z.of_nat n ∧ length b = n).
Proof.
  intros r Hr. cbn. case_bool_decide as Hn; [|done]. cbn. unfold remaining. cbn.
  rewrite length_drop, length_take. split_and!; [done|lia|lia|lia].
Qed.

Lemma reads_u (n : nat) (m : dec Z) :
  m = (b ← ReadFull n; mret (BigEndian b)) →
  reads m (λ z c, c = Z.of_nat n ∧ 0 <= z).
Proof.
  intros ->. eapply reads_bind; [apply reads_ReadFull|].
  intros b c1 _ [-> _]. apply reads_ret. split; [lia|apply BigEndian_nonneg].
Qed.

Lemma reads_u1 : reads u1 (λ z c, c = 1 ∧ 0 <= z).
Proof. by apply (reads_u 1). Qed.
Lemma reads_u2 : reads u2 (λ z c, c = 2 ∧ 0 <= z).
Proof. by apply (reads_u 2). Qed.
Lemma reads_u4 : reads u4 (λ z c, c = 4 ∧ 0 <= z).
Proof. by apply (reads_u 4). Qed.
Lemma reads_id : reads id (λ z c, c = 8 ∧ 0 <= z).
Proof. by apply (reads_u 8). Qed.

Lemma reads_ignore (n : Z) : 0 <= n → reads (ignore n) (λ _ c, c = n).
Proof.
  intros Hn r Hr. cbn. case_bool_decide as Hl; [|done]. cbn. unfold remaining. cbn.
  rewrite length_drop. split_and!; [done|lia|lia].
Qed.

Lemma reads_basicSize (typ : Z) :
  reads (basicSize typ) (λ w c, c = 0 ∧ 1 <= w <= 8).
Proof.
  unfold basicSize.
  repeat (case_bool_decide; [first [apply reads_get_idSize | apply reads_ret]; lia|]).
  apply reads_error.
Qed.

(** A loop whose body returns the number of bytes it reads adds to [n] the
    number of bytes the loop reads. *)
Lemma reads_repeat_add (body : dec Z) (count : nat) : ∀ n,
  reads body (λ k c, k = c) →
  reads (repeat_add count body n) (λ n' c, n' = n + c).
Proof.
  induction count as [|count IH]; intros n Hb; simpl.
  - apply reads_ret. lia.
  - eapply reads_bind; [exact Hb|]. intros k c1 _ ->. simpl.
    eapply reads_weaken; [apply IH, Hb|]. intros n' c _ ->. lia.
Qed.

Lemma reads_times (body : dec unit) (count : nat) (w : Z) :
  reads body (λ _ c, c = w) →
  reads (times count body) (λ _ c, c = Z.of_nat count * w).
Proof.
  intros Hb. induction count as [|count IH]; simpl.
  - apply reads_ret. lia.
  - eapply reads_bind; [exact Hb|]. intros [] c1 _ ->. simpl.
    eapply reads_weaken; [apply IH|]. intros [] c _ ->. lia.
Qed.

Ltac rd :=
  first
    [ eapply reads_bind; [apply reads_id | intros ? ? _ [-> ?]]
    | eapply reads_bind; [apply reads_u4 | intros ? ? _ [-> ?]]
    | eapply reads_bind; [apply reads_u2 | intros ? ? _ [-> ?]]
    | eapply reads_bind; [apply reads_u1 | intros ? ? _ [-> ?]]
    | eapply reads_bind; [apply reads_basicSize | intros ? ? _ [-> ?]]
    | eapply reads_bind; [apply reads_ignore; lia | intros ? ? _ ->]
    | eapply reads_bind; [apply reads_modify with (Q := λ _ c, c = 0); [by intros []|done]
                         | intros ? ? _ ->]
    | eapply reads_bind; [apply reads_get_idSize with (Q := λ a c, a = 8 ∧ c = 0); done
                         | intros ? ? _ [-> ->]]
    | apply reads_ret; lia ].

(** [readHeapDumpSegment] returns the number of bytes it has read, which is
    at least the byte of the sub-tag. *)
Lemma readHeapDumpSegment_size :
  reads readHeapDumpSegment (λ n c, n = c ∧ 1 <= n).
Proof.
  unfold readHeapDumpSegment.
  rd. rd. rd.
  repeat (case_bool_decide; [solve [repeat rd]|]).
  case_bool_decide.
  { (* CLASS DUMP *)
    rd. eapply reads_bind; [apply reads_get with (Q := λ _ c, c = 0); done|intros classes ? _ ->].
    destruct (classes !! _); [|apply reads_error].
    do 9 rd.
    eapply reads_bind.
    { apply reads_repeat_add. repeat rd. }
    intros n1 c1 Hc1 ->. rd.
    eapply reads_bind.
    { apply reads_repeat_add. repeat rd. }
    intros n2 c2 Hc2 ->. rd.
    eapply reads_weaken.
    { apply reads_repeat_add. repeat rd. }
    intros n3 c3 Hc3 ->. lia. }
  case_bool_decide; [solve [repeat rd]|].
  case_bool_decide.
  { (* OBJECT ARRAY DUMP *)
    do 4 rd.
    eapply reads_bind.
    { apply (reads_times _ _ 8). repeat rd. }
    intros [] c1 _ ->. repeat rd. }
  case_bool_decide; [solve [repeat rd]|].
  apply reads_error.
Qed.

(** The loop over the sub-records, with at least one round more than there
    are bytes left: it does not panic, it fails only inside a sub-record (so
    only when [n] is positive), and when it ends, [n] is not positive, the
    bytes read are the decrease of [n], nothing is read when [n] was not
    positive, and otherwise the last sub-record began while [n] was still
    positive. *)
Lemma heap_dump_rounds_spec (rounds : nat) : ∀ n r,
  idSize r = 8 → remaining r < Z.of_nat rounds →
  match run (heap_dump_rounds rounds n) r with
  | Ok n' r' =>
      idSize r' = 8 ∧ n' <= 0 ∧ remaining r - remaining r' = n - n' ∧ (n <= 0 → r' = r) ∧
      (0 < n → ∃ k, 1 <= k <= remaining r - remaining r' ∧ 0 < n' + k)
  | Fails _ => 0 < n
  | Crashes _ => False
  end.
Proof.
  induction rounds as [|rounds IH]; intros n r Hr Hl.
  { unfold remaining in Hl. lia. }
  cbn [heap_dump_rounds]. case_bool_decide as Hn.
  2:{ cbn. split_and!; [done|lia|lia|done|lia]. }
  rewrite run_bind. pose proof (readHeapDumpSegment_size r Hr) as Hseg.
  destruct (run readHeapDumpSegment r) as [k r1| |]; [|lia|done].
  destruct Hseg as (Hr1 & Hle & -> & Hk).
  specialize (IH (n - (remaining r - remaining r1)) r1 Hr1 ltac:(lia)).
  destruct (run (heap_dump_rounds rounds _) r1) as [n' r'| |]; [|lia|done].
  destruct IH as (Hr' & Hn' & Hc & Hz & Hlast).
  split_and!; [done|lia|lia|lia|]. intros _.
  destruct (decide (0 < n - (remaining r - remaining r1))) as [Hpos|Hneg].
  - destruct (Hlast Hpos) as (k & Hk1 & Hk2). exists k. lia.
  - rewrite (Hz ltac:(lia)) in *. exists (remaining r - remaining r1). lia.
Qed.

Lemma heap_dump_rounds_enough (rounds1 rounds2 : nat) : ∀ n r,
  idSize r = 8 → remaining r < Z.of_nat rounds1 → remaining r < Z.of_nat rounds2 →
  run (heap_dump_rounds rounds1 n) r = run (heap_dump_rounds rounds2 n) r.
Proof.
  revert rounds2. induction rounds1 as [|rounds1 IH]; intros rounds2 n r Hr H1 H2.
  { unfold remaining in H1. lia. }
  destruct rounds2 as [|rounds2]; [unfold remaining in H2; lia|].
  cbn [heap_dump_rounds]. case_bool_decide; [|done].
  rewrite !run_bind. pose proof (readHeapDumpSegment_size r Hr) as Hseg.
  destruct (run readHeapDumpSegment r) as [k r1| |]; [|done..].
  destruct Hseg as (Hr1 & Hle & -> & Hk). apply IH; [done|lia|lia].
Qed.

Lemma begun_positive_cons n k ks :
  0 < n → begun_positive (n - k) ks → begun_positive n (k :: ks).
Proof.
  intros Hn H [|i] Hi; cbn [take sumZ]; [lia|].
  cbn [length] in Hi. specialize (H i ltac:(lia)). lia.
Qed.

Lemma begun_positive_tail n k ks :
  begun_positive n (k :: ks) → 0 < n ∧ begun_positive (n - k) ks.
Proof.
  intros H. split.
  - specialize (H 0%nat ltac:(cbn; lia)). cbn in H. lia.
  - intros i Hi. specialize (H (S i) ltac:(cbn; lia)). cbn [take sumZ] in H. lia.
Qed.

Lemma heap_dump_rounds_trace (rounds : nat) : ∀ n r,
  idSize r = 8 → remaining r < Z.of_nat rounds →
  match run (heap_dump_rounds rounds n) r with
  | Ok n' r' =>
      ∃ ks, sub_records r ks r' ∧ begun_positive n ks ∧ n' = n - sumZ ks
  | Fails e =>
      ∃ ks r1, sub_records r ks r1 ∧ begun_positive n ks ∧ 0 < n - sumZ ks ∧
               run readHeapDumpSegment r1 = Fails e
  | Crashes _ => False
  end.
Proof.
  induction rounds as [|rounds IH]; intros n r Hr Hl.
  { unfold remaining in Hl. lia. }
  cbn [heap_dump_rounds]. case_bool_decide as Hn.
  2:{ cbn. exists []. split; [constructor|]. split; [intros i Hi; cbn in Hi; lia|]. cbn. lia. }
  rewrite run_bind. pose proof (readHeapDumpSegment_size r Hr) as Hseg.
  destruct (run readHeapDumpSegment r) as [k r1|e|] eqn:E; [| |done].
  - destruct Hseg as (Hr1 & Hle & Hk & Hk1).
    specialize (IH (n - k) r1 Hr1 ltac:(lia)).
    destruct (run (heap_dump_rounds rounds (n - k)) r1) as [n' r'|e|]; [| |done].
    + destruct IH as (ks & Hs & Hb & ->). exists (k :: ks).
      split; [by econstructor|]. split; [apply begun_positive_cons; [lia|done]|].
      cbn [sumZ]. lia.
    + destruct IH as (ks & r2 & Hs & Hb & Hpos & Hf). exists (k :: ks), r2.
      split; [by econstructor|]. split; [apply begun_positive_cons; [lia|done]|].
      cbn [sumZ]. split; [lia|done].
  - exists [], r. split; [constructor|]. split; [intros i Hi; cbn in Hi; lia|]. cbn [sumZ].
    split; [lia|done].
Qed.

Lemma heap_dump_rounds_complete (r : reader) (ks : list Z) (r' : reader) :
  sub_records r ks r' →
  ∀ (rounds : nat) n, idSize r = 8 → remaining r < Z.of_nat rounds →
    begun_positive n ks → n - sumZ ks <= 0 →
    run (heap_dump_rounds rounds n) r = Ok (n - sumZ ks) r'.
Proof.
  induction 1 as [r|r k r1 ks r' Hk Hs IH]; intros rounds n Hr Hl Hb Hend.
  - cbn [sumZ] in *. destruct rounds; cbn [heap_dump_rounds];
      rewrite bool_decide_eq_false_2 by lia; cbn; f_equal; lia.
  - apply begun_positive_tail in Hb as [Hn Hb]. cbn [sumZ] in Hend.
    destruct rounds as [|rounds]; [unfold remaining in Hl; lia|].
    cbn [heap_dump_rounds]. rewrite bool_decide_eq_true_2 by lia.
    rewrite run_bind. pose proof (readHeapDumpSegment_size r Hr) as Hseg.
    rewrite Hk in Hseg |- *. destruct Hseg as (Hr1 & Hle & Hkc & Hk1).
    rewrite (IH rounds (n - k)) by (done || lia). cbn [sumZ]. f_equal. lia.
Qed.

Lemma byte_of_to_N z : Z.of_N (Byte.to_N (byte_of z)) = z `mod` 256.
Proof.
  unfold byte_of. pose proof (Z.mod_pos_bound z 256 ltac:(lia)) as Hb.
  destruct (Byte.of_N (Z.to_N (z `mod` 256))) as [b|] eqn:E; cbn.
  - apply Byte.to_of_N in E. rewrite E. lia.
  - apply Byte.of_N_None_iff in E. lia.
Qed.

Lemma BigEndian_snoc b x : BigEndian (b ++ [x]) = BigEndian b * 256 + Z.of_N (Byte.to_N x).
Proof. unfold BigEndian. by rewrite foldl_app. Qed.

Lemma BigEndian_be (k : nat) : ∀ z, 0 <= z < 256 ^ Z.of_nat k → BigEndian (be k z) = z.
Proof.
  induction k as [|k IH]; intros z Hz.
  - cbn in *. lia.
  - cbn [be]. rewrite BigEndian_snoc, byte_of_to_N, IH.
    + pose proof (Z.div_mod z 256 ltac:(lia)). lia.
    + rewrite Nat2Z.inj_succ, Z.pow_succ_r in Hz by lia.
      split; [apply Z.div_pos; lia|]. apply Z.div_lt_upper_bound; lia.
Qed.

Lemma length_be (k : nat) z : length (be k z) = k.
Proof. revert z. induction k as [|k IH]; intros z; cbn; [done|]. rewrite length_app, IH. cbn. lia. Qed.

Lemma run_ReadFull_app (n : nat) (b rest : list byte) (r : reader) :
  input r = b ++ rest → length b = n →
  run (ReadFull n) r = Ok b (set_input rest r).
Proof.
  intros Hi Hn. cbn. rewrite Hi. rewrite bool_decide_eq_true_2 by (rewrite length_app; lia).
  subst n. by rewrite take_app_length, drop_app_length.
Qed.

Lemma run_u4_be (z : Z) (rest : list byte) (r : reader) :
  input r = be 4 z ++ rest → 0 <= z < 2 ^ 32 →
  run u4 r = Ok z (set_input rest r).
Proof.
  intros Hi Hz. unfold u4. rewrite run_bind.
  rewrite (run_ReadFull_app 4 (be 4 z) rest) by (done || apply length_be).
  cbn [run mret dec_ret]. by rewrite (BigEndian_be 4).
Qed.

Lemma run_id_be (z : Z) (rest : list byte) (r : reader) :
  input r = be 8 z ++ rest → 0 <= z < 2 ^ 64 →
  run id r = Ok z (set_input rest r).
Proof.
  intros Hi Hz. unfold id, u8. rewrite run_bind.
  rewrite (run_ReadFull_app 8 (be 8 z) rest) by (done || apply length_be).
  cbn [run mret dec_ret]. by rewrite (BigEndian_be 8).
Qed.

Lemma run_read_frames (tbl : gmap Z frame) (fids : list Z) (fs : list frame) :
  Forall2 (λ fid f, 0 <= fid < 2 ^ 64 ∧ tbl !! fid = Some f) fids fs →
  ∀ r rest, frameByID r = tbl →
    input r = concat (be 8 <$> fids) ++ rest →
    run (read_frames (length fids)) r = Ok fs (set_input rest r).
Proof.
  induction 1 as [|fid f fids fs [Hfid Hf] HF IH]; intros r rest Htbl Hi.
  - cbn in *. rewrite <- Hi. by destruct r.
  - cbn [length read_frames]. rewrite run_bind.
    rewrite fmap_cons in Hi. cbn [concat] in Hi. rewrite <- app_assoc in Hi.
    rewrite (run_id_be fid _ r Hi Hfid). rewrite run_bind. cbn [run get].
    cbn [frameByID set_input]. rewrite Htbl, Hf. rewrite run_bind.
    rewrite (IH (set_input (concat (be 8 <$> fids) ++ rest) r) rest); done.
Qed.

(** [readTrace] on a well-formed STACK TRACE payload: whatever the table of
    traces holds, it returns with the trace stored at its serial. *)
Lemma readTrace_defined (r : reader) (n serial thread : Z) (fids : list Z)
    (fs : list frame) (rest : list byte) :
  0 <= serial < 2 ^ 32 → 0 <= thread < 2 ^ 32 → Z.of_nat (length fids) < 2 ^ 32 →
  Forall2 (λ fid f, 0 <= fid < 2 ^ 64 ∧ frameByID r !! fid = Some f) fids fs →
  input r = be 4 serial ++ be 4 thread ++ be 4 (Z.of_nat (length fids))
            ++ concat (be 8 <$> fids) ++ rest →
  run (readTrace n) r =
    Ok tt (set_traceBySerial (<[serial := mkTrace serial thread fs]> (traceBySerial r))
                             (set_input rest r)).
Proof.
  intros Hs Ht Hn HF Hi. unfold readTrace.
  rewrite run_bind, (run_u4_be serial _ r Hi Hs).
  rewrite run_bind, (run_u4_be thread (be 4 (Z.of_nat (length fids)) ++ _)) by done.
  rewrite run_bind, (run_u4_be (Z.of_nat (length fids)) (concat (be 8 <$> fids) ++ rest))
    by (done || lia).
  rewrite run_bind, Nat2Z.id.
  rewrite (run_read_frames (frameByID r) fids fs HF _ rest) by done.
  reflexivity.
Qed.

(** C3, as amended: a STACK TRACE record whose serial is already in the
    table of traces is accepted. When its frame ids are defined and its
    payload is whole, [readTrace] returns, the table then holds the new
    trace at that serial in place of the earlier one, and the other entries
    are unchanged. *)
Theorem duplicate_serial_replaces (r : reader) (n serial thread : Z) (fids : list Z)
    (fs : list frame) (rest : list byte) (earlier : trace) :
  traceBySerial r !! serial = Some earlier →
  0 <= serial < 2 ^ 32 → 0 <= thread < 2 ^ 32 → Z.of_nat (length fids) < 2 ^ 32 →
  Forall2 (λ fid f, 0 <= fid < 2 ^ 64 ∧ frameByID r !! fid = Some f) fids fs →
  input r = be 4 serial ++ be 4 thread ++ be 4 (Z.of_nat (length fids))
            ++ concat (be 8 <$> fids) ++ rest →
  ∃ r',
    run (readTrace n) r = Ok tt r' ∧
    input r' = rest ∧
    traceBySerial r' !! serial = Some (mkTrace serial thread fs) ∧
    ∀ s, s ≠ serial → traceBySerial r' !! s = traceBySerial r !! s.
Proof.
  intros _ Hs Ht Hn HF Hi.
  exists (set_traceBySerial (<[serial := mkTrace serial thread fs]> (traceBySerial r))
                            (set_input rest r)).
  split; [by apply (readTrace_defined r n serial thread fids fs rest)|].
  cbn. split; [done|]. split; [apply lookup_insert_eq|].
  intros s Hne. by apply lookup_insert_ne.
Qed.

Lemma duplicate_serial_replaces_witness :
  ∃ r',
    run (readTrace 12)
        (set_traceBySerial {[1 := mkTrace 1 7 []]}
           (newReader [x00; x00; x00; x01; x00; x00; x00; x09; x00; x00; x00; x00; x05]))
      = Ok tt r' ∧
    input r' = [x05] ∧
    traceBySerial r' !! 1 = Some (mkTrace 1 9 []) ∧
    ∀ s, s ≠ 1 →
      traceBySerial r' !! s =
      traceBySerial (set_traceBySerial {[1 := mkTrace 1 7 []]}
           (newReader [x00; x00; x00; x01; x00; x00; x00; x09; x00; x00; x00; x00; x05])) !! s.
Proof.
  apply (duplicate_serial_replaces _ 12 1 9 [] [] [x05] (mkTrace 1 7 []));
    [reflexivity|lia|lia|simpl; lia|constructor|reflexivity].
Defined.

(** C3, counterexample: a stream with two STACK TRACE records of serial 1
    (threads 7 and 9) is decoded without error, and the table holds the
    second. *)
Lemma duplicate_serial_is_accepted :
  ∃ r', readAll (newReader (header ++ trace_record x01 x07 ++ trace_record x01 x09))
          = Returns None (Some r') ∧
        traceBySerial r' !! 1 = Some (mkTrace 1 9 []).
Proof. eexists. split; vm_compute; reflexivity. Qed.

Lemma run_u1_byte (b : byte) (rest : list byte) (r : reader) :
  input r = b :: rest →
  run u1 r = Ok (Z.of_N (Byte.to_N b)) (set_input rest r).
Proof.
  intros Hi. unfold u1. rewrite run_bind.
  rewrite (run_ReadFull_app 1 [b] rest) by done. reflexivity.
Qed.

(** A HEAP DUMP SEGMENT record is its 9 bytes of header and the loop over
    its sub-records: [readRecord] does what the loop does on the rest of
    the stream, and nothing after it. *)
Lemma readRecord_heap_dump (r0 : reader) (ts n : Z) (rest : list byte) :
  0 <= ts < 2 ^ 32 → 0 <= n < 2 ^ 32 →
  input r0 = x1c :: be 4 ts ++ be 4 n ++ rest →
  run readRecord r0 =
    match run (heap_dump_loop n) (set_tags (incr 28 (tags r0)) (set_input rest r0)) with
    | Ok _ r' => Ok false r'
    | Fails e => Fails e
    | Crashes c => Crashes c
    end.
Proof.
  intros Hts Hn Hi. unfold readRecord.
  assert (length (input r0) ≠ 0%nat) as Hne by (rewrite Hi; cbn; lia).
  rewrite run_bind. cbn [run get]. rewrite bool_decide_eq_false_2 by done.
  rewrite run_bind, (run_u1_byte x1c _ r0 Hi).
  rewrite run_bind. cbn [run modify].
  rewrite run_bind, (run_u4_be ts (be 4 n ++ rest)) by done.
  rewrite run_bind, (run_u4_be n rest) by (done || lia).
  rewrite run_bind.
  change (Z.of_N (Byte.to_N x1c)) with 28.
  repeat (rewrite bool_decide_eq_false_2 by lia).
  rewrite bool_decide_eq_true_2 by done.
  rewrite run_bind.
  destruct (run (heap_dump_loop n) _) as [n' r'|e|c]; reflexivity.
Qed.

(** C4, as amended: the loop over the sub-records of a HEAP DUMP SEGMENT of
    declared length [n] reads whole sub-records while what is left of [n] is
    positive, and neither the loop nor the record has a check or an error
    of its own. The loop does not panic. When it ends, it has read
    sub-records [ks], each begun while what was left of [n] was positive;
    what is left is [n' = n - sum ks <= 0], the bytes read are [n - n'] (at
    least [n], and exactly [n] when [n' = 0]), nothing is read when [n] was
    not positive, and otherwise the last sub-record began while [n] was
    still positive. When it fails, [n] is positive and the error is the one
    of a call of [readHeapDumpSegment], made after sub-records [ks] were
    read, each begun while what was left was positive, and with what is
    left still positive. On every stream, whenever sub-records, each begun
    while what was left was positive, bring what is left to 0 or below, the
    loop ends there without error, by however much the last one
    overshoots. And [readRecord], on a record of tag 0x1c and length [n],
    ends as the loop does on what follows the header: with its error, or
    without error where the loop left the stream. *)
Theorem heap_dump_loop_spec (n : Z) (r : reader) :
  idSize r = 8 →
  match run (heap_dump_loop n) r with
  | Ok n' r' =>
      n' <= 0 ∧ remaining r - remaining r' = n - n' ∧ (n <= 0 → r' = r) ∧
      (0 < n → ∃ k, 1 <= k <= remaining r - remaining r' ∧ 0 < n' + k) ∧
      ∃ ks, sub_records r ks r' ∧ begun_positive n ks ∧ n' = n - sumZ ks
  | Fails e =>
      0 < n ∧
      ∃ ks r1, sub_records r ks r1 ∧ begun_positive n ks ∧ 0 < n - sumZ ks ∧
               run readHeapDumpSegment r1 = Fails e
  | Crashes _ => False
  end ∧
  (∀ ks r', sub_records r ks r' → begun_positive n ks → n - sumZ ks <= 0 →
     run (heap_dump_loop n) r = Ok (n - sumZ ks) r') ∧
  (∀ r0 ts, 0 <= ts < 2 ^ 32 → 0 <= n < 2 ^ 32 →
     input r0 = x1c :: be 4 ts ++ be 4 n ++ input r →
     r = set_tags (incr 28 (tags r0)) (set_input (input r) r0) →
     run readRecord r0 =
       match run (heap_dump_loop n) r with
       | Ok _ r' => Ok false r'
       | Fails e => Fails e
       | Crashes c => Crashes c
       end).
Proof.
  intros Hr. split_and!.
  - unfold heap_dump_loop. rewrite run_bind. cbn [run get].
    assert (Hl : remaining r < Z.of_nat (S (length (input r)))) by (unfold remaining; lia).
    pose proof (heap_dump_rounds_spec (S (length (input r))) n r Hr Hl) as H.
    pose proof (heap_dump_rounds_trace (S (length (input r))) n r Hr Hl) as Ht.
    destruct (run (heap_dump_rounds (S (length (input r))) n) r) as [n' r'|e|]; [| |done].
    + destruct H as (_ & H1 & H2 & H3 & H4). split_and!; done.
    + split; done.
  - intros ks r' Hs Hb Hend. unfold heap_dump_loop. rewrite run_bind. cbn [run get].
    apply heap_dump_rounds_complete; [done..|unfold remaining; lia|done|done].
  - intros r0 ts Hts Hn Hi Hr0.
    rewrite (readRecord_heap_dump r0 ts n (input r)) by done. by rewrite <- Hr0.
Qed.

Lemma heap_dump_loop_spec_witness :
  match run (heap_dump_loop 5)
            (set_tags (incr 28 ∅) (set_idSize 8 (newReader [xff; x00; x00; x00; x00; x00; x00; x00; x01; x2a]))) with
  | Ok n' r' =>
      n' <= 0 ∧
      remaining (set_tags (incr 28 ∅) (set_idSize 8 (newReader [xff; x00; x00; x00; x00; x00; x00; x00; x01; x2a])))
        - remaining r' = 5 - n' ∧
      (5 <= 0 → r' = (set_tags (incr 28 ∅) (set_idSize 8 (newReader [xff; x00; x00; x00; x00; x00; x00; x00; x01; x2a])))) ∧
      (0 < 5 → ∃ k,
         1 <= k <= remaining (set_tags (incr 28 ∅) (set_idSize 8 (newReader [xff; x00; x00; x00; x00; x00; x00; x00; x01; x2a])))
                   - remaining r' ∧ 0 < n' + k) ∧
      ∃ ks,
        sub_records (set_tags (incr 28 ∅) (set_idSize 8 (newReader [xff; x00; x00; x00; x00; x00; x00; x00; x01; x2a]))) ks r' ∧
        begun_positive 5 ks ∧ n' = 5 - sumZ ks
  | Fails e =>
      0 < 5 ∧
      ∃ ks r1,
        sub_records (set_tags (incr 28 ∅) (set_idSize 8 (newReader [xff; x00; x00; x00; x00; x00; x00; x00; x01; x2a]))) ks r1 ∧
        begun_positive 5 ks ∧ 0 < 5 - sumZ ks ∧ run readHeapDumpSegment r1 = Fails e
  | Crashes _ => False
  end ∧
  (∀ ks r',
     sub_records (set_tags (incr 28 ∅) (set_idSize 8 (newReader [xff; x00; x00; x00; x00; x00; x00; x00; x01; x2a]))) ks r' →
     begun_positive 5 ks → 5 - sumZ ks <= 0 →
     run (heap_dump_loop 5) (set_tags (incr 28 ∅) (set_idSize 8 (newReader [xff; x00; x00; x00; x00; x00; x00; x00; x01; x2a])))
       = Ok (5 - sumZ ks) r') ∧
  (∀ r0 ts, 0 <= ts < 2 ^ 32 → 0 <= 5 < 2 ^ 32 →
     input r0 = x1c :: be 4 ts ++ be 4 5
                ++ input (set_tags (incr 28 ∅) (set_idSize 8 (newReader [xff; x00; x00; x00; x00; x00; x00; x00; x01; x2a]))) →
     (set_tags (incr 28 ∅) (set_idSize 8 (newReader [xff; x00; x00; x00; x00; x00; x00; x00; x01; x2a])))
       = set_tags (incr 28 (tags r0))
           (set_input (input (set_tags (incr 28 ∅) (set_idSize 8 (newReader [xff; x00; x00; x00; x00; x00; x00; x00; x01; x2a])))) r0) →
     run readRecord r0 =
       match run (heap_dump_loop 5)
                 (set_tags (incr 28 ∅) (set_idSize 8 (newReader [xff; x00; x00; x00; x00; x00; x00; x00; x01; x2a]))) with
       | Ok _ r' => Ok false r'
       | Fails e => Fails e
       | Crashes c => Crashes c
       end).
Proof. apply (heap_dump_loop_spec 5). reflexivity. Defined.

(** C4, counterexample: a HEAP DUMP SEGMENT of declared length 5 holding a
    ROOT UNKNOWN sub-record of 9 bytes is decoded without error. *)
Lemma overshoot_is_accepted :
  ∃ r', readAll (newReader (header ++ [x1c; x00; x00; x00; x00; x00; x00; x00; x05]
                              ++ [xff; x00; x00; x00; x00; x00; x00; x00; x01]))
          = Returns None (Some r') ∧
        input r' = [] ∧ subTags r' !! 255 = Some 1.
Proof. eexists. split; [|split]; vm_compute; reflexivity. Qed.

(** C9, the code at the failing input: a STRING record of declared
    length 4, less than the 8 bytes of its id, makes [readAll] panic again
    with the slice-bounds panic of [r.scratch[:-4]] instead of returning an
    error. *)
Theorem short_string_record_crashes :
  readAll (newReader (header ++ [x01; x00; x00; x00; x00; x00; x00; x00; x04]
                        ++ [x00; x00; x00; x00; x00; x00; x00; x01]))
  = Repanics (SliceBoundsOutOfRange (-4) 8).
Proof. vm_compute. reflexivity. Qed.

Lemma reads_steps {A} (m : dec A) (P : A → Z → Prop) : reads m P → steps m P.
Proof. intros H r Hr. specialize (H r Hr). by destruct (run m r). Qed.

Lemma steps_bind {A B} (m : dec A) (k : A → dec B) (P : A → Z → Prop) (Q : B → Z → Prop) :
  steps m P →
  (∀ a c1, 0 <= c1 → P a c1 → steps (k a) (λ b c2, Q b (c1 + c2))) →
  steps (m ≫= k) Q.
Proof.
  intros Hm Hk r Hr. rewrite run_bind. specialize (Hm r Hr).
  destruct (run m r) as [a r'| |]; [|done..].
  destruct Hm as (Hr' & Hle & HP).
  specialize (Hk a (remaining r - remaining r') ltac:(lia) HP r' Hr').
  destruct (run (k a) r') as [b r''| |]; [|done..].
  destruct Hk as (Hr'' & Hle' & HQ). split_and!; [done|lia|].
  replace (remaining r - remaining r'') with (remaining r - remaining r' + (remaining r' - remaining r'')) by lia. done.
Qed.

Lemma steps_weaken {A} (m : dec A) (P Q : A → Z → Prop) :
  steps m P → (∀ a c, 0 <= c → P a c → Q a c) → steps m Q.
Proof.
  intros Hm HPQ r Hr. specialize (Hm r Hr). destruct (run m r) as [a r'| |]; [|done..].
  destruct Hm as (? & ? & ?). split_and!; [done..|]. apply HPQ; [lia|done].
Qed.

Lemma reads_any {A} (m : dec A) (P : A → Z → Prop) : reads m P → reads m any.
Proof. intros H. eapply reads_weaken; [exact H|done]. Qed.

Lemma steps_bytes (k : Z) : steps (bytes k) any.
Proof.
  unfold bytes. case_bool_decide.
  - case_bool_decide.
    + intros r Hr. cbn. exists k. done.
    + apply reads_steps. eapply reads_any, reads_ReadFull.
  - apply reads_steps. eapply reads_any, reads_ReadFull.
Qed.

Ltac rd_any :=
  first
    [ eapply reads_bind; [apply reads_id | intros ? ? _ [_ ?]]
    | eapply reads_bind; [apply reads_u4 | intros ? ? _ [_ ?]]
    | eapply reads_bind; [apply reads_u1 | intros ? ? _ [_ ?]]
    | eapply reads_bind; [apply reads_get with (Q := any); done | intros ? ? _ _]
    | eapply reads_bind; [apply reads_modify with (Q := any); [by intros []|done]
                         | intros ? ? _ _]
    | apply reads_modify; [by intros []|done]
    | apply reads_ret; done
    | apply reads_error ].

Lemma steps_readString (n : Z) : steps (readString n) any.
Proof.
  unfold readString.
  eapply steps_bind; [apply reads_steps, reads_id|intros ? ? _ _].
  eapply steps_bind; [apply reads_steps, reads_get with (Q := any); done|intros ? ? _ _].
  eapply steps_bind; [apply steps_bytes|intros ? ? _ _].
  apply reads_steps. rd_any.
Qed.

Lemma reads_readClass (n : Z) : reads (readClass n) any.
Proof.
  unfold readClass. do 5 rd_any. destruct (_ !! _); rd_any.
Qed.

Lemma reads_lookup_string sid e : reads (lookup_string sid e) any.
Proof. unfold lookup_string. rd_any. destruct (_ !! _); rd_any. Qed.

Lemma reads_readFrame (n : Z) : reads (readFrame n) any.
Proof.
  unfold readFrame. do 2 rd_any.
  eapply reads_bind; [apply reads_lookup_string|intros ? ? _ _]. rd_any.
  eapply reads_bind; [apply reads_lookup_string|intros ? ? _ _]. rd_any.
  eapply reads_bind.
  { case_bool_decide; [apply reads_lookup_string|apply reads_ret with (Q := any); done]. }
  intros ? ? _ _. do 2 rd_any. destruct (_ !! _); repeat rd_any.
Qed.

Lemma reads_read_frames (n : nat) : reads (read_frames n) any.
Proof.
  induction n as [|n IH]; cbn [read_frames]; [rd_any|].
  do 2 rd_any. destruct (_ !! _); [|rd_any].
  eapply reads_bind; [exact IH|intros ? ? _ _]. rd_any.
Qed.

Lemma reads_readTrace (n : Z) : reads (readTrace n) any.
Proof.
  unfold readTrace. do 3 rd_any.
  eapply reads_bind; [apply reads_read_frames|intros ? ? _ _]. rd_any.
Qed.

Lemma reads_heap_dump_loop (n : Z) : reads (heap_dump_loop n) any.
Proof.
  intros r Hr. unfold heap_dump_loop. rewrite run_bind. cbn [run get].
  pose proof (heap_dump_rounds_spec (S (length (input r))) n r Hr) as H.
  destruct (run (heap_dump_rounds (S (length (input r))) n) r) as [n' r'| |].
  - assert (Hl : remaining r < Z.of_nat (S (length (input r)))) by (unfold remaining; lia).
    destruct (H Hl) as (Hr' & Hn' & Hc & Hz & _).
    split_and!; [done| |done].
    destruct (decide (n <= 0)) as [Hn|Hn]; [by rewrite (Hz Hn)|lia].
  - done.
  - apply H. unfold remaining. lia.
Qed.

(** A record that is not the end of the stream reads at least its tag. *)
Lemma steps_readRecord : steps readRecord (λ done c, done = false → 1 <= c).
Proof.
  unfold readRecord.
  eapply steps_bind; [apply reads_steps, reads_get with (Q := any); done|intros l ? ? _].
  case_bool_decide; [by apply reads_steps, reads_ret|].
  eapply steps_bind; [apply reads_steps, reads_u1|intros tag ? _ [-> _]].
  eapply steps_bind.
  { apply reads_steps, reads_modify with (Q := any); [by intros []|done]. }
  intros ? ? ? _.
  eapply steps_bind; [apply reads_steps, reads_u4|intros ? ? _ [-> _]].
  eapply steps_bind; [apply reads_steps, reads_u4|intros n ? _ [-> Hn]].
  eapply steps_bind with (P := any).
  { repeat case_bool_decide.
    - apply steps_readString.
    - apply reads_steps, reads_readClass.
    - apply reads_steps, reads_readFrame.
    - apply reads_steps, reads_readTrace.
    - apply reads_steps. eapply reads_bind; [apply reads_heap_dump_loop|intros ? ? _ _].
      by apply reads_ret.
    - apply reads_steps. eapply reads_any, reads_ignore. done. }
  intros ? c Hc _. apply reads_steps, reads_ret. intros _. lia.
Qed.

Lemma read_records_enough (rounds1 rounds2 : nat) : ∀ r,
  idSize r = 8 → remaining r < Z.of_nat rounds1 → remaining r < Z.of_nat rounds2 →
  run (read_records rounds1) r = run (read_records rounds2) r.
Proof.
  revert rounds2. induction rounds1 as [|rounds1 IH]; intros rounds2 r Hr H1 H2.
  { unfold remaining in H1. lia. }
  destruct rounds2 as [|rounds2]; [unfold remaining in H2; lia|].
  cbn [read_records]. rewrite !run_bind. pose proof (steps_readRecord r Hr) as Hrec.
  destruct (run readRecord r) as [[|] r1| |]; [done| |done..].
  destruct Hrec as (Hr1 & Hle & Hc). specialize (Hc eq_refl). apply IH; [done|lia|lia].
Qed.

Lemma steps_read_records (rounds : nat) : steps (read_records rounds) any.
Proof.
  induction rounds as [|rounds IH]; cbn [read_records]; [by apply reads_steps, reads_ret|].
  eapply steps_bind; [apply steps_readRecord|intros [|] ? _ _].
  - by apply reads_steps, reads_ret.
  - eapply steps_weaken; [exact IH|done].
Qed.

Lemma readHeader_idSize r :
  match run readHeader r with
  | Ok _ r' => idSize r' = 8
  | Fails _ => True
  | Crashes _ => False
  end.
Proof.
  unfold readHeader. rewrite run_bind. cbn [run get].
  destruct (ReadString0 (input r)) as [[s rest]|]; [|done].
  rewrite run_bind. cbn [run modify]. case_bool_decide; [|done].
  rewrite run_bind. unfold u4 at 1. rewrite run_bind.
  cbn [run ReadFull]. case_bool_decide; [|done]. cbn [run mret dec_ret].
  case_bool_decide; [|done].
  rewrite run_bind. cbn [run modify]. rewrite run_bind.
  unfold u4 at 1. rewrite run_bind. cbn [run ReadFull]. case_bool_decide; [|done].
  cbn [run mret dec_ret]. rewrite run_bind.
  unfold u4 at 1. rewrite run_bind. cbn [run ReadFull]. case_bool_decide; [|done].
  cbn. done.
Qed.

(** The outcomes of [readAll] in the embedding, on every stream: nil with
    the reader, or an error without it, or a panic again, and then with no
    other panic than that of [r.scratch[:n]] with a negative [n]. The
    embedding puts no bound on memory: the allocation [make([]*frame, n)]
    of [readTrace], which the Go runtime answers with a fatal error (not a
    panic) when it cannot have [n] slots, always succeeds here. *)
Lemma readAll_outcomes (stream : list byte) :
  match readAll (newReader stream) with
  | Returns None (Some _) => True
  | Returns (Some _) None => True
  | Returns _ _ => False
  | Repanics p => short_slice p
  end.
Proof.
  unfold readAll. rewrite run_bind. pose proof (readHeader_idSize (newReader stream)) as Hh.
  destruct (run readHeader (newReader stream)) as [[] r1| |]; [|done..].
  rewrite run_bind. cbn [run get].
  pose proof (steps_read_records (S (length (input r1))) r1 Hh) as Hs.
  by destruct (run (read_records (S (length (input r1)))) r1).
Qed.

End HprofbinFacts.

(** ** top10 *)

Module Top10Facts.
Import Hprofbin.

Lemma parent_lt j : (0 < j)%nat → (parent j < j)%nat.
Proof. intros Hj. unfold parent. apply Nat.div_lt_upper_bound; lia. Qed.

Lemma parent_0 : parent 0 = 0%nat.
Proof. reflexivity. Qed.

Lemma parent_child c i :
  (0 < c)%nat → parent c = i → c = (2 * i + 1)%nat ∨ c = (2 * i + 1 + 1)%nat.
Proof.
  unfold parent. intros Hc <-.
  pose proof (Nat.div_mod_eq (c - 1) 2) as H.
  pose proof (Nat.mod_upper_bound (c - 1) 2 ltac:(lia)). lia.
Qed.

Lemma child_parent_1 i : parent (2 * i + 1) = i.
Proof.
  unfold parent. replace (2 * i + 1 - 1)%nat with (i * 2)%nat by lia.
  by rewrite Nat.div_mul.
Qed.

Lemma child_parent_2 i : parent (2 * i + 1 + 1) = i.
Proof.
  unfold parent. replace (2 * i + 1 + 1 - 1)%nat with (1 + i * 2)%nat by lia.
  rewrite Nat.div_add by lia. reflexivity.
Qed.

Lemma Swap_lookup h i j a b k :
  h !! i = Some a → h !! j = Some b →
  Swap h i j !! k =
    if decide (k = j) then Some a else if decide (k = i) then Some b else h !! k.
Proof.
  intros Hi Hj. unfold Swap. rewrite Hi. cbv beta iota. rewrite Hj. cbv beta iota.
  apply lookup_lt_Some in Hi as Hli. apply lookup_lt_Some in Hj as Hlj.
  destruct (decide (k = j)) as [->|Hkj].
  - rewrite list_lookup_insert_eq; [done|]. by rewrite length_insert.
  - rewrite list_lookup_insert_ne by done.
    destruct (decide (k = i)) as [->|Hki].
    + by rewrite list_lookup_insert_eq.
    + by rewrite list_lookup_insert_ne.
Qed.

Lemma Swap_length h i j : length (Swap h i j) = length h.
Proof.
  unfold Swap. destruct (h !! i), (h !! j); try done. by rewrite !length_insert.
Qed.

Lemma Swap_perm h i j : Swap h i j ≡ₚ h.
Proof.
  unfold Swap. destruct (h !! i) as [a|] eqn:Hi, (h !! j) as [b|] eqn:Hj; try done.
  by apply Permutation_insert_swap.
Qed.

Lemma Less_true h j i :
  Less h j i = true → ∃ a b, h !! j = Some a ∧ h !! i = Some b ∧ size a < size b.
Proof.
  unfold Less. destruct (h !! j) as [a|], (h !! i) as [b|]; try done.
  intros H. apply bool_decide_eq_true in H. eauto.
Qed.

Lemma Less_false h j i a b :
  Less h j i = false → h !! j = Some a → h !! i = Some b → size b <= size a.
Proof.
  unfold Less. intros H Hj Hi. rewrite Hj, Hi in H.
  apply bool_decide_eq_false in H. lia.
Qed.

Lemma up_heap (rounds : nat) : ∀ h j,
  (j ≤ rounds)%nat → up_inv h j →
  is_heap (up rounds h j) ∧ up rounds h j ≡ₚ h.
Proof.
  induction rounds as [|rounds IH]; intros h j Hr [Hinv Hgp].
  - assert (j = 0%nat) as -> by lia. cbn. split; [|done].
    intros k Hk. apply Hinv; lia.
  - cbn [up]. fold (parent j).
    destruct (bool_decide (parent j = j)) eqn:Ep; cbn [orb].
    { apply bool_decide_eq_true in Ep. split; [|done].
      assert (j = 0%nat) as -> by (pose proof (parent_lt j); lia).
      intros k Hk. apply Hinv; lia. }
    apply bool_decide_eq_false in Ep.
    assert (Hj : (0 < j)%nat) by (destruct j; [done|lia]).
    pose proof (parent_lt j Hj) as Hpj.
    destruct (Less h j (parent j)) eqn:EL; cbn [negb].
    2:{ split; [|done]. intros k Hk. destruct (decide (k = j)) as [->|Hne]; [|by apply Hinv].
        intros a b Ha Hb. by eapply Less_false. }
    destruct (Less_true _ _ _ EL) as (hj & hi & Hhj & Hhi & Hlt).
    set (i := parent j) in *.
    destruct (IH (Swap h i j) i) as [Hheap Hperm]; [lia| |].
    2:{ split; [done|]. by rewrite Hperm, Swap_perm. }
    split.
    + intros k Hk Hki a b.
      rewrite !(Swap_lookup h i j hi hj) by done.
      destruct (decide (k = j)) as [->|Hkj].
      * fold i. rewrite decide_False by lia. rewrite decide_True by done.
        intros [= <-] [= <-]. lia.
      * rewrite (decide_False (P := k = i)) by done.
        destruct (decide (parent k = j)) as [Epk|Epk].
        -- intros [= <-] Hb. eapply (Hgp Hj k Hk Epk); done.
        -- destruct (decide (parent k = i)) as [Epi|Epi].
           ++ intros [= <-] Hb. pose proof (Hinv k Hk Hkj hi b) as H.
              rewrite Epi in H. specialize (H Hhi Hb). lia.
           ++ intros Ha Hb. by eapply (Hinv k Hk Hkj).
    + intros Hi c Hc Epc a b.
      pose proof (parent_lt i Hi) as Hg.
      rewrite !(Swap_lookup h i j hi hj) by done.
      rewrite (decide_False (P := parent i = j)) by lia.
      rewrite (decide_False (P := parent i = i)) by lia.
      intros Ha.
      assert (Hgi : size a <= size hi).
      { eapply (Hinv i Hi ltac:(lia)); done. }
      destruct (decide (c = j)) as [->|Hcj]; [intros [= <-]; lia|].
      rewrite decide_False by (intros ->; lia).
      intros Hb. pose proof (Hinv c Hc Hcj hi b) as H. rewrite Epc in H.
      specialize (H Hhi Hb). lia.
Qed.

Lemma no_children_heap h i :
  down_inv h i → (length h ≤ 2 * i + 1)%nat → is_heap h.
Proof.
  intros [Hinv _] Hn k Hk. destruct (decide (parent k = i)) as [Ep|Ep]; [|by apply Hinv].
  intros a b _ Hb. apply lookup_lt_Some in Hb.
  destruct (parent_child k i Hk Ep); lia.
Qed.

Lemma down_heap (rounds : nat) : ∀ h i0 i,
  (length h ≤ rounds + i)%nat → down_inv h i →
  is_heap (down rounds h i0 i (length h)).1 ∧ (down rounds h i0 i (length h)).1 ≡ₚ h.
Proof.
  induction rounds as [|rounds IH]; intros h i0 i Hr Hinv.
  { cbn. split; [|done]. eapply no_children_heap; [done|lia]. }
  cbn [down]. case_bool_decide as Hn.
  { cbn. split; [|done]. by eapply no_children_heap. }
  set (j1 := (2 * i + 1)%nat) in *.
  set (j := if bool_decide (j1 + 1 < length h)%nat && Less h (j1 + 1) j1
            then (j1 + 1)%nat else j1).
  destruct (lookup_lt_is_Some_2 h i ltac:(lia)) as [hi Hhi].
  destruct (lookup_lt_is_Some_2 h j1 ltac:(lia)) as [h1 Hh1].
  (* [j] is a child of [i] that is not above the other *)
  assert (Hj : (j = j1 ∨ j = (j1 + 1)%nat) ∧ ∃ hj, h !! j = Some hj ∧
            ∀ c b, (0 < c)%nat → parent c = i → h !! c = Some b → size hj <= size b).
  { subst j. destruct (bool_decide (j1 + 1 < length h)%nat) eqn:E2; cbn [andb].
    - apply bool_decide_eq_true in E2.
      destruct (lookup_lt_is_Some_2 h (j1 + 1) E2) as [h2 Hh2].
      destruct (Less h (j1 + 1) j1) eqn:EL.
      + split; [by right|]. exists h2. split; [done|]. intros c b Hc Ep Hb.
        destruct (Less_true _ _ _ EL) as (a' & b' & Ha' & Hb' & Hlt).
        destruct (parent_child c i Hc Ep) as [->| ->]; fold j1 in Hb; simplify_eq; lia.
      + split; [by left|]. exists h1. split; [done|]. intros c b Hc Ep Hb.
        pose proof (Less_false _ _ _ h2 h1 EL Hh2 Hh1).
        destruct (parent_child c i Hc Ep) as [->| ->]; fold j1 in Hb; simplify_eq; lia.
    - apply bool_decide_eq_false in E2. split; [by left|]. exists h1. split; [done|].
      intros c b Hc Ep Hb. apply lookup_lt_Some in Hb as Hlt.
      destruct (parent_child c i Hc Ep) as [->| ->]; fold j1 in Hb, Hlt; [simplify_eq; lia|lia]. }
  clearbody j. destruct Hj as (Hjc & hj & Hhj & Hmin).
  assert (Hpj : parent j = i).
  { destruct Hjc as [->| ->]; subst j1; [apply child_parent_1|apply child_parent_2]. }
  assert (Hij : (i < j)%nat) by (destruct Hjc; lia).
  destruct Hinv as [Hinv Hgp].
  destruct (Less h j i) eqn:EL; cbn [negb].
  2:{ cbn. split; [|done]. intros k Hk.
      destruct (decide (parent k = i)) as [Ep|Ep]; [|by apply Hinv].
      intros a b Ha Hb. rewrite Ep, Hhi in Ha. injection Ha as <-.
      pose proof (Less_false _ _ _ hj hi EL Hhj Hhi). pose proof (Hmin k b Hk Ep Hb). lia. }
  destruct (Less_true _ _ _ EL) as (a' & b' & Ha' & Hb' & Hlt).
  rewrite Hhj in Ha'. rewrite Hhi in Hb'. injection Ha' as <-. injection Hb' as <-.
  destruct (IH (Swap h i j) i0 j) as [Hheap Hperm].
  { rewrite Swap_length. lia. }
  2:{ rewrite Swap_length in Hheap, Hperm. split; [done|]. by rewrite Hperm, Swap_perm. }
  split.
  - intros k Hk Hkj a b.
    rewrite !(Swap_lookup h i j hi hj) by done.
    pose proof (parent_lt k Hk) as Hpk.
    rewrite (decide_False (P := parent k = j)) by done.
    destruct (decide (parent k = i)) as [Epi|Epi].
    + intros [= <-]. destruct (decide (k = j)) as [->|Hne]; [intros [= <-]; lia|].
      rewrite decide_False by lia. intros Hb. by eapply Hmin.
    + intros Ha. destruct (decide (k = j)) as [->|Hne]; [done|].
      destruct (decide (k = i)) as [->|Hki].
      * intros [= <-]. assert (Hi : (0 < i)%nat) by done.
        eapply (Hgp Hi j ltac:(lia) Hpj); done.
      * intros Hb. by eapply (Hinv k Hk Epi).
  - intros _ c Hc Epc a b.
    rewrite !(Swap_lookup h i j hi hj) by done.
    rewrite Hpj. rewrite (decide_False (P := i = j)) by lia. rewrite decide_True by done.
    intros [= <-]. pose proof (parent_lt c Hc).
    rewrite decide_False by lia. rewrite decide_False by lia.
    intros Hb. eapply (Hinv c Hc ltac:(lia)); [|done]. by rewrite Epc.
Qed.

Lemma heap_min h m : is_heap h → h !! 0%nat = Some m →
  ∀ k a, h !! k = Some a → size m <= size a.
Proof.
  intros Hh H0 k. induction (lt_wf k) as [k _ IH]. intros a Ha.
  destruct (decide (k = 0%nat)) as [->|Hk]; [simplify_eq; lia|].
  pose proof (parent_lt k ltac:(lia)) as Hp.
  destruct (lookup_lt_is_Some_2 h (parent k)) as [b Hb].
  { apply lookup_lt_Some in Ha. lia. }
  pose proof (IH (parent k) Hp b Hb). pose proof (Hh k ltac:(lia) b a Hb Ha). lia.
Qed.

Lemma Push_heap h x : is_heap h → is_heap (Push h x) ∧ Push h x ≡ₚ h ++ [x].
Proof.
  intros Hh. unfold Push. apply up_heap.
  - rewrite length_app. cbn. lia.
  - split.
    + intros k Hk Hne a b Ha Hb. rewrite length_app in Hne. cbn [length] in Hne.
      apply lookup_lt_Some in Hb as Hlt. rewrite length_app in Hlt. cbn [length] in Hlt.
      pose proof (parent_lt k Hk).
      rewrite lookup_app_l in Ha, Hb by lia. by eapply Hh.
    + intros _ c Hc Ep a b _ Hb. apply lookup_lt_Some in Hb.
      rewrite length_app in Ep, Hb. cbn [length] in Ep, Hb.
      pose proof (parent_lt c Hc). lia.
Qed.

Lemma up_root rounds h : up rounds h 0 = h.
Proof. by destruct rounds. Qed.

Lemma Fix_root_heap h x :
  is_heap h → (0 < length h)%nat →
  is_heap (Fix (<[0%nat := x]> h) 0) ∧ Fix (<[0%nat := x]> h) 0 ≡ₚ <[0%nat := x]> h.
Proof.
  intros Hh Hl. unfold Fix.
  pose proof (down_heap (length (<[0%nat := x]> h)) (<[0%nat := x]> h) 0 0) as H.
  destruct (down _ _ 0 0 _) as [h' moved]. cbn in H.
  assert (is_heap h' ∧ h' ≡ₚ <[0%nat := x]> h) as [H1 H2].
  { apply H; [lia|]. split; [|lia].
    intros k Hk Hp a b. pose proof (parent_lt k Hk).
    rewrite !list_lookup_insert_ne by lia. by apply Hh. }
  destruct moved; [done|]. by rewrite up_root.
Qed.

Lemma heap_min_elem h m a : is_heap h → h !! 0%nat = Some m → a ∈ h → size m <= size a.
Proof.
  intros Hh H0 Ha. apply list_elem_of_lookup in Ha as [k Hk]. by eapply heap_min.
Qed.

Lemma top10_step_selection h seen ss :
  selection h seen → selection (top10_step h ss) (seen ++ [ss]).
Proof.
  intros (Hh & Hlen & rest & Hperm & Hord). unfold top10_step.
  assert (Hl : (length h + length rest = length seen)%nat).
  { by rewrite <- Hperm, length_app. }
  case_bool_decide as Hlt.
  - destruct (Push_heap h ss Hh) as [Hh' Hp'].
    assert (rest = []) as -> by (apply nil_length_inv; lia).
    split; [done|]. split.
    + rewrite Hp', !length_app. cbn [length] in *. lia.
    + exists []. split.
      * rewrite Hp', !app_nil_r. rewrite app_nil_r in Hperm. by rewrite Hperm.
      * intros a b _ Hb. by apply elem_of_nil in Hb.
  - destruct h as [|h0 t]; [cbn in Hlt; lia|]. cbn [lookup list_lookup].
    case_bool_decide as Hgt.
    + destruct (Fix_root_heap (h0 :: t) ss Hh ltac:(cbn; lia)) as [Hh' Hp'].
      cbn [insert list_insert] in Hh', Hp' |- *.
      split; [done|]. split.
      * rewrite Hp'. rewrite length_app. cbn [length] in *. lia.
      * exists (h0 :: rest). split.
        -- rewrite Hp'. rewrite <- Hperm. cbn.
           rewrite <- (Permutation_middle t rest h0).
           rewrite (Permutation_app_comm (h0 :: t ++ rest) [ss]). done.
        -- intros a b Ha Hb. rewrite Hp' in Ha.
           assert (Hh0 : ∀ a', a' ∈ h0 :: t → size h0 <= size a').
           { intros a' Ha'. by eapply (heap_min_elem (h0 :: t) h0). }
           assert (Hb0 : size b <= size h0).
           { apply elem_of_cons in Hb as [->|Hb]; [lia|].
             apply Hord; [set_solver|done]. }
           apply elem_of_cons in Ha as [->|Ha]; [lia|].
           specialize (Hh0 a ltac:(set_solver)). lia.
    + split; [done|]. split.
      * rewrite length_app. cbn [length] in *. lia.
      * exists (ss :: rest). split.
        -- rewrite <- Hperm. rewrite (Permutation_app_comm ((h0 :: t) ++ rest) [ss]).
           by rewrite <- (Permutation_middle (h0 :: t) rest ss).
        -- intros a b Ha Hb.
           pose proof (heap_min_elem (h0 :: t) h0 a Hh eq_refl Ha).
           apply elem_of_cons in Hb as [->|Hb]; [lia|]. by apply Hord.
Qed.

Lemma top10_loop_selection m : ∀ h seen,
  selection h seen → selection (foldl top10_step h m) (seen ++ m).
Proof.
  induction m as [|ss m IH]; intros h seen Hs; cbn [foldl].
  - by rewrite app_nil_r.
  - replace (seen ++ ss :: m) with ((seen ++ [ss]) ++ m) by by rewrite <- app_assoc.
    apply IH. by apply top10_step_selection.
Qed.

Lemma swap_ends_perm count : ∀ i h, swap_ends count i h ≡ₚ h.
Proof.
  induction count as [|count IH]; intros i h; cbn [swap_ends]; [done|].
  by rewrite IH, Swap_perm.
Qed.

(** The rounds given to [up] and [down] are enough: with more rounds they
    return the same. *)
Lemma up_rounds_enough (rounds1 rounds2 : nat) : ∀ h j,
  (j ≤ rounds1)%nat → (j ≤ rounds2)%nat → up rounds1 h j = up rounds2 h j.
Proof.
  revert rounds2. induction rounds1 as [|rounds1 IH]; intros rounds2 h j H1 H2.
  { assert (j = 0%nat) as -> by lia. by rewrite !up_root. }
  destruct rounds2 as [|rounds2].
  { assert (j = 0%nat) as -> by lia. by rewrite !up_root. }
  cbn [up]. fold (parent j). case_bool_decide as Ep; cbn [orb]; [done|].
  destruct (negb (Less h j (parent j))); [done|].
  assert (Hj : (0 < j)%nat) by (destruct j; [done|lia]).
  pose proof (parent_lt j Hj). apply IH; lia.
Qed.

Lemma down_rounds_enough (rounds1 rounds2 : nat) : ∀ h i0 i n,
  (n ≤ rounds1 + i)%nat → (n ≤ rounds2 + i)%nat →
  down rounds1 h i0 i n = down rounds2 h i0 i n.
Proof.
  revert rounds2. induction rounds1 as [|rounds1 IH]; intros rounds2 h i0 i n H1 H2.
  { destruct rounds2 as [|rounds2]; cbn [down]; [done|].
    rewrite (bool_decide_eq_true_2 (n ≤ 2 * i + 1)%nat) by lia. done. }
  destruct rounds2 as [|rounds2]; cbn [down].
  { rewrite (bool_decide_eq_true_2 (n ≤ 2 * i + 1)%nat) by lia. done. }
  destruct (bool_decide (n ≤ 2 * i + 1)%nat); [done|].
  destruct (negb (Less h _ i)); [done|].
  apply IH; destruct (_ && _); lia.
Qed.

(** X2: what [top10] returns, for the pairs [m] of the map in the order of
    the visit: 10 of them (all when there are fewer), and no pair left out is
    larger than a pair returned; so the list returned is, up to its order
    and to the choice among pairs of equal size, the first 10 of the pairs
    sorted by size, descending. *)
Lemma top10_selects (m : list serialSize) :
  length (top10 m) = (10 `min` length m)%nat ∧
  ∃ rest, top10 m ++ rest ≡ₚ m ∧ ∀ a b, a ∈ top10 m → b ∈ rest → size b <= size a.
Proof.
  unfold top10.
  destruct (top10_loop_selection m [] []) as (Hh & Hlen & rest & Hperm & Hord).
  { split; [by intros j Hj a b Ha|]. split; [done|]. exists []. split; [done|].
    intros a b Ha. by apply elem_of_nil in Ha. }
  cbn [app] in *.
  split; [by rewrite swap_ends_perm|].
  exists rest. split; [by rewrite swap_ends_perm|].
  intros a b Ha Hb. rewrite swap_ends_perm in Ha. by apply Hord.
Qed.

(** C5, the code at the failing input: for the map {1: 1, 2: 3, 3: 2}
    visited in the order 1, 2, 3, the heap array is [1; 3; 2] and [top10]
    returns its reversal, with the sizes 2, 3, 1: the three pairs are the
    right ones, but they are not in descending order of size, as sorting
    them and taking the first 10 gives them. *)
Theorem top10_not_descending :
  top10 [mkSS 1 1; mkSS 2 3; mkSS 3 2] = [mkSS 3 2; mkSS 2 3; mkSS 1 1] ∧
  take 10 (merge_sorter serialSize (λ a b, bool_decide (size b < size a))
             [mkSS 1 1; mkSS 2 3; mkSS 3 2])
    = [mkSS 2 3; mkSS 3 2; mkSS 1 1].
Proof. split; vm_compute; reflexivity. Qed.

End Top10Facts.

(** ** The decoder, record by record *)

Module DecoderFacts.
Import Hprofbin HprofbinFacts.

Lemma run_bytes_app (k : Z) (b rest : list byte) (r : reader) :
  input r = b ++ rest → Z.of_nat (length b) = k →
  run (bytes k) r = Ok b (set_input rest r).
Proof.
  intros Hi Hk. unfold bytes.
  rewrite (bool_decide_eq_false_2 (k < 0)) by lia.
  destruct (bool_decide (k <= 8)); apply run_ReadFull_app; (done || lia).
Qed.

Lemma run_ignore_app (k : Z) (b rest : list byte) (r : reader) :
  input r = b ++ rest → Z.of_nat (length b) = k →
  run (ignore k) r = Ok tt (set_input rest r).
Proof.
  intros Hi Hk. cbn. rewrite Hi, length_app.
  rewrite bool_decide_eq_true_2 by lia.
  replace (Z.to_nat k) with (length b) by lia. by rewrite drop_app_length.
Qed.

(** X3: a STRING record whose declared length [n] is the 8 bytes of its id
    plus the length of its text is read whole, and the table of strings
    then holds the text at the id (in place of an earlier text, if any). *)
Theorem readString_stores (r : reader) (n sid : Z) (text rest : list byte) :
  idSize r = 8 → 0 <= sid < 2 ^ 64 → n = 8 + Z.of_nat (length text) →
  input r = be 8 sid ++ text ++ rest →
  run (readString n) r = Ok tt (set_strings (<[sid := text]> (strings r)) (set_input rest r)).
Proof.
  intros Hsz Hsid Hn Hi. unfold readString.
  rewrite run_bind, (run_id_be sid _ r Hi Hsid).
  rewrite run_bind. cbn [run get set_input idSize]. rewrite Hsz.
  rewrite run_bind, (run_bytes_app (n - 8) text rest) by (done || lia).
  reflexivity.
Qed.

Lemma readString_stores_witness :
  run (readString 10) (set_idSize 8 (newReader (be 8 5 ++ [x68; x69] ++ [x2a])))
  = Ok tt (set_strings
             (<[5 := [x68; x69]]> (strings (set_idSize 8 (newReader (be 8 5 ++ [x68; x69] ++ [x2a])))))
             (set_input [x2a] (set_idSize 8 (newReader (be 8 5 ++ [x68; x69] ++ [x2a]))))).
Proof. apply (readString_stores _ 10 5 [x68; x69] [x2a]); [reflexivity|lia|reflexivity|reflexivity]. Defined.

(** X4: a LOAD CLASS record is read whole (24 bytes). When its name id is
    in the table of strings the class is stored both at its id and at its
    serial, with the name looked up; when it is not, the decode fails with
    the error that cites the name id, and no table has changed. *)
Theorem readClass_registers (r : reader) (n serial cid st nameID : Z) (rest : list byte) :
  0 <= serial < 2 ^ 32 → 0 <= cid < 2 ^ 64 → 0 <= st < 2 ^ 32 → 0 <= nameID < 2 ^ 64 →
  input r = be 4 serial ++ be 8 cid ++ be 4 st ++ be 8 nameID ++ rest →
  run (readClass n) r =
    match strings r !! nameID with
    | Some name =>
        Ok tt (set_classes (<[cid := mkClass serial cid st name]> (classByID r))
                           (<[serial := mkClass serial cid st name]> (classBySerial r))
                           (set_input rest r))
    | None => Fails (ClassUnknownName nameID)
    end.
Proof.
  intros Hs Hc Ht Hn Hi. unfold readClass.
  rewrite run_bind, (run_u4_be serial _ r Hi Hs).
  rewrite run_bind, (run_id_be cid (be 4 st ++ be 8 nameID ++ rest)) by done.
  rewrite run_bind, (run_u4_be st (be 8 nameID ++ rest)) by done.
  rewrite run_bind, (run_id_be nameID rest) by done.
  rewrite run_bind. cbn [run get set_input strings].
  by destruct (strings r !! nameID).
Qed.

Lemma readClass_registers_witness :
  run (readClass 24) (newReader (be 4 1 ++ be 8 9 ++ be 4 0 ++ be 8 2 ++ []))
  = match strings (newReader (be 4 1 ++ be 8 9 ++ be 4 0 ++ be 8 2 ++ [])) !! 2 with
    | Some name =>
        Ok tt (set_classes
                 (<[9 := mkClass 1 9 0 name]>
                    (classByID (newReader (be 4 1 ++ be 8 9 ++ be 4 0 ++ be 8 2 ++ []))))
                 (<[1 := mkClass 1 9 0 name]>
                    (classBySerial (newReader (be 4 1 ++ be 8 9 ++ be 4 0 ++ be 8 2 ++ []))))
                 (set_input [] (newReader (be 4 1 ++ be 8 9 ++ be 4 0 ++ be 8 2 ++ []))))
    | None => Fails (ClassUnknownName 2)
    end.
Proof. apply (readClass_registers _ 24 1 9 0 2 []); [lia|lia|lia|lia|reflexivity]. Defined.

(** X5: a STACK FRAME record whose file-name id is 0 is stored with the
    file name "<unknown>", whatever the table of strings holds at 0; the
    names of the method and of its signature, and the class, are looked up. *)
Theorem readFrame_unknown_file (r : reader) (n fid mn ms cs line : Z)
    (name sig : list byte) (c : class) (rest : list byte) :
  0 <= fid < 2 ^ 64 → 0 <= mn < 2 ^ 64 → 0 <= ms < 2 ^ 64 →
  0 <= cs < 2 ^ 32 → 0 <= line < 2 ^ 32 →
  strings r !! mn = Some name → strings r !! ms = Some sig →
  classBySerial r !! cs = Some c →
  input r = be 8 fid ++ be 8 mn ++ be 8 ms ++ be 8 0 ++ be 4 cs ++ be 4 line ++ rest →
  run (readFrame n) r =
    Ok tt (set_frameByID (<[fid := mkFrame fid name sig unknownFile c line]> (frameByID r))
                         (set_input rest r)).
Proof.
  intros Hf Hmn Hms Hcs Hl Hname Hsig Hc Hi. unfold readFrame.
  rewrite run_bind, (run_id_be fid _ r Hi Hf).
  rewrite run_bind, (run_id_be mn (be 8 ms ++ be 8 0 ++ be 4 cs ++ be 4 line ++ rest)) by done.
  rewrite run_bind. unfold lookup_string at 1. rewrite run_bind.
  cbn [run get set_input strings]. rewrite Hname. cbn [run mret dec_ret].
  rewrite run_bind, (run_id_be ms (be 8 0 ++ be 4 cs ++ be 4 line ++ rest)) by done.
  rewrite run_bind. unfold lookup_string at 1. rewrite run_bind.
  cbn [run get set_input strings]. rewrite Hsig. cbn [run mret dec_ret].
  rewrite run_bind, (run_id_be 0 (be 4 cs ++ be 4 line ++ rest)) by (done || lia).
  rewrite run_bind. rewrite (bool_decide_eq_false_2 (0 > 0)) by lia.
  cbn [run mret dec_ret].
  rewrite run_bind, (run_u4_be cs (be 4 line ++ rest)) by done.
  rewrite run_bind. cbn [run get set_input classBySerial]. rewrite Hc.
  rewrite run_bind, (run_u4_be line rest) by done.
  reflexivity.
Qed.

Lemma readFrame_unknown_file_witness :
  run (readFrame 40) frame_example
  = Ok tt (set_frameByID
             (<[4 := mkFrame 4 [x6d] [x73] unknownFile (mkClass 3 9 0 [x43]) 17]>
                (frameByID frame_example))
             (set_input [] frame_example)).
Proof.
  apply (readFrame_unknown_file frame_example 40 4 1 2 3 17 [x6d] [x73] (mkClass 3 9 0 [x43]) []);
    [lia|lia|lia|lia|lia|reflexivity|reflexivity|reflexivity|reflexivity].
Defined.

Lemma run_read_frames_unknown (tbl : gmap Z frame) (known : list Z) (fs : list frame) :
  Forall2 (λ fid f, 0 <= fid < 2 ^ 64 ∧ tbl !! fid = Some f) known fs →
  ∀ (more : nat) r bad rest, frameByID r = tbl →
    0 <= bad < 2 ^ 64 → tbl !! bad = None →
    input r = concat (be 8 <$> known) ++ be 8 bad ++ rest →
    run (read_frames (length known + S more)) r = Fails (TraceUnknownFrame bad).
Proof.
  induction 1 as [|fid f fids fs [Hfid Hf] HF IH]; intros more r bad rest Htbl Hb Hbad Hi.
  - cbn [length Nat.add read_frames]. cbn [fmap list_fmap concat app] in Hi.
    rewrite run_bind, (run_id_be bad rest r Hi Hb).
    rewrite run_bind. cbn [run get set_input frameByID]. by rewrite Htbl, Hbad.
  - cbn [length Nat.add read_frames]. rewrite run_bind.
    rewrite fmap_cons in Hi. cbn [concat] in Hi. rewrite <- app_assoc in Hi.
    rewrite (run_id_be fid _ r Hi Hfid). rewrite run_bind. cbn [run get].
    cbn [frameByID set_input]. rewrite Htbl, Hf. rewrite run_bind.
    by rewrite (IH more (set_input (concat (be 8 <$> fids) ++ be 8 bad ++ rest) r) bad rest).
Qed.

(** X6: a STACK TRACE record that lists, after frame ids that are defined,
    a frame id that is not in the table of frames makes the decode fail with
    the error that cites that id; the frame ids after it are not read and no
    trace is stored. *)
Theorem readTrace_unknown_frame (r : reader) (n serial thread count bad : Z)
    (known : list Z) (fs : list frame) (rest : list byte) :
  0 <= serial < 2 ^ 32 → 0 <= thread < 2 ^ 32 →
  Z.of_nat (length known) < count < 2 ^ 32 →
  Forall2 (λ fid f, 0 <= fid < 2 ^ 64 ∧ frameByID r !! fid = Some f) known fs →
  0 <= bad < 2 ^ 64 → frameByID r !! bad = None →
  input r = be 4 serial ++ be 4 thread ++ be 4 count
            ++ concat (be 8 <$> known) ++ be 8 bad ++ rest →
  run (readTrace n) r = Fails (TraceUnknownFrame bad).
Proof.
  intros Hs Ht Hn HF Hb Hbad Hi. unfold readTrace.
  rewrite run_bind, (run_u4_be serial _ r Hi Hs).
  rewrite run_bind, (run_u4_be thread (be 4 count ++ _)) by done.
  rewrite run_bind, (run_u4_be count (concat (be 8 <$> known) ++ be 8 bad ++ rest))
    by (done || lia).
  rewrite run_bind.
  replace (Z.to_nat count) with (length known + S (Z.to_nat count - length known - 1))%nat by lia.
  by rewrite (run_read_frames_unknown (frameByID r) known fs HF _ _ bad rest).
Qed.

Lemma readTrace_unknown_frame_witness :
  run (readTrace 28) (newReader (be 4 1 ++ be 4 2 ++ be 4 2 ++ [] ++ be 8 7 ++ be 8 8))
  = Fails (TraceUnknownFrame 7).
Proof.
  apply (readTrace_unknown_frame _ 28 1 2 2 7 [] [] (be 8 8));
    [lia|lia|simpl; lia|constructor|lia|reflexivity|reflexivity].
Defined.

(** X7: a record whose tag is not one of the five that are decoded (STRING,
    LOAD CLASS, STACK FRAME, STACK TRACE, HEAP DUMP SEGMENT) is passed over:
    when its [n] bytes are there, exactly the 9 bytes of its header and
    those [n] bytes are read, the tag is counted and nothing else of the
    reader changes. *)
Theorem unknown_tag_is_skipped (r : reader) (tag : byte) (ts n : Z) (payload rest : list byte) :
  Z.of_N (Byte.to_N tag) ∉ [1; 2; 4; 5; 28] →
  0 <= ts < 2 ^ 32 → n < 2 ^ 32 → Z.of_nat (length payload) = n →
  input r = tag :: be 4 ts ++ be 4 n ++ payload ++ rest →
  run readRecord r =
    Ok false (set_tags (incr (Z.of_N (Byte.to_N tag)) (tags r)) (set_input rest r)).
Proof.
  intros Htag Hts Hn Hlen Hi. unfold readRecord.
  assert (length (input r) ≠ 0%nat) as Hne by (rewrite Hi; cbn; lia).
  rewrite run_bind. cbn [run get]. rewrite bool_decide_eq_false_2 by done.
  rewrite run_bind, (run_u1_byte tag _ r Hi).
  rewrite run_bind. cbn [run modify].
  rewrite run_bind, (run_u4_be ts (be 4 n ++ payload ++ rest)) by done.
  rewrite run_bind, (run_u4_be n (payload ++ rest)) by (done || lia).
  rewrite run_bind.
  rewrite !elem_of_cons, elem_of_nil in Htag.
  repeat (rewrite bool_decide_eq_false_2 by tauto).
  rewrite (run_ignore_app n payload rest) by done.
  reflexivity.
Qed.

Lemma unknown_tag_is_skipped_witness :
  run readRecord (newReader (x07 :: be 4 0 ++ be 4 2 ++ [x01; x02] ++ [x2a]))
  = Ok false
      (set_tags (incr (Z.of_N (Byte.to_N x07))
                      (tags (newReader (x07 :: be 4 0 ++ be 4 2 ++ [x01; x02] ++ [x2a]))))
                (set_input [x2a] (newReader (x07 :: be 4 0 ++ be 4 2 ++ [x01; x02] ++ [x2a])))).
Proof.
  apply (unknown_tag_is_skipped _ x07 0 2 [x01; x02] [x2a]);
    [by compute_done|lia|lia|reflexivity|reflexivity].
Defined.

(** X8: when fewer than its [n] bytes are left, a record of such a tag makes
    the decode fail with io.EOF, the error of io.CopyN, and not with
    io.ErrUnexpectedEOF. *)
Theorem unknown_tag_short_payload (r : reader) (tag : byte) (ts n : Z) (payload : list byte) :
  Z.of_N (Byte.to_N tag) ∉ [1; 2; 4; 5; 28] →
  0 <= ts < 2 ^ 32 → Z.of_nat (length payload) < n < 2 ^ 32 →
  input r = tag :: be 4 ts ++ be 4 n ++ payload →
  run readRecord r = Fails EOF.
Proof.
  intros Htag Hts Hn Hi. unfold readRecord.
  assert (length (input r) ≠ 0%nat) as Hne by (rewrite Hi; cbn; lia).
  rewrite run_bind. cbn [run get]. rewrite bool_decide_eq_false_2 by done.
  rewrite run_bind, (run_u1_byte tag _ r Hi).
  rewrite run_bind. cbn [run modify].
  rewrite run_bind, (run_u4_be ts (be 4 n ++ payload)) by done.
  rewrite run_bind, (run_u4_be n payload) by (done || lia).
  rewrite run_bind.
  rewrite !elem_of_cons, elem_of_nil in Htag.
  repeat (rewrite bool_decide_eq_false_2 by tauto).
  cbn. rewrite bool_decide_eq_false_2 by lia. done.
Qed.

Lemma unknown_tag_short_payload_witness :
  run readRecord (newReader (x07 :: be 4 0 ++ be 4 2 ++ [x01])) = Fails EOF.
Proof.
  apply (unknown_tag_short_payload _ x07 0 2 [x01]);
    [by compute_done|lia|simpl; lia|reflexivity].
Defined.

Lemma ReadString0_magic rest : ReadString0 (magic ++ rest) = Some (magic, rest).
Proof. reflexivity. Qed.

(** X9: after the magic string, [readHeader] accepts the id size 8 only:
    with 8 it reads the 8 bytes of the timestamp and sets the id size; with
    any other value it fails with the error that cites the value. *)
Theorem readHeader_id_size (r : reader) (sz : Z) (ts rest : list byte) :
  0 <= sz < 2 ^ 32 → length ts = 8%nat →
  input r = magic ++ be 4 sz ++ ts ++ rest →
  run readHeader r =
    if bool_decide (sz = 8) then Ok tt (set_idSize 8 (set_input rest r))
    else Fails (BadIdSize sz).
Proof.
  intros Hsz Hts Hi. unfold readHeader.
  rewrite run_bind. cbn [run get]. rewrite Hi, ReadString0_magic.
  rewrite run_bind. cbn [run modify].
  rewrite bool_decide_eq_true_2 by done.
  rewrite run_bind, (run_u4_be sz (ts ++ rest)) by done.
  case_bool_decide as Hz; [|done]. subst sz.
  rewrite run_bind. cbn [run modify].
  by destruct ts as [|a [|b [|c [|d [|e [|f [|g [|h [|]]]]]]]]].
Qed.

Lemma readHeader_id_size_witness :
  run readHeader (newReader (magic ++ be 4 4 ++ be 8 0 ++ []))
  = if bool_decide (4 = 8)
    then Ok tt (set_idSize 8 (set_input [] (newReader (magic ++ be 4 4 ++ be 8 0 ++ []))))
    else Fails (BadIdSize 4).
Proof. apply (readHeader_id_size _ 4 (be 8 0) []); [lia|reflexivity|reflexivity]. Defined.

Lemma ReadString0_split (s rest : list byte) :
  x00 ∉ s → ReadString0 (s ++ x00 :: rest) = Some (s ++ [x00], rest).
Proof.
  induction s as [|b s IH]; intros Hs; cbn [app ReadString0].
  - by rewrite bool_decide_eq_true_2.
  - rewrite not_elem_of_cons in Hs. destruct Hs as [Hb Hs].
    rewrite bool_decide_eq_false_2 by done. by rewrite IH.
Qed.

(** X10: a stream whose first bytes through the first 0 byte are not the
    magic string makes [readHeader] fail with the error that cites those
    bytes, whatever follows. *)
Theorem readHeader_bad_magic (r : reader) (s rest : list byte) :
  x00 ∉ s → s ++ [x00] ≠ magic →
  input r = s ++ x00 :: rest →
  run readHeader r = Fails (BadHeaderString (s ++ [x00])).
Proof.
  intros Hs Hne Hi. unfold readHeader.
  rewrite run_bind. cbn [run get]. rewrite Hi, ReadString0_split by done.
  rewrite run_bind. cbn [run modify]. by rewrite bool_decide_eq_false_2.
Qed.

Lemma readHeader_bad_magic_witness :
  run readHeader (newReader ([x4a; x41] ++ x00 :: [x08]))
  = Fails (BadHeaderString ([x4a; x41] ++ [x00])).
Proof.
  apply (readHeader_bad_magic _ [x4a; x41] [x08]); [by compute_done|done|reflexivity].
Defined.

(** X11: with ids of 8 bytes, the count that [readHeapDumpSegment] returns
    is the number of bytes it has read, and is at least the byte of the
    sub-tag: the loop over a segment makes progress in every round. *)
Theorem readHeapDumpSegment_counts_bytes (r r' : reader) (n : Z) :
  idSize r = 8 → run readHeapDumpSegment r = Ok n r' →
  1 <= n ∧ remaining r - remaining r' = n.
Proof.
  intros Hr Hrun. pose proof (readHeapDumpSegment_size r Hr) as H.
  rewrite Hrun in H. destruct H as (_ & _ & H). cbv beta in H. lia.
Qed.

Lemma readHeapDumpSegment_counts_bytes_witness :
  1 <= 9 ∧
  remaining (set_idSize 8 (newReader (xff :: be 8 1)))
  - remaining (set_subTags {[255 := 1]} (set_input [] (set_idSize 8 (newReader (xff :: be 8 1))))) = 9.
Proof.
  apply (readHeapDumpSegment_counts_bytes
           (set_idSize 8 (newReader (xff :: be 8 1)))
           (set_subTags {[255 := 1]} (set_input [] (set_idSize 8 (newReader (xff :: be 8 1)))))
           9); [reflexivity|vm_compute; reflexivity].
Defined.

Lemma run_times_id (ids : list Z) : ∀ (r : reader) (rest : list byte),
  Forall (λ z, 0 <= z < 2 ^ 64) ids →
  input r = concat (be 8 <$> ids) ++ rest →
  run (times (length ids) (_ ← id; mret tt)) r = Ok tt (set_input rest r).
Proof.
  induction ids as [|z ids IH]; intros r rest Hids Hi.
  - cbn in *. rewrite <- Hi. by destruct r.
  - apply Forall_cons in Hids as [Hz Hids].
    cbn [length times]. rewrite fmap_cons in Hi. cbn [concat] in Hi.
    rewrite <- app_assoc in Hi.
    rewrite !run_bind, (run_id_be z _ r Hi Hz). cbn [run mret dec_ret].
    by rewrite (IH (set_input (concat (be 8 <$> ids) ++ rest) r) rest).
Qed.

(** X12: an INSTANCE DUMP sub-record with [nn] bytes of field values is
    read whole, 25 + [nn] bytes, which is the count returned; [nn] + 16 is
    added to the total and to the size of its trace serial, and 16 to the
    overhead of instances. *)
Theorem instance_dump_accounted (r : reader) (oid ts cid nn : Z) (fields rest : list byte) :
  idSize r = 8 →
  0 <= oid < 2 ^ 64 → 0 <= ts < 2 ^ 32 → 0 <= cid < 2 ^ 64 → nn < 2 ^ 32 →
  Z.of_nat (length fields) = nn →
  input r = x21 :: be 8 oid ++ be 4 ts ++ be 8 cid ++ be 4 nn ++ fields ++ rest →
  run readHeapDumpSegment r =
    Ok (25 + nn)
       (account Instance ts (nn + 16) 16
          (set_subTags (incr 33 (subTags r)) (set_input rest r))).
Proof.
  intros Hsz Ho Ht Hc Hn Hlen Hi. unfold readHeapDumpSegment.
  rewrite run_bind, (run_u1_byte x21 _ r Hi).
  rewrite run_bind. cbn [run modify]. rewrite run_bind. cbn [run get set_subTags set_input idSize].
  change (Z.of_N (Byte.to_N x21)) with 33.
  repeat (rewrite (bool_decide_eq_false_2 (33 = _)) by lia).
  rewrite (bool_decide_eq_true_2 (33 = 33)) by done.
  rewrite run_bind, (run_id_be oid (be 4 ts ++ be 8 cid ++ be 4 nn ++ fields ++ rest)) by done.
  rewrite run_bind, (run_u4_be ts (be 8 cid ++ be 4 nn ++ fields ++ rest)) by done.
  rewrite run_bind, (run_id_be cid (be 4 nn ++ fields ++ rest)) by done.
  rewrite run_bind, (run_u4_be nn (fields ++ rest)) by (done || lia).
  rewrite run_bind, (run_ignore_app nn fields rest) by done.
  rewrite run_bind. cbn [run modify mret dec_ret]. rewrite Hsz.
  unfold instanceHeaderSize. f_equal. lia.
Qed.

Lemma instance_dump_accounted_witness :
  run readHeapDumpSegment instance_example
  = Ok (25 + 3)
       (account Instance 7 (3 + 16) 16
          (set_subTags (incr 33 (subTags instance_example)) (set_input [x2a] instance_example))).
Proof.
  apply (instance_dump_accounted instance_example 1 7 2 3 [x00; x00; x00] [x2a]);
    [reflexivity|lia|lia|lia|lia|reflexivity|reflexivity].
Defined.

(** X13: an OBJECT ARRAY DUMP sub-record of [k] elements is read whole,
    25 + 8 [k] bytes, which is the count returned; 8 [k] + 24 is added to
    the total and to the size of its trace serial, and 24 to the overhead
    of object arrays. *)
Theorem object_array_dump_accounted (r : reader) (oid ts cid : Z) (elems : list Z)
    (rest : list byte) :
  idSize r = 8 →
  0 <= oid < 2 ^ 64 → 0 <= ts < 2 ^ 32 → 0 <= cid < 2 ^ 64 →
  Z.of_nat (length elems) < 2 ^ 32 → Forall (λ z, 0 <= z < 2 ^ 64) elems →
  input r = x22 :: be 8 oid ++ be 4 ts ++ be 4 (Z.of_nat (length elems)) ++ be 8 cid
            ++ concat (be 8 <$> elems) ++ rest →
  run readHeapDumpSegment r =
    Ok (25 + 8 * Z.of_nat (length elems))
       (account ObjectArray ts (8 * Z.of_nat (length elems) + 24) 24
          (set_subTags (incr 34 (subTags r)) (set_input rest r))).
Proof.
  intros Hsz Ho Ht Hc Hn Hel Hi. unfold readHeapDumpSegment.
  rewrite run_bind, (run_u1_byte x22 _ r Hi).
  rewrite run_bind. cbn [run modify]. rewrite run_bind. cbn [run get set_subTags set_input idSize].
  change (Z.of_N (Byte.to_N x22)) with 34.
  repeat (rewrite (bool_decide_eq_false_2 (34 = _)) by lia).
  rewrite (bool_decide_eq_true_2 (34 = 34)) by done.
  rewrite run_bind, (run_id_be oid (be 4 ts ++ be 4 (Z.of_nat (length elems)) ++ be 8 cid
                                     ++ concat (be 8 <$> elems) ++ rest)) by done.
  rewrite run_bind, (run_u4_be ts (be 4 (Z.of_nat (length elems)) ++ be 8 cid
                                     ++ concat (be 8 <$> elems) ++ rest)) by done.
  rewrite run_bind, (run_u4_be (Z.of_nat (length elems))
                       (be 8 cid ++ concat (be 8 <$> elems) ++ rest)) by (done || lia).
  rewrite run_bind, (run_id_be cid (concat (be 8 <$> elems) ++ rest)) by done.
  rewrite run_bind, Nat2Z.id, (run_times_id elems _ rest) by done.
  rewrite run_bind. cbn [run modify mret dec_ret]. rewrite Hsz.
  unfold objectArrayHeaderSize.
  replace (Z.of_nat (length elems) * 8 + 24) with (8 * Z.of_nat (length elems) + 24) by lia.
  f_equal. lia.
Qed.

Lemma object_array_dump_accounted_witness :
  run readHeapDumpSegment object_array_example
  = Ok (25 + 8 * Z.of_nat (length [5; 6]))
       (account ObjectArray 7 (8 * Z.of_nat (length [5; 6]) + 24) 24
          (set_subTags (incr 34 (subTags object_array_example))
                       (set_input [x2a] object_array_example))).
Proof.
  apply (object_array_dump_accounted object_array_example 1 7 2 [5; 6] [x2a]);
    [reflexivity|lia|lia|lia|simpl; lia|repeat constructor; lia|reflexivity].
Defined.

(** *** The ledger *)

Lemma wp_bind {A B} (m : dec A) (k : A → dec B) x (Q : B → ledger → Prop) :
  wp m x (λ a y, wp (k a) y Q) → wp (m ≫= k) x Q.
Proof.
  intros Hm r Hr. rewrite run_bind. specialize (Hm r Hr).
  destruct (run m r) as [a r1| |]; [|done..]. by apply Hm.
Qed.

Lemma wp_weaken {A} (m : dec A) x (P Q : A → ledger → Prop) :
  wp m x P → (∀ a y, P a y → Q a y) → wp m x Q.
Proof. intros Hm HPQ r Hr. specialize (Hm r Hr). destruct (run m r); [by apply HPQ|done..]. Qed.

Lemma wp_quiet {A} (m : dec A) x (Q : A → ledger → Prop) :
  quiet m → (∀ a, Q a x) → wp m x Q.
Proof. intros Hm HQ. by apply Hm. Qed.

Lemma wp_modify (f : reader → reader) x (Q : unit → ledger → Prop) :
  (∀ r, led r = x → Q tt (led (f r))) → wp (modify f) x Q.
Proof. intros Hf r Hr. cbn. by apply Hf. Qed.

Lemma wp_ret {A} (a : A) x (Q : A → ledger → Prop) : Q a x → wp (mret a) x Q.
Proof. by intros HQ r <-. Qed.

Lemma quiet_bind {A B} (m : dec A) (k : A → dec B) :
  quiet m → (∀ a, quiet (k a)) → quiet (m ≫= k).
Proof.
  intros Hm Hk x Q HQ. apply wp_bind. apply Hm. intros a. by apply Hk.
Qed.

Lemma quiet_ret {A} (a : A) : quiet (mret a).
Proof. intros x Q HQ r <-. apply HQ. Qed.

Lemma quiet_error {A} (e : error) : quiet (@error_ A e).
Proof. by intros x Q HQ r Hr. Qed.

Lemma quiet_crash {A} p : quiet (@crash A p).
Proof. by intros x Q HQ r Hr. Qed.

Lemma quiet_get {A} (f : reader → A) : quiet (get f).
Proof. intros x Q HQ r <-. apply HQ. Qed.

Lemma quiet_modify (f : reader → reader) : (∀ r, led (f r) = led r) → quiet (modify f).
Proof. intros Hf x Q HQ r <-. cbn. rewrite Hf. apply HQ. Qed.

Lemma quiet_ReadFull n : quiet (ReadFull n).
Proof. intros x Q HQ r <-. cbn. case_bool_decide; [apply HQ|done]. Qed.

Lemma quiet_ignore n : quiet (ignore n).
Proof. intros x Q HQ r <-. cbn. case_bool_decide; [apply HQ|done]. Qed.

Lemma quiet_u1 : quiet u1.
Proof. apply quiet_bind; [apply quiet_ReadFull|intros; apply quiet_ret]. Qed.

Lemma quiet_u2 : quiet u2.
Proof. apply quiet_bind; [apply quiet_ReadFull|intros; apply quiet_ret]. Qed.

Lemma quiet_u4 : quiet u4.
Proof. apply quiet_bind; [apply quiet_ReadFull|intros; apply quiet_ret]. Qed.

Lemma quiet_id : quiet id.
Proof. apply quiet_bind; [apply quiet_ReadFull|intros; apply quiet_ret]. Qed.

Lemma quiet_bytes n : quiet (bytes n).
Proof.
  unfold bytes. repeat case_bool_decide; (apply quiet_crash || apply quiet_ReadFull).
Qed.

Lemma quiet_basicSize typ : quiet (basicSize typ).
Proof.
  unfold basicSize.
  repeat (case_bool_decide; [(apply quiet_get || apply quiet_ret)|]). apply quiet_error.
Qed.

Lemma quiet_repeat_add (body : dec Z) (count : nat) :
  quiet body → ∀ n, quiet (repeat_add count body n).
Proof.
  intros Hb. induction count as [|count IH]; intros n; cbn [repeat_add].
  - apply quiet_ret.
  - apply quiet_bind; [done|]. intros k. apply IH.
Qed.

Lemma quiet_times (body : dec unit) (count : nat) : quiet body → quiet (times count body).
Proof.
  intros Hb. induction count as [|count IH]; cbn [times].
  - apply quiet_ret.
  - apply quiet_bind; [done|]. intros _. apply IH.
Qed.

Lemma quiet_lookup_string sid e : quiet (lookup_string sid e).
Proof.
  apply quiet_bind; [apply quiet_get|]. intros names.
  destruct (names !! sid); [apply quiet_ret|apply quiet_error].
Qed.

Ltac hush :=
  repeat first
    [ apply quiet_ret | apply quiet_error | apply quiet_get | apply quiet_u1
    | apply quiet_u2 | apply quiet_u4 | apply quiet_id | apply quiet_ignore
    | apply quiet_bytes | apply quiet_basicSize | apply quiet_lookup_string
    | apply quiet_ReadFull
    | apply quiet_repeat_add | apply quiet_times
    | (apply quiet_modify; intros; reflexivity)
    | (apply quiet_bind; [|intros]) ].

Lemma quiet_readString n : quiet (readString n).
Proof. unfold readString. hush. Qed.

Lemma quiet_readClass n : quiet (readClass n).
Proof. unfold readClass. hush. destruct (_ !! _); hush. Qed.

Lemma quiet_readFrame n : quiet (readFrame n).
Proof.
  unfold readFrame. hush. { case_bool_decide; hush. }
  destruct (_ !! _); hush.
Qed.

Lemma quiet_read_frames n : quiet (read_frames n).
Proof.
  induction n as [|n IH]; cbn [read_frames]; hush.
  destruct (_ !! _); hush. apply IH.
Qed.

Lemma quiet_readTrace n : quiet (readTrace n).
Proof. unfold readTrace. hush. apply quiet_read_frames. Qed.

Lemma quiet_readHeader : quiet readHeader.
Proof.
  unfold readHeader. hush. destruct (ReadString0 _) as [[s rest]|]; hush.
  case_bool_decide; hush. case_bool_decide; hush.
Qed.

Lemma sum_sizes_insert (m : gmap Z Z) (k v : Z) :
  sum_sizes (<[k := v]> m) = sum_sizes m - default 0 (m !! k) + v.
Proof.
  unfold sum_sizes. destruct (m !! k) as [old|] eqn:E; cbn [from_option Datatypes.id].
  - rewrite <- (insert_delete_id m k old E) at 2.
    rewrite <- (insert_delete_eq m k v).
    rewrite !(sumZ_perm _ _ (fmap_Permutation snd _ _ (map_to_list_insert _ _ _ (lookup_delete_eq m k)))).
    rewrite !fmap_cons. cbn [sumZ snd]. lia.
  - rewrite (sumZ_perm _ _ (fmap_Permutation snd _ _ (map_to_list_insert _ _ _ E))).
    rewrite !fmap_cons. cbn [sumZ snd]. lia.
Qed.

Lemma wrap64_mul_r a b : wrap64 (a * wrap64 b) = wrap64 (a * b).
Proof.
  unfold wrap64. f_equal.
  replace (a * ((b + 2 ^ 63) `mod` 2 ^ 64 - 2 ^ 63) + 2 ^ 63)
    with (a * ((b + 2 ^ 63) `mod` 2 ^ 64) + (2 ^ 63 - a * 2 ^ 63)) by lia.
  replace (a * b + 2 ^ 63) with (a * (b + 2 ^ 63) + (2 ^ 63 - a * 2 ^ 63)) by lia.
  rewrite (Z.add_mod (a * _)), Z.mul_mod_idemp_r, <- Z.add_mod by lia. done.
Qed.

Lemma wrap64_sum_account (m : gmap Z Z) (k s : Z) :
  wrap64 (sum_sizes (<[k := add64 (default 0 (m !! k)) s]> m)) = wrap64 (sum_sizes m + s).
Proof.
  rewrite sum_sizes_insert. unfold add64.
  replace (sum_sizes m - default 0 (m !! k) + wrap64 (default 0 (m !! k) + s))
    with ((sum_sizes m - default 0 (m !! k)) + wrap64 (default 0 (m !! k) + s)) by lia.
  rewrite wrap64_add_r. f_equal. lia.
Qed.

Lemma balanced_other_subTag (x : ledger) (tag : Z) :
  tag ≠ 33 → tag ≠ 34 → tag ≠ 35 → balanced x →
  balanced (mkLedger (l_total x) (l_instance x) (l_objectArray x) (l_primitiveArray x)
                     (l_traceSizes x) (incr tag (l_subTags x))).
Proof.
  intros H1 H2 H3 (Ht & Hi & Ho & Hp). unfold balanced, incr. cbn.
  rewrite !lookup_insert_ne by done. done.
Qed.

Lemma balanced_account (x : ledger) (which : dump_kind) (r : reader) (ts payload : Z) :
  balanced x →
  led r = mkLedger (l_total x) (l_instance x) (l_objectArray x) (l_primitiveArray x)
            (l_traceSizes x)
            (incr (match which with Instance => 33 | ObjectArray => 34 | PrimitiveArray => 35 end)
                  (l_subTags x)) →
  balanced (led (account which ts
                   (payload + match which with Instance => instanceHeaderSize
                              | ObjectArray => objectArrayHeaderSize
                              | PrimitiveArray => primitiveArrayHeaderSize end)
                   (match which with Instance => instanceHeaderSize
                    | ObjectArray => objectArrayHeaderSize
                    | PrimitiveArray => primitiveArrayHeaderSize end) r)).
Proof.
  intros (Ht & Hi & Ho & Hp) Hr. unfold led in Hr. injection Hr as H1 H2 H3 H4 H5 H6.
  unfold balanced, led, account. cbn [l_total l_instance l_objectArray l_primitiveArray
    l_traceSizes l_subTags total instanceOverhead objectArrayOverhead primitiveArrayOverhead
    traceSizes subTags].
  rewrite H1, H2, H3, H4, H5, H6, Ht, Hi, Ho, Hp. unfold incr.
  split.
  { rewrite wrap64_sum_account. unfold add64. by rewrite wrap64_add_l. }
  destruct which;
    rewrite ?lookup_insert_eq, ?lookup_insert_ne by done; cbn [from_option Datatypes.id];
    unfold add64, instanceHeaderSize, objectArrayHeaderSize, primitiveArrayHeaderSize;
    rewrite ?wrap64_idemp, ?wrap64_mul_r, ?wrap64_add_l;
    (split; [|split]); (done || (f_equal; lia)).
Qed.

Ltac on_tag tag v :=
  destruct (bool_decide_reflect (tag = v)).

Lemma wp_readHeapDumpSegment (x : ledger) :
  balanced x → wp readHeapDumpSegment x (λ _ y, balanced y).
Proof.
  intros Hx. unfold readHeapDumpSegment.
  apply wp_bind, wp_quiet; [apply quiet_u1|]. intros tag. cbv beta.
  apply wp_bind, wp_modify. intros r Hr. cbv beta. cbn [led set_subTags total instanceOverhead
    objectArrayOverhead primitiveArrayOverhead traceSizes subTags].
  apply wp_bind, wp_quiet; [apply quiet_get|]. intros sz. cbv beta.
  assert (Hother : tag ≠ 33 → tag ≠ 34 → tag ≠ 35 →
    balanced {| l_total := total r; l_instance := instanceOverhead r;
                l_objectArray := objectArrayOverhead r;
                l_primitiveArray := primitiveArrayOverhead r;
                l_traceSizes := traceSizes r; l_subTags := incr tag (subTags r) |}).
  { intros. subst x. by apply (balanced_other_subTag (led r)). }
  on_tag tag 255; [apply wp_quiet; [hush|intros _; apply Hother; lia]|].
  on_tag tag 1; [apply wp_quiet; [hush|intros _; apply Hother; lia]|].
  on_tag tag 2; [apply wp_quiet; [hush|intros _; apply Hother; lia]|].
  on_tag tag 3; [apply wp_quiet; [hush|intros _; apply Hother; lia]|].
  on_tag tag 4; [apply wp_quiet; [hush|intros _; apply Hother; lia]|].
  on_tag tag 5; [apply wp_quiet; [hush|intros _; apply Hother; lia]|].
  on_tag tag 6; [apply wp_quiet; [hush|intros _; apply Hother; lia]|].
  on_tag tag 7; [apply wp_quiet; [hush|intros _; apply Hother; lia]|].
  on_tag tag 8; [apply wp_quiet; [hush|intros _; apply Hother; lia]|].
  on_tag tag 32.
  { apply wp_quiet; [hush; destruct (_ !! _); hush|intros _; apply Hother; lia]. }
  on_tag tag 33.
  { subst tag.
    do 5 (apply wp_bind, wp_quiet; [hush|]; intros ?; cbv beta).
    apply wp_bind, wp_modify. intros r' Hr'. cbv beta.
    apply wp_ret. apply (balanced_account x Instance); [done|]. by subst x. }
  on_tag tag 34.
  { subst tag.
    do 5 (apply wp_bind, wp_quiet; [hush|]; intros ?; cbv beta).
    apply wp_bind, wp_modify. intros r' Hr'. cbv beta.
    apply wp_ret. apply (balanced_account x ObjectArray); [done|]. by subst x. }
  on_tag tag 35.
  { subst tag.
    do 6 (apply wp_bind, wp_quiet; [hush|]; intros ?; cbv beta).
    apply wp_bind, wp_modify. intros r' Hr'. cbv beta.
    apply wp_ret. apply (balanced_account x PrimitiveArray); [done|]. by subst x. }
  by intros r0 Hr0.
Qed.

Lemma wp_heap_dump_rounds (rounds : nat) : ∀ n x,
  balanced x → wp (heap_dump_rounds rounds n) x (λ _ y, balanced y).
Proof.
  induction rounds as [|rounds IH]; intros n x Hx; cbn [heap_dump_rounds];
    case_bool_decide; try by apply wp_ret.
  apply wp_bind. eapply wp_weaken; [by apply wp_readHeapDumpSegment|].
  intros k y Hy. by apply IH.
Qed.

Lemma wp_readRecord (x : ledger) :
  balanced x → wp readRecord x (λ _ y, balanced y).
Proof.
  intros Hx. unfold readRecord.
  apply wp_bind, wp_quiet; [hush|]. intros left. cbv beta.
  case_bool_decide; [by apply wp_ret|].
  apply wp_bind, wp_quiet; [hush|]. intros tag. cbv beta.
  apply wp_bind, wp_quiet; [hush|]. intros _. cbv beta.
  apply wp_bind, wp_quiet; [hush|]. intros _. cbv beta.
  apply wp_bind, wp_quiet; [hush|]. intros n. cbv beta.
  apply wp_bind.
  assert (∀ m : dec unit, quiet m → wp m x (λ _ y, wp (mret false) y (λ _ y, balanced y))) as Hq.
  { intros m Hm. apply wp_quiet; [done|]. intros _. by apply wp_ret. }
  on_tag tag 1; [apply Hq, quiet_readString|].
  on_tag tag 2; [apply Hq, quiet_readClass|].
  on_tag tag 4; [apply Hq, quiet_readFrame|].
  on_tag tag 5; [apply Hq, quiet_readTrace|].
  on_tag tag 28; [|apply Hq, quiet_ignore].
  apply wp_bind. unfold heap_dump_loop.
  apply wp_bind, wp_quiet; [hush|]. intros fuel. cbv beta.
  eapply wp_weaken; [by apply wp_heap_dump_rounds|].
  intros k y Hy. apply wp_ret. by apply wp_ret.
Qed.

Lemma wp_read_records (rounds : nat) : ∀ x,
  balanced x → wp (read_records rounds) x (λ _ y, balanced y).
Proof.
  induction rounds as [|rounds IH]; intros x Hx; cbn [read_records]; [by apply wp_ret|].
  apply wp_bind. eapply wp_weaken; [by apply wp_readRecord|].
  intros [] y Hy; [by apply wp_ret|by apply IH].
Qed.

Lemma readAll_balanced (stream : list byte) (r : reader) :
  readAll (newReader stream) = Returns None (Some r) → balanced (led r).
Proof.
  intros Hrun. unfold readAll in Hrun.
  assert (wp (_ ← readHeader; left ← get (λ r, length (input r)); read_records (S left))
             (led (newReader stream)) (λ _ y, balanced y)) as Hwp.
  { apply wp_bind, wp_quiet; [apply quiet_readHeader|]. intros _. cbv beta.
    apply wp_bind, wp_quiet; [hush|]. intros fuel. cbv beta.
    apply wp_read_records. by repeat split. }
  specialize (Hwp (newReader stream) eq_refl).
  destruct (run _ (newReader stream)) as [[] r'| |]; [|done..].
  injection Hrun as <-. exact Hwp.
Qed.

(** X14: after a decode without error, the total size is the sum of the
    sizes per trace serial, as int wraps it: every object dump adds its
    size to both, and nothing else changes either. *)
Theorem readAll_total_is_sum (stream : list byte) (r : reader) :
  readAll (newReader stream) = Returns None (Some r) →
  total r = wrap64 (sum_sizes (traceSizes r)).
Proof. intros Hrun. by destruct (readAll_balanced stream r Hrun) as (H & _). Qed.

Lemma readAll_total_is_sum_witness :
  total decoded_example = wrap64 (sum_sizes (traceSizes decoded_example)).
Proof. apply (readAll_total_is_sum stream_example). vm_compute. reflexivity. Defined.

(** X15: after a decode without error, the overhead of instances is 16
    times the number of INSTANCE DUMP sub-records, and the overheads of
    object arrays and of primitive arrays are 24 times the numbers of
    their sub-records, as counted in [subTags] and as int wraps them. *)
Theorem readAll_overheads (stream : list byte) (r : reader) :
  readAll (newReader stream) = Returns None (Some r) →
  instanceOverhead r = wrap64 (16 * default 0 (subTags r !! 33)) ∧
  objectArrayOverhead r = wrap64 (24 * default 0 (subTags r !! 34)) ∧
  primitiveArrayOverhead r = wrap64 (24 * default 0 (subTags r !! 35)).
Proof. intros Hrun. by destruct (readAll_balanced stream r Hrun) as (_ & H). Qed.

Lemma readAll_overheads_witness :
  instanceOverhead decoded_example = wrap64 (16 * default 0 (subTags decoded_example !! 33)) ∧
  objectArrayOverhead decoded_example = wrap64 (24 * default 0 (subTags decoded_example !! 34)) ∧
  primitiveArrayOverhead decoded_example = wrap64 (24 * default 0 (subTags decoded_example !! 35)).
Proof. apply (readAll_overheads stream_example). vm_compute. reflexivity. Defined.

End DecoderFacts.

(** ** The parser, line by line *)

Module ParserFacts.
Import Main Hprof HprofFacts.

Lemma append_cons a (p r : string) : String a p +:+ r = String a (p +:+ r).
Proof. reflexivity. Qed.

Lemma append_nil (r : string) : "" +:+ r = r.
Proof. reflexivity. Qed.

Lemma strip_prefix_app (p r : string) : strip_prefix p (p +:+ r) = Some r.
Proof.
  induction p as [|a p IH]; rewrite ?append_cons, ?append_nil; cbn -[Ascii.eqb]; [done|].
  by rewrite Ascii.eqb_refl.
Qed.

Lemma strip_prefix_Some (p s r : string) : strip_prefix p s = Some r → s = p +:+ r.
Proof.
  revert s. induction p as [|a p IH]; intros s H; rewrite ?append_cons, ?append_nil in *; cbn -[Ascii.eqb] in *.
  - destruct s; by injection H as <-.
  - destruct s as [|b s]; [done|]. destruct (Ascii.eqb_spec a b) as [->|]; [|done].
    f_equal. by apply IH.
Qed.

Lemma span_app (f : ascii → bool) (s : string) (c : ascii) (r : string) :
  all_chars f s = true → f c = false → span f (s +:+ String c r) = (s, String c r).
Proof.
  unfold all_chars. intros Hs Hc.
  induction s as [|a s IH]; rewrite ?append_cons, ?append_nil in *; cbn -[Ascii.eqb] in *.
  - by rewrite Hc.
  - apply andb_prop in Hs as [Ha Hs]. rewrite Ha. by rewrite IH.
Qed.

Lemma span_all (f : ascii → bool) (s : string) : all_chars f s = true → span f s = (s, EmptyString).
Proof.
  unfold all_chars. intros Hs.
  induction s as [|a s IH]; rewrite ?append_cons, ?append_nil in *; cbn -[Ascii.eqb] in *; [done|].
  apply andb_prop in Hs as [Ha Hs]. rewrite Ha. by rewrite IH.
Qed.

Lemma span_spec (f : ascii → bool) (s a b : string) :
  span f s = (a, b) →
  s = a +:+ b ∧ all_chars f a = true ∧ match b with String c _ => f c = false | _ => True end.
Proof.
  unfold all_chars. revert a b. induction s as [|c s IH]; intros a b H; cbn -[Ascii.eqb] in H.
  - by injection H as <- <-.
  - destruct (f c) eqn:Hc.
    + destruct (span f s) as [a' b'] eqn:E. injection H as <- <-.
      destruct (IH a' b' eq_refl) as (-> & Ha & Hb).
      rewrite append_cons. cbn -[Ascii.eqb]. by rewrite Hc, Ha.
    + injection H as <- <-. rewrite append_nil. cbn -[Ascii.eqb].
      by rewrite Hc.
Qed.

Lemma nonempty_true s : nonempty s = true ↔ s ≠ EmptyString.
Proof. by destruct s. Qed.

(** X16: the parser takes a frame line exactly when it has the shape
    name(file:line) with three non-empty parts, the name without "(", the
    file without ":" and the line without ")"; these are then the parts it
    is split into. *)
Theorem traceLine_shape (line name file ln : string) :
  traceLine line = Some (name, file, ln) ↔
  line = name +:+ "(" +:+ file +:+ ":" +:+ ln +:+ ")" ∧
  name ≠ EmptyString ∧ file ≠ EmptyString ∧ ln ≠ EmptyString ∧
  lacks "(" name ∧ lacks ":" file ∧ lacks ")" ln.
Proof.
  unfold traceLine, lacks. split.
  - destruct (span _ line) as [name' r1] eqn:E1.
    apply span_spec in E1 as (-> & Hn & _).
    destruct (strip_prefix "(" r1) as [r1'|] eqn:S1; [|done]. cbn [mbind option_bind].
    apply strip_prefix_Some in S1 as ->.
    destruct (span _ r1') as [file' r2] eqn:E2.
    apply span_spec in E2 as (-> & Hf & _).
    destruct (strip_prefix ":" r2) as [r2'|] eqn:S2; [|done]. cbn [mbind option_bind].
    apply strip_prefix_Some in S2 as ->.
    destruct (span _ r2') as [ln' r3] eqn:E3.
    apply span_spec in E3 as (-> & Hl & _).
    destruct (nonempty name') eqn:N1; [|done].
    destruct (nonempty file') eqn:N2; [|done].
    destruct (nonempty ln') eqn:N3; [|done].
    destruct (String.eqb_spec r3 ")") as [->|]; [|done].
    cbn [andb]. intros [= <- <- <-].
    rewrite <- !nonempty_true. done.
  - intros (-> & N1 & N2 & N3 & Hn & Hf & Hl).
    rewrite !append_cons, !append_nil.
    rewrite (span_app _ name "(") by done.
    cbn [strip_prefix]. rewrite Ascii.eqb_refl. cbn [mbind option_bind].
    rewrite (span_app _ file ":") by done.
    cbn [strip_prefix]. rewrite Ascii.eqb_refl. cbn [mbind option_bind].
    rewrite (span_app _ ln ")") by done.
    apply nonempty_true in N1, N2, N3. by rewrite N1, N2, N3.
Qed.

Lemma header_line_number line st :
  match header_line line st with
  | Parsed st' => lineNumber st' = lineNumber st
  | Fatal n _ => n = lineNumber st
  end.
Proof.
  unfold header_line. destruct (traceHeader line); [|done].
  destruct (Atoi _); [|done]. by destruct (_ !! _).
Qed.

Lemma trace_line_number line st :
  match trace_line line st with
  | Parsed st' => lineNumber st' = lineNumber st
  | Fatal n _ => n = lineNumber st
  end.
Proof.
  unfold trace_line, resolve_site. destruct (callSites st !! _); [done|].
  destruct (traceLine _) as [[[name file] ln]|]; [|done].
  destruct (Atoi ln); [done|]. by destruct (String.eqb _ _).
Qed.

Lemma samples_line_number line st :
  match samples_line line st with
  | Parsed st' => lineNumber st' = lineNumber st
  | Fatal n _ => n = lineNumber st
  end.
Proof.
  unfold samples_line. destruct (HasPrefix line " ").
  - case_bool_decide; [|done]. destruct (Atoi _); [|done]. destruct (Atoi _); [|done].
    destruct (_ !! _); [|done]. cbn. destruct (samplesColumns _); [done|].
    by destruct (String.eqb _ _).
  - cbn. destruct (samplesColumns _); [done|]. by destruct (String.eqb _ _).
Qed.

Lemma scan_line_number line st :
  match scan_line line st with
  | Parsed st' => lineNumber st' = lineNumber st + 1
  | Fatal n _ => n = lineNumber st + 1
  end.
Proof.
  unfold scan_line.
  destruct (inTrace st) eqn:E1, (HasPrefix line (String tab EmptyString)), (inSamples st) eqn:E2;
    cbn [andb negb inTrace inSamples];
    first [ exact (header_line_number line _) | exact (trace_line_number line _)
          | exact (samples_line_number line _) ].
Qed.

Lemma scan_lines_number lines : ∀ st st',
  scan_lines lines st = Parsed st' → lineNumber st' = lineNumber st + Z.of_nat (length lines).
Proof.
  induction lines as [|line lines IH]; intros st st' H; cbn [scan_lines length] in *.
  - injection H as <-. lia.
  - pose proof (scan_line_number line st) as Hn.
    destruct (scan_line line st) as [st1|]; [|done]. cbn in H.
    rewrite (IH st1 st' H). lia.
Qed.

Lemma scan_lines_fatal lines : ∀ st n e,
  scan_lines lines st = Fatal n e →
  ∃ (k : nat) line st',
    lines !! k = Some line ∧ scan_lines (take k lines) st = Parsed st' ∧
    scan_line line st' = Fatal n e ∧ n = lineNumber st + Z.of_nat k + 1.
Proof.
  induction lines as [|line lines IH]; intros st n e H; cbn [scan_lines] in H; [done|].
  pose proof (scan_line_number line st) as Hn.
  destruct (scan_line line st) as [st1|n1 e1] eqn:E.
  - cbn in H. destruct (IH st1 n e H) as (k & l & st' & Hk & Hpre & Hl & ->).
    exists (S k), l, st'. cbn [take scan_lines]. rewrite E. cbn. split_and!; [done..|lia].
  - injection H as -> ->. exists 0%nat, line, st. cbn. split_and!; [done..|lia].
Qed.

(** X17: the line number of a parse error is the 1-based position of the
    line it is raised at, and the lines before that line have been taken
    without error. *)
Theorem parse_error_position (lines : list string) (n : Z) (e : parse_error) :
  ParseHProfFile lines = Fatal n e →
  ∃ (k : nat) line st,
    n = Z.of_nat k + 1 ∧ lines !! k = Some line ∧
    scan_lines (take k lines) initial = Parsed st ∧
    scan_line line st = Fatal n e.
Proof.
  unfold ParseHProfFile. intros H.
  destruct (scan_lines lines initial) as [st|n' e'] eqn:E; [done|]. injection H as -> ->.
  destruct (scan_lines_fatal lines initial n e E) as (k & line & st & Hk & Hpre & Hl & Hn).
  exists k, line, st. cbn in Hn. split_and!; (done || lia).
Qed.

Lemma parse_error_position_witness :
  ∃ (k : nat) line st,
    2 = Z.of_nat k + 1 ∧ ["TRACE 1:"; "TRACE 1:"]%string !! k = Some line ∧
    scan_lines (take k ["TRACE 1:"; "TRACE 1:"]%string) initial = Parsed st ∧
    scan_line line st = Fatal 2 (DuplicateTrace 1).
Proof. apply (parse_error_position ["TRACE 1:"; "TRACE 1:"]%string). vm_compute. reflexivity. Defined.

Lemma traceHeader_digits (ds : string) :
  ds ≠ EmptyString → all_chars is_digit ds = true →
  traceHeader ("TRACE " +:+ ds +:+ ":") = Some ds.
Proof.
  intros Hne Hd. unfold traceHeader. rewrite strip_prefix_app. cbn [mbind option_bind].
  rewrite (span_app is_digit ds ":") by done.
  apply nonempty_true in Hne. by rewrite Hne.
Qed.

Lemma HasPrefix_TRACE (r : string) : HasPrefix ("TRACE " +:+ r) (String tab EmptyString) = false.
Proof. reflexivity. Qed.

(** X18: outside the samples table, a TRACE header whose id is the id of
    a trace read before stops the parse with the error that cites the id,
    at the line of that header; the earlier trace is not replaced. *)
Theorem duplicate_trace_is_fatal (pre post : list string) (ds : string) (id : Z)
    (st : pstate) (t : Trace) :
  scan_lines pre initial = Parsed st →
  inSamples st = false →
  ds ≠ EmptyString → all_chars is_digit ds = true → Atoi ds = Some id →
  traces st !! id = Some t →
  ParseHProfFile (pre ++ ("TRACE " +:+ ds +:+ ":") :: post)
    = Fatal (Z.of_nat (length pre) + 1) (DuplicateTrace id).
Proof.
  intros Hpre Hs Hne Hd Hid Ht. unfold ParseHProfFile.
  rewrite scan_lines_app, Hpre. cbn [mbind parsing_bind scan_lines].
  pose proof (scan_lines_number pre initial st Hpre) as Hn. cbn in Hn.
  unfold scan_line. cbn [inTrace inSamples lineNumber traces].
  rewrite HasPrefix_TRACE. cbn [negb]. rewrite andb_true_r.
  assert (∀ b : bool, inTrace (if b then mkP (p_sites st) (lineNumber st + 1) (traces st)
            (callSites st) (currentTrace st) false (inSamples st)
          else mkP (p_sites st) (lineNumber st + 1) (traces st)
            (callSites st) (currentTrace st) b (inSamples st)) = false) as Hb by (by intros []).
  destruct (inTrace st); cbn [negb andb inTrace inSamples]; rewrite Hs; cbn [negb andb];
    unfold header_line; rewrite (traceHeader_digits ds Hne Hd), Hid;
    cbn [traces lineNumber]; rewrite Ht; cbn; do 2 f_equal; lia.
Qed.


Lemma resolve_site_parses (L : string) (c : CallSite) (st : pstate) :
  pinv_state st → parses_to L c →
  ∃ p sites' cs',
    resolve_site L st = Parsed (p, sites', cs') ∧
    sites' !! p = Some c ∧ p_sites st `prefix_of` sites'.
Proof.
  intros Hinv (ln & HL & Hn & Hc0 & Hc1). unfold resolve_site.
  destruct (callSites st !! L) as [p|] eqn:E.
  - exists p, (p_sites st), (callSites st). split; [done|]. split; [|done].
    destruct (pinv_sites _ _ _ Hinv L p E) as (name & file & ln' & n & HL' & Hn' & Hs).
    rewrite HL in HL'. injection HL' as <- <- <-. rewrite Hn in Hn'. injection Hn' as <-.
    rewrite Hs. destruct c; cbn in *. by subst.
  - rewrite HL. unfold line_number in Hn.
    assert (sites_ok : (p_sites st ++ [c]) !! length (p_sites st) = Some c).
    { by rewrite lookup_app_r, Nat.sub_diag by lia. }
    assert (c = mkCallSite (Name c) (Filename c) (LineNumber c) 0 0) as Hc
      by (destruct c; cbn in *; by subst).
    destruct (Atoi ln) as [n|].
    + injection Hn as ->. cbn. eexists _, _, _. split; [done|]. rewrite <- Hc.
      split; [done|]. by apply prefix_app_r.
    + destruct (String.eqb ln "Unknown line"); [|done]. injection Hn as Hn.
      cbn. rewrite Hn. eexists _, _, _. split; [done|]. rewrite <- Hc.
      split; [done|]. by apply prefix_app_r.
Qed.

Lemma frame_line_pushed (L : string) (c : CallSite) (st : pstate) (id : Z) (t : Trace) :
  pinv_state st → parses_to L c →
  inTrace st = true → currentTrace st = Some id → traces st !! id = Some t →
  ∃ st' p,
    scan_line (String tab L) st = Parsed st' ∧
    traces st' = <[id := push_site p t]> (traces st) ∧
    p_sites st' !! p = Some c ∧ p_sites st `prefix_of` p_sites st' ∧
    inTrace st' = true ∧ currentTrace st' = Some id ∧ inSamples st' = inSamples st.
Proof.
  intros Hinv HL Hin Hcur Ht.
  destruct st as [sites ln tr cs cur intr insam]. cbn in Hin, Hcur, Ht. subst intr cur.
  unfold scan_line.
  cbn [inTrace inSamples p_sites lineNumber traces callSites currentTrace].
  rewrite HasPrefix_tab.
  cbn [negb andb inTrace inSamples p_sites lineNumber traces callSites currentTrace].
  unfold trace_line. rewrite TrimPrefix_tab.
  destruct (resolve_site_parses L c (mkP sites (ln + 1) tr cs (Some id) true insam) Hinv HL)
    as (p & sites' & cs' & Hr & Hp & Hpre).
  rewrite Hr. cbn [mbind parsing_bind currentTrace traces lineNumber inTrace inSamples].
  eexists _, p. split; [done|]. cbn.
  split_and!; try done.
  apply map_eq. intros k. destruct (decide (k = id)) as [->|Hne].
  - by rewrite lookup_alter_eq, lookup_insert_eq, Ht.
  - by rewrite lookup_alter_ne, lookup_insert_ne.
Qed.

Lemma frame_lines_pushed (Ls : list string) (cs : list CallSite) :
  Forall2 parses_to Ls cs →
  ∀ (st : pstate) (id : Z) (t : Trace),
    pinv_state st →
    inTrace st = true → currentTrace st = Some id → traces st !! id = Some t →
    ∃ st' stack,
      scan_lines (String tab <$> Ls) st = Parsed st' ∧
      traces st' = <[id := mkTrace (ID t) (Stack t ++ stack) (TraceCount t)]> (traces st) ∧
      Forall2 (λ p c, p_sites st' !! p = Some c) stack cs ∧
      p_sites st `prefix_of` p_sites st' ∧
      inTrace st' = true ∧ currentTrace st' = Some id ∧ inSamples st' = inSamples st.
Proof.
  induction 1 as [|L c Ls cs HL HLs IH]; intros st id t Hinv Hin Hcur Ht.
  - exists st, []. cbn. rewrite app_nil_r. split_and!; try done.
    rewrite insert_id; [done|]. rewrite Ht. by destruct t.
  - destruct (frame_line_pushed L c st id t Hinv HL Hin Hcur Ht)
      as (st1 & p & Hs1 & Ht1 & Hp & Hpre & Hin1 & Hcur1 & Hsam1).
    assert (pinv_state st1) as Hinv1 by (by eapply scan_line_inv).
    destruct (IH st1 id (push_site p t) Hinv1 Hin1 Hcur1) as
      (st' & stack & Hs' & Ht' & Hst & Hpre' & Hin' & Hcur' & Hsam').
    { rewrite Ht1. apply lookup_insert_eq. }
    exists st', (p :: stack). rewrite fmap_cons. cbn [scan_lines]. rewrite Hs1. cbn [mbind parsing_bind].
    split; [done|]. split_and!; try done.
    + rewrite Ht', Ht1, insert_insert_eq. cbn. by rewrite <- app_assoc.
    + constructor; [|done]. by eapply prefix_lookup_Some.
    + by etrans.
    + congruence.
Qed.



(** X20: outside the samples table, a TRACE header with a new id followed
    by frame lines that start with a tab adds one trace, with count 0 and
    with one stack entry per line, in the order of the lines, each pointing
    to the call site its line parses to; the other traces are unchanged and
    the call sites allocated before stay where they are. *)
Theorem trace_block_parsed (st : pstate) (ds : string) (id : Z)
    (Ls : list string) (cs : list CallSite) :
  pinv_state st → inSamples st = false →
  ds ≠ EmptyString → all_chars is_digit ds = true → Atoi ds = Some id →
  traces st !! id = None →
  Forall2 parses_to Ls cs →
  ∃ st' stack,
    scan_lines (("TRACE " +:+ ds +:+ ":") :: (String tab <$> Ls)) st = Parsed st' ∧
    traces st' = <[id := mkTrace id stack 0]> (traces st) ∧
    Forall2 (λ p c, p_sites st' !! p = Some c) stack cs ∧
    p_sites st `prefix_of` p_sites st' ∧
    pinv_state st' ∧ inSamples st' = false.
Proof.
  intros Hinv Hsam Hne Hd Hid Hfresh HLs.
  set (st1 := mkP (p_sites st) (lineNumber st + 1) (<[id := mkTrace id [] 0]> (traces st))
                  (callSites st) (Some id) true false).
  assert (scan_line ("TRACE " +:+ ds +:+ ":") st = Parsed st1) as Hs1.
  { destruct st as [sites ln tr cs0 cur intr insam]. cbn in Hsam, Hfresh. subst insam.
    unfold scan_line.
    cbn [inTrace inSamples p_sites lineNumber traces callSites currentTrace].
    rewrite HasPrefix_TRACE.
    destruct intr; cbn [negb andb inTrace inSamples];
      unfold header_line; rewrite (traceHeader_digits ds Hne Hd), Hid;
      cbn [traces]; by rewrite Hfresh. }
  assert (pinv_state st1) as Hinv1 by (by eapply scan_line_inv).
  destruct (frame_lines_pushed Ls cs HLs st1 id (mkTrace id [] 0) Hinv1 eq_refl eq_refl)
    as (st' & stack & Hs' & Ht' & Hst & Hpre & Hin' & Hcur' & Hsam').
  { apply lookup_insert_eq. }
  exists st', stack. cbn [scan_lines]. rewrite Hs1. cbn [mbind parsing_bind].
  split; [done|]. split_and!; try done.
  - rewrite Ht'. cbn. by rewrite insert_insert_eq.
  - by eapply scan_lines_inv.
Qed.

Lemma trace_block_parsed_witness :
  ∃ st' stack,
    scan_lines (("TRACE " +:+ "1" +:+ ":") :: (String tab <$> ["foo(Foo.java:10)"%string])) initial
      = Parsed st' ∧
    traces st' = <[1 := mkTrace 1 stack 0]> (traces initial) ∧
    Forall2 (λ p c, p_sites st' !! p = Some c) stack [mkCallSite "foo" "Foo.java" 10 0 0] ∧
    p_sites initial `prefix_of` p_sites st' ∧
    pinv_state st' ∧ inSamples st' = false.
Proof.
  apply (trace_block_parsed initial "1" 1 ["foo(Foo.java:10)"%string]
           [mkCallSite "foo" "Foo.java" 10 0 0]);
    [apply pinv_initial|reflexivity|done|reflexivity|reflexivity|reflexivity|].
  repeat constructor. by exists "10"%string.
Defined.

(** X19: in what the parser returns, every trace is stored at its own ID,
    and every entry of its stack points to a call site that is allocated,
    with counts 0. *)
Theorem parser_output_wellformed (lines : list string) (sites : list CallSite)
    (byID : gmap Z Trace) (id : Z) (t : Trace) :
  ParseHProfFile lines = Parsed (sites, byID) →
  byID !! id = Some t →
  ID t = id ∧
  ∀ p, p ∈ Stack t →
    ∃ name file n, sites !! p = Some (mkCallSite name file n 0 0).
Proof.
  unfold ParseHProfFile. intros H Ht.
  destruct (scan_lines lines initial) as [st|] eqn:E; [|done]. injection H as <- <-.
  pose proof (scan_lines_inv lines initial st pinv_initial E) as Hinv.
  split; [by eapply pinv_id|].
  intros p Hp. destruct (pinv_stack _ _ _ Hinv id t p Ht Hp) as (L & HL).
  destruct (pinv_sites _ _ _ Hinv L p HL) as (name & file & ln & n & _ & _ & Hs).
  by exists name, file, n.
Qed.

Lemma parser_output_wellformed_witness :
  ID (mkTrace 1 [0%nat] 0) = 1 ∧
  ∀ p, p ∈ Stack (mkTrace 1 [0%nat] 0) →
    ∃ name file n, [mkCallSite "foo" "Foo.java" 10 0 0] !! p = Some (mkCallSite name file n 0 0).
Proof.
  apply (parser_output_wellformed ["TRACE 1:"; String tab "foo(Foo.java:10)"]%string
           [mkCallSite "foo" "Foo.java" 10 0 0] {[1 := mkTrace 1 [0%nat] 0]} 1);
    [vm_compute; reflexivity|reflexivity].
Defined.

Lemma append_assoc (a b c : string) : (a +:+ b) +:+ c = a +:+ b +:+ c.
Proof. induction a as [|x a IH]; [done|]. rewrite !append_cons. by rewrite IH. Qed.

Lemma append_nil_r (a : string) : a +:+ "" = a.
Proof. induction a as [|x a IH]; [done|]. rewrite append_cons. by rewrite IH. Qed.

Lemma space_width_plain (c : ascii) (s : string) :
  (33 <=? code c) && (code c <=? 126) = true → space_width (String c s) = None.
Proof.
  intros H.
  destruct c as [[] [] [] [] [] [] [] []]; first [reflexivity | by vm_compute in H].
Qed.

Lemma fields_from_plain (tok : string) : ∀ (rest cur : string),
  all_chars (λ c, (33 <=? code c) && (code c <=? 126)) tok = true →
  fields_from (tok +:+ rest) 0 cur = fields_from rest 0 (cur +:+ tok).
Proof.
  unfold all_chars.
  induction tok as [|c tok IH]; intros rest cur H.
  - by rewrite append_nil, append_nil_r.
  - cbn -[Z.leb code] in H. apply andb_prop in H as [Hc H].
    rewrite append_cons. cbn [fields_from]. rewrite (space_width_plain c _ Hc).
    rewrite IH by done. by rewrite append_assoc.
Qed.

Lemma fields_from_space (rest cur : string) :
  fields_from (String " " rest) 0 cur
  = (if nonempty cur then [cur] else []) ++ fields_from rest 0 EmptyString.
Proof. reflexivity. Qed.

Lemma fields_from_spaces (n : nat) (rest : string) :
  fields_from (spaces n +:+ rest) 0 EmptyString = fields_from rest 0 EmptyString.
Proof.
  induction n as [|n IH]; [done|]. cbn [spaces]. rewrite append_cons, fields_from_space.
  cbn [nonempty app]. apply IH.
Qed.

Lemma fields_from_end_of_token (tok rest : string) :
  plain tok → (rest = EmptyString ∨ ∃ r, rest = String " " r) →
  fields_from (tok +:+ rest) 0 EmptyString = tok :: fields_from rest 0 EmptyString.
Proof.
  intros [Hne Hp] Hrest. rewrite fields_from_plain by done. rewrite append_nil.
  apply nonempty_true in Hne.
  destruct Hrest as [->|[r ->]].
  - cbn. by rewrite Hne.
  - rewrite fields_from_space, Hne. cbn [app]. by f_equal.
Qed.

Lemma row_head (cols : list (nat * string)) :
  row cols = EmptyString ∨ ∃ r, row cols = String " " r.
Proof.
  destruct cols as [|[k f] cols]; [by left|]. right. cbn [row foldr spaces fst].
  rewrite append_cons. eauto.
Qed.

Lemma Fields_row (cols : list (nat * string)) :
  Forall (λ col, plain col.2) cols → Fields (row cols) = cols.*2.
Proof.
  unfold Fields. induction 1 as [|[k f] cols Hf Hcols IH]; [done|].
  cbn [row foldr fst snd]. fold (row cols).
  rewrite fields_from_spaces, fields_from_end_of_token by (done || apply row_head).
  rewrite fmap_cons. cbn [snd]. by rewrite IH.
Qed.

(** X21: inside the samples table, a row of six columns sets the count of
    the trace whose id is in its fifth column to the number in its fourth
    column, and changes nothing else; when there is no such trace the parse
    stops with the error that cites the id. *)
Theorem samples_row_sets_count (st : pstate) (rank self accum count trace method : nat * string)
    (c id : Z) :
  inTrace st = false → inSamples st = true →
  Forall (λ col, plain col.2) [rank; self; accum; count; trace; method] →
  Atoi count.2 = Some c → Atoi trace.2 = Some id →
  scan_line (row [rank; self; accum; count; trace; method]) st =
    match traces st !! id with
    | Some t =>
        Parsed (mkP (p_sites st) (lineNumber st + 1) (<[id := set_count c t]> (traces st))
                    (callSites st) (currentTrace st) false true)
    | None => Fatal (lineNumber st + 1) (NoSuchTrace id)
    end.
Proof.
  intros Hin Hsam Hcols Hc Hid.
  destruct st as [sites ln tr cs0 cur intr insam]. cbn in Hin, Hsam. subst intr insam.
  unfold scan_line.
  cbn [inTrace inSamples p_sites lineNumber traces callSites currentTrace negb andb].
  unfold samples_line.
  assert (HasPrefix (row [rank; self; accum; count; trace; method]) " " = true) as ->.
  { cbn [row foldr spaces]. by rewrite append_cons. }
  rewrite (Fields_row _ Hcols). cbn [fmap list_fmap length].
  rewrite bool_decide_eq_true_2 by done.
  cbn [lookup list_lookup from_option Datatypes.id]. rewrite Hc, Hid.
  cbn [traces lineNumber].
  destruct (tr !! id) as [t|] eqn:Ht; [|done].
  cbn [mbind parsing_bind].
  assert (String.eqb (row [rank; self; accum; count; trace; method]) "CPU SAMPLES END" = false)
    as ->.
  { cbn [row foldr spaces]. by rewrite append_cons. }
  destruct (samplesColumns _); cbn; do 2 f_equal;
    (apply map_eq; intros k; destruct (decide (k = id)) as [->|Hne];
     [by rewrite lookup_alter_eq, lookup_insert_eq, Ht
     |by rewrite lookup_alter_ne, lookup_insert_ne]).
Qed.

Lemma samples_row_sets_count_witness :
  scan_line (row [(2%nat, "1"); (0%nat, "16.67%"); (0%nat, "16.67%"); (4%nat, "2");
                  (0%nat, "300"); (0%nat, "foo.bar")]%string)
            (mkP [] 5 {[300 := mkTrace 300 [] 0]} ∅ None false true) =
    match traces (mkP [] 5 {[300 := mkTrace 300 [] 0]} ∅ None false true) !! 300 with
    | Some t =>
        Parsed (mkP (p_sites (mkP [] 5 {[300 := mkTrace 300 [] 0]} ∅ None false true))
                    (lineNumber (mkP [] 5 {[300 := mkTrace 300 [] 0]} ∅ None false true) + 1)
                    (<[300 := set_count 2 t]>
                       (traces (mkP [] 5 {[300 := mkTrace 300 [] 0]} ∅ None false true)))
                    (callSites (mkP [] 5 {[300 := mkTrace 300 [] 0]} ∅ None false true))
                    (currentTrace (mkP [] 5 {[300 := mkTrace 300 [] 0]} ∅ None false true))
                    false true)
    | None =>
        Fatal (lineNumber (mkP [] 5 {[300 := mkTrace 300 [] 0]} ∅ None false true) + 1)
              (NoSuchTrace 300)
    end.
Proof.
  apply (samples_row_sets_count (mkP [] 5 {[300 := mkTrace 300 [] 0]} ∅ None false true)
           (2%nat, "1"%string) (0%nat, "16.67%"%string) (0%nat, "16.67%"%string)
           (4%nat, "2"%string) (0%nat, "300"%string) (0%nat, "foo.bar"%string) 2 300);
    [reflexivity|reflexivity| |reflexivity|reflexivity].
  repeat (apply Forall_cons_2; [by split|]). apply Forall_nil_2.
Defined.

Lemma duplicate_trace_is_fatal_witness :
  ParseHProfFile (["TRACE 7:"; String tab "foo(Foo.java:10)"]%string
                  ++ ("TRACE " +:+ "7" +:+ ":") :: ["CPU SAMPLES END"%string])
    = Fatal (Z.of_nat (length ["TRACE 7:"; String tab "foo(Foo.java:10)"]%string) + 1)
            (DuplicateTrace 7).
Proof.
  apply (duplicate_trace_is_fatal ["TRACE 7:"; String tab "foo(Foo.java:10)"]%string
           ["CPU SAMPLES END"%string] "7" 7
           (mkP [mkCallSite "foo" "Foo.java" 10 0 0] 2 {[7 := mkTrace 7 [0%nat] 0]}
                {["foo(Foo.java:10)"%string := 0%nat]} (Some 7) true false)
           (mkTrace 7 [0%nat] 0));
    [vm_compute; reflexivity|reflexivity|done|reflexivity|reflexivity|reflexivity].
Defined.

End ParserFacts.

(** ** The filters and the edges of the aggregator *)

Module AggregatorFacts.
Import Main MainFacts.

Lemma byCount_asym (a b : Trace) :
  Reverse byCount_Less a b = true → Reverse byCount_Less b a = false.
Proof.
  unfold Reverse, byCount_Less. intros H. apply bool_decide_eq_true in H.
  apply bool_decide_eq_false. lia.
Qed.

Lemma byCount_negtrans (a b c : Trace) :
  Reverse byCount_Less a b = false → Reverse byCount_Less b c = false →
  Reverse byCount_Less a c = false.
Proof.
  unfold Reverse, byCount_Less. intros H1 H2.
  apply bool_decide_eq_false in H1, H2. apply bool_decide_eq_false. lia.
Qed.

(** X22: for [0 <= k <= len(traces)], [FilterTopK] leaves [k] traces of the
    set, and no trace it deletes has a larger count than a trace it
    leaves, whatever sort.Sort does with equal counts. *)
Theorem FilterTopK_keeps_largest (sort : sorter) (traces : list Trace) (k : Z) :
  sort_spec sort →
  0 <= k <= Z.of_nat (length traces) →
  ∃ kept dropped,
    FilterTopK sort traces k = Return kept ∧
    Z.of_nat (length kept) = k ∧
    kept ++ dropped ≡ₚ traces ∧
    ∀ a b, a ∈ kept → b ∈ dropped → TraceCount b <= TraceCount a.
Proof.
  intros Hsort Hk. unfold FilterTopK.
  destruct (Hsort Trace (Reverse byCount_Less) traces byCount_asym byCount_negtrans)
    as [Hperm Hsorted].
  set (sorted := sort Trace (Reverse byCount_Less) traces) in *.
  assert (Hlen : length sorted = length traces) by by rewrite Hperm.
  rewrite bool_decide_eq_true_2 by lia.
  exists (take (Z.to_nat k) sorted), (drop (Z.to_nat k) sorted). split_and!.
  - done.
  - rewrite length_take. lia.
  - by rewrite take_drop.
  - intros a b Ha Hb.
    apply list_elem_of_lookup in Ha as [i Hi], Hb as [j Hj].
    rewrite lookup_take_Some in Hi. destruct Hi as [Hi Hlt].
    rewrite lookup_drop in Hj.
    specialize (Hsorted i (Z.to_nat k + j)%nat a b ltac:(lia) Hi Hj).
    unfold Reverse, byCount_Less in Hsorted. apply bool_decide_eq_false in Hsorted. lia.
Qed.

Lemma FilterTopK_keeps_largest_witness :
  ∃ kept dropped,
    FilterTopK merge_sorter [mkTrace 1 [] 5; mkTrace 2 [] 9; mkTrace 3 [] 7] 2 = Return kept ∧
    Z.of_nat (length kept) = 2 ∧
    kept ++ dropped ≡ₚ [mkTrace 1 [] 5; mkTrace 2 [] 9; mkTrace 3 [] 7] ∧
    ∀ a b, a ∈ kept → b ∈ dropped → TraceCount b <= TraceCount a.
Proof.
  apply (FilterTopK_keeps_largest merge_sorter [mkTrace 1 [] 5; mkTrace 2 [] 9; mkTrace 3 [] 7] 2);
    [apply merge_sorter_spec|simpl; lia].
Defined.

Lemma FilterTopK_beyond (sort : sorter) (traces : list Trace) (k : Z) :
  sort_spec sort → Z.of_nat (length traces) < k →
  FilterTopK sort traces k = Panics (SliceBoundsOutOfRange k (Z.of_nat (length traces))).
Proof.
  intros Hsort Hk. unfold FilterTopK.
  destruct (Hsort Trace (Reverse byCount_Less) traces byCount_asym byCount_negtrans)
    as [Hperm _].
  assert (Hlen : length (sort Trace (Reverse byCount_Less) traces) = length traces)
    by by rewrite Hperm.
  rewrite Hlen. by rewrite bool_decide_eq_false_2 by lia.
Qed.


(** X30: [CountSum] is the sum of the counts of the set, as int wraps it,
    in whatever order the range visits the traces. *)
Theorem CountSum_any_order (traces visited : list Trace) :
  visited ≡ₚ traces → CountSum visited = wrap64 (sumZ (TraceCount <$> traces)).
Proof.
  intros Hperm. rewrite CountSum_sum. f_equal. apply sumZ_perm. by rewrite Hperm.
Qed.

Lemma CountSum_any_order_witness :
  CountSum [mkTrace 2 [1]%nat 3; mkTrace 1 [0; 1]%nat 5]
  = wrap64 (sumZ (TraceCount <$> example_traces)).
Proof.
  apply (CountSum_any_order example_traces [mkTrace 2 [1]%nat 3; mkTrace 1 [0; 1]%nat 5]).
  apply Permutation_swap.
Defined.

Lemma example_valid : valid_traces example_sites example_traces.
Proof.
  intros t sp Ht Hsp. unfold example_traces in Ht. cbn [example_sites length].
  repeat (apply elem_of_cons in Ht as [->|Ht]; [cbn [Stack] in Hsp|]);
    [..|by apply elem_of_nil in Ht];
    repeat (apply elem_of_cons in Hsp as [->|Hsp]; [lia|]); by apply elem_of_nil in Hsp.
Qed.




Lemma add_link_lookup c p q E k :
  add_link c p q E !! k =
    if decide (k = (p, q)) then Some (add64 (default 0 (E !! k)) c) else E !! k.
Proof.
  unfold add_link. case_decide as Hk.
  - subst k. by rewrite lookup_insert_eq.
  - by rewrite lookup_insert_ne.
Qed.






Lemma edge_weight_alter (f : Node → Node) (objs : list Node) (i n m : loc) :
  (∀ x, EdgeWeights (f x) = EdgeWeights x) →
  edge_weight (alter f i objs) n m = edge_weight objs n m.
Proof.
  intros Hf. unfold edge_weight. destruct (decide (i = n)) as [->|Hne].
  - rewrite list_lookup_alter_eq. destruct (objs !! n); cbn; [by rewrite Hf|done].
  - by rewrite list_lookup_alter_ne.
Qed.

Lemma back_link_alter (f : Node → Node) (objs : list Node) (i n m : loc) :
  (∀ x, BackLinks (f x) = BackLinks x) →
  back_link (alter f i objs) m n = back_link objs m n.
Proof.
  intros Hf. unfold back_link. destruct (decide (i = m)) as [->|Hne].
  - rewrite list_lookup_alter_eq. destruct (objs !! m); cbn; [by rewrite Hf|done].
  - by rewrite list_lookup_alter_ne.
Qed.

Lemma edge_weight_add_edge (objs : list Node) (node ch : loc) (c : Z) (n m : loc) :
  (node < length objs)%nat →
  edge_weight (alter (add_edge ch c) node objs) n m =
    if decide (n = node ∧ m = ch)
    then Some (add64 (default 0 (edge_weight objs node ch)) c)
    else edge_weight objs n m.
Proof.
  intros Hlt. apply lookup_lt_is_Some_2 in Hlt as [nd Hnd].
  unfold edge_weight. destruct (decide (n = node)) as [->|Hne].
  - rewrite list_lookup_alter_eq, Hnd. cbn.
    destruct (decide (m = ch)) as [->|Hm].
    + rewrite decide_True by done. by rewrite lookup_insert_eq.
    + rewrite decide_False by tauto. by rewrite lookup_insert_ne.
  - rewrite decide_False by tauto. by rewrite list_lookup_alter_ne.
Qed.

Lemma back_link_add_backlink (objs : list Node) (node ch : loc) (n m : loc) :
  (ch < length objs)%nat →
  back_link (alter (add_backlink node) ch objs) m n =
    if decide (n = node ∧ m = ch) then Some true else back_link objs m n.
Proof.
  intros Hlt. apply lookup_lt_is_Some_2 in Hlt as [nd Hnd].
  unfold back_link. destruct (decide (m = ch)) as [->|Hne].
  - rewrite list_lookup_alter_eq, Hnd. cbn.
    destruct (decide (n = node)) as [->|Hn].
    + rewrite decide_True by done. by rewrite lookup_insert_eq.
    + rewrite decide_False by tauto. by rewrite lookup_insert_ne.
  - rewrite decide_False by tauto. by rewrite list_lookup_alter_ne.
Qed.

Lemma site_alter (f : Node → Node) (objs : list Node) (i n : loc) :
  (∀ x, Node_CallSite (f x) = Node_CallSite x) →
  Node_CallSite <$> alter f i objs !! n = Node_CallSite <$> objs !! n.
Proof.
  intros Hf. destruct (decide (i = n)) as [->|Hne].
  - rewrite list_lookup_alter_eq. destruct (objs !! n); cbn; [by rewrite Hf|done].
  - by rewrite list_lookup_alter_ne.
Qed.

(** Allocating a node for a call site without one keeps the invariant. *)
Lemma en_inv_alloc sites objs nodes E sp :
  en_inv (mkCn sites objs nodes) E → nodes !! sp = None →
  en_inv (mkCn sites (objs ++ [mkNode sp None None]) (<[sp := length objs]> nodes)) E.
Proof.
  intros [Hn Hr He Hc Hb Hd] Hsp. cbn [cn_objs cn_nodes] in *.
  assert (Hlk : ∀ n nd, (objs ++ [mkNode sp None None]) !! n = Some nd →
            objs !! n = Some nd ∨ (n = length objs ∧ nd = mkNode sp None None)).
  { intros n nd H. apply lookup_app_Some in H as [H|[Hge H]]; [by left|right].
    destruct (n - length objs)%nat as [|k] eqn:Ek; cbn in H; [|done].
    injection H as <-. split; [lia|done]. }
  assert (Hew : ∀ n m, edge_weight (objs ++ [mkNode sp None None]) n m = edge_weight objs n m).
  { intros n m. unfold edge_weight.
    destruct ((objs ++ [mkNode sp None None]) !! n) as [nd|] eqn:E1.
    - destruct (Hlk n nd E1) as [H|[-> ->]]; [by rewrite H|].
      rewrite lookup_ge_None_2 by lia. done.
    - apply lookup_ge_None in E1. rewrite length_app in E1.
      rewrite lookup_ge_None_2 by lia. done. }
  assert (Hbl : ∀ n m, back_link (objs ++ [mkNode sp None None]) m n = back_link objs m n).
  { intros n m. unfold back_link.
    destruct ((objs ++ [mkNode sp None None]) !! m) as [nd|] eqn:E1.
    - destruct (Hlk m nd E1) as [H|[-> ->]]; [by rewrite H|].
      rewrite lookup_ge_None_2 by lia. done.
    - apply lookup_ge_None in E1. rewrite length_app in E1.
      rewrite lookup_ge_None_2 by lia. done. }
  assert (Hfresh : ∀ q, E !! (sp, q) = None ∧ E !! (q, sp) = None).
  { intros q. split; apply eq_None_not_Some; intros H; apply Hd in H as [[? H1] [? H2]];
      congruence. }
  split; unfold cn_inv in *; cbn [cn_objs cn_nodes] in *.
  - intros sp' node H. destruct (decide (sp = sp')) as [->|Hne].
    + rewrite lookup_insert_eq in H. injection H as <-.
      rewrite lookup_app_r, Nat.sub_diag by done. eauto.
    + rewrite lookup_insert_ne in H by done.
      destruct (Hn _ _ H) as (nd & Hnd & Hs). exists nd. split; [|done].
      by apply lookup_app_l_Some.
  - intros n nd H. destruct (Hlk n nd H) as [H'|[-> ->]].
    + rewrite lookup_insert_ne; [by apply Hr|]. intros Heq.
      rewrite Heq, (Hr n nd H') in Hsp. done.
    + cbn. apply lookup_insert_eq.
  - intros n m nd md H1 H2. rewrite Hew.
    destruct (Hlk n nd H1) as [H1'|[-> ->]], (Hlk m md H2) as [H2'|[-> ->]]; cbn.
    + by apply He.
    + rewrite (proj2 (Hfresh _)). unfold edge_weight. rewrite H1'. cbn.
      apply eq_None_not_Some. intros H.
      assert (is_Some (edge_weight objs n (length objs))) as Hs
        by (unfold edge_weight; by rewrite H1').
      apply Hc in Hs. lia.
    + rewrite (proj1 (Hfresh _)). unfold edge_weight. by rewrite lookup_ge_None_2 by lia.
    + rewrite (proj1 (Hfresh _)). unfold edge_weight. by rewrite lookup_ge_None_2 by lia.
  - intros n m. rewrite Hew, length_app. intros H. apply Hc in H. lia.
  - intros n m. rewrite Hew, Hbl. apply Hb.
  - intros p q H. destruct (Hd p q H) as [[a Ha] [b Hb']].
    split.
    + destruct (decide (sp = p)) as [->|]; [congruence|]. rewrite lookup_insert_ne by done. eauto.
    + destruct (decide (sp = q)) as [->|]; [congruence|]. rewrite lookup_insert_ne by done. eauto.
Qed.



(** Adding an edge between two nodes, with its back link, keeps the
    invariant, with the edge added between their call sites. *)
Lemma en_inv_link sites sites' objs nodes E sp q node ch c :
  en_inv (mkCn sites objs nodes) E →
  nodes !! sp = Some node → nodes !! q = Some ch →
  en_inv (mkCn sites' (alter (add_backlink node) ch (alter (add_edge ch c) node objs)) nodes)
         (add_link c sp q E).
Proof.
  intros [Hn Hr He Hc Hb Hd] Hsp Hq. unfold cn_inv in *. cbn [cn_objs cn_nodes] in *.
  destruct (Hn _ _ Hsp) as (ndN & HndN & HsN), (Hn _ _ Hq) as (ndC & HndC & HsC).
  assert (HltN : (node < length objs)%nat) by by eapply lookup_lt_Some.
  assert (HltC : (ch < length objs)%nat) by by eapply lookup_lt_Some.
  set (objs2 := alter (add_backlink node) ch (alter (add_edge ch c) node objs)).
  assert (Hsite : ∀ n, Node_CallSite <$> objs2 !! n = Node_CallSite <$> objs !! n).
  { intros n. unfold objs2. by rewrite !site_alter. }
  assert (Hold : ∀ n nd, objs2 !! n = Some nd →
            ∃ nd0, objs !! n = Some nd0 ∧ Node_CallSite nd0 = Node_CallSite nd).
  { intros n nd H. specialize (Hsite n). rewrite H in Hsite. cbn in Hsite.
    destruct (objs !! n) as [nd0|]; [|done]. injection Hsite as Hs. eauto. }
  assert (Hew : ∀ n m, edge_weight objs2 n m =
            if decide (n = node ∧ m = ch)
            then Some (add64 (default 0 (edge_weight objs node ch)) c)
            else edge_weight objs n m).
  { intros n m. unfold objs2. rewrite edge_weight_alter by done.
    by apply edge_weight_add_edge. }
  assert (Hbl : ∀ n m, back_link objs2 m n =
            if decide (n = node ∧ m = ch) then Some true else back_link objs m n).
  { intros n m. unfold objs2.
    rewrite back_link_add_backlink by (by rewrite length_alter).
    case_decide; [done|]. by apply back_link_alter. }
  assert (Hlen : length objs2 = length objs) by (unfold objs2; by rewrite !length_alter).
  split; unfold cn_inv; cbn [cn_objs cn_nodes].
  - intros sp' n' H. destruct (Hn _ _ H) as (nd0 & Hnd0 & Hs0).
    specialize (Hsite n'). rewrite Hnd0 in Hsite. cbn in Hsite.
    destruct (objs2 !! n') as [nd|]; [|done]. injection Hsite as Hs. exists nd. split; congruence.
  - intros n nd H. destruct (Hold n nd H) as (nd0 & Hnd0 & Hs0). rewrite <- Hs0. by apply Hr.
  - intros n m nd md H1 H2.
    destruct (Hold n nd H1) as (nd0 & Hnd0 & Hs0), (Hold m md H2) as (md0 & Hmd0 & Hs1).
    rewrite Hew, add_link_lookup, <- Hs0, <- Hs1.
    destruct (decide (n = node ∧ m = ch)) as [[-> ->]|Hne].
    + assert (nd0 = ndN) as -> by congruence. assert (md0 = ndC) as -> by congruence.
      rewrite HsN, HsC, decide_True by done.
      by rewrite (He node ch ndN ndC HndN HndC), HsN, HsC.
    + rewrite decide_False; [by apply He|].
      intros [= E1 E2]. apply Hne. split.
      * pose proof (Hr n nd0 Hnd0) as Hx. rewrite E1, Hsp in Hx. by injection Hx.
      * pose proof (Hr m md0 Hmd0) as Hx. rewrite E2, Hq in Hx. by injection Hx.
  - intros n m. rewrite Hew, Hlen. case_decide as Hd'; [destruct Hd' as [_ ->]; done|apply Hc].
  - intros n m. rewrite Hew, Hbl. case_decide; [done|apply Hb].
  - intros p q'. rewrite add_link_lookup. case_decide as Hk.
    + injection Hk as -> ->. eauto.
    + apply Hd.
Qed.

Lemma visit_edges c i sp child csite st E :
  en_inv st E → (sp < length (cn_sites st))%nat → child_of st child csite →
  ∃ st' node,
    visit c i sp child st = Return (st', Some node) ∧
    en_inv st' (match csite with Some q => add_link c sp q E | None => E end) ∧
    child_of st' (Some node) (Some sp) ∧
    length (cn_sites st') = length (cn_sites st).
Proof.
  intros Hinv Hsp Hchild. unfold visit.
  assert (Hcs : ∃ cs, cn_sites st !! sp = Some cs) by by apply lookup_lt_is_Some_2.
  destruct Hcs as [cs Hcs]. destruct st as [sites objs nodes]. cbn [cn_sites cn_objs cn_nodes] in *.
  assert (∃ node objs1 nodes1,
    match nodes !! sp with
    | Some node => (node, objs, nodes)
    | None => (length objs, objs ++ [mkNode sp None None], <[sp := length objs]> nodes)
    end = (node, objs1, nodes1) ∧
    en_inv (mkCn sites objs1 nodes1) E ∧ nodes1 !! sp = Some node ∧ nodes ⊆ nodes1)
    as (node & objs1 & nodes1 & -> & Hinv1 & Hnode & Hsub).
  { destruct (nodes !! sp) as [node|] eqn:E1.
    - eexists _, _, _. split; [done|]. split_and!; done.
    - eexists _, _, _. split; [done|]. split_and!.
      + by apply en_inv_alloc.
      + apply lookup_insert_eq.
      + by apply insert_subseteq. }
  destruct (en_nodes _ _ Hinv1 sp node Hnode) as (nd & Hnd & Hs). cbn [cn_objs] in Hnd.
  unfold deref. rewrite Hnd. cbn [mbind go_bind]. rewrite Hs, Hcs. cbn [mbind go_bind].
  eexists _, node. split; [reflexivity|].
  destruct child as [ch|], csite as [q|]; try done; cbn [child_of cn_nodes] in *.
  - split_and!; [|done|by cbn [cn_sites]; case_bool_decide; rewrite !length_alter].
    apply (en_inv_link sites); [done..|]. by eapply lookup_weaken.
  - split_and!; [|done|by cbn [cn_sites]; case_bool_decide; rewrite !length_alter].
    destruct Hinv1. by split.
Qed.

Lemma walk_edges c stack : ∀ i child csite st E,
  en_inv st E → (∀ sp, sp ∈ stack → (sp < length (cn_sites st))%nat) →
  child_of st child csite →
  ∃ st',
    walk c i stack child st = Return st' ∧
    en_inv st' (link_stack c stack csite E) ∧
    length (cn_sites st') = length (cn_sites st).
Proof.
  induction stack as [|sp rest IH]; intros i child csite st E Hinv Hvalid Hchild;
    cbn [walk link_stack].
  - by exists st.
  - destruct (visit_edges c i sp child csite st E Hinv) as (st1 & node & Hv & Hinv1 & Hch1 & Hlen);
      [apply Hvalid; set_solver|done|].
    rewrite Hv. cbn [mbind go_bind fst snd].
    destruct (IH (S i) (Some node) (Some sp) st1 _ Hinv1) as (st' & Hw & Hinv' & Hlen');
      [intros sp' Hin; rewrite Hlen; apply Hvalid; set_solver|done|].
    exists st'. split_and!; [done..|congruence].
Qed.

Lemma each_trace_edges traces : ∀ st E,
  en_inv st E → valid_traces (cn_sites st) traces →
  ∃ st', each_trace traces st = Return st' ∧ en_inv st' (link_traces traces E).
Proof.
  induction traces as [|t rest IH]; intros st E Hinv Hvalid; cbn [each_trace].
  - by exists st.
  - destruct (walk_edges (TraceCount t) (Stack t) 0%nat None None st E Hinv)
      as (st1 & Hw & Hinv1 & Hlen); [intros sp Hin; apply (Hvalid t); set_solver|done|].
    rewrite Hw. cbn [mbind go_bind].
    destruct (IH st1 _ Hinv1) as (st' & He & Hinv').
    { intros t' sp Ht' Hsp. rewrite Hlen. apply (Hvalid t'); [set_solver|done]. }
    exists st'. split; [done|]. exact Hinv'.
Qed.

Lemma en_inv_initial sites : en_inv (mkCn sites [] ∅) ∅.
Proof.
  split; cbn.
  - by intros sp node H.
  - by intros n nd H.
  - by intros n m nd md H.
  - intros n m [w H]. done.
  - done.
  - intros p q [w H]. done.
Qed.

Lemma CreateNodes_edges (sites : list CallSite) (traces : list Trace) :
  valid_traces sites traces →
  ∃ st, each_trace traces (mkCn sites [] ∅) = Return st ∧
        CreateNodes sites traces = Return (cn_sites st, cn_objs st, (map_to_list (cn_nodes st)).*2) ∧
        en_inv st (link_traces traces ∅).
Proof.
  intros Hvalid.
  destruct (each_trace_edges traces (mkCn sites [] ∅) ∅ (en_inv_initial sites) Hvalid)
    as (st & He & Hinv).
  exists st. split; [done|]. split; [|done]. unfold CreateNodes. by rewrite He.
Qed.


(** X25: in what [CreateNodes] returns, [m.BackLinks[n]] is set, to true,
    exactly when [n] has an edge to [m], and both ends of an edge are in the
    node list. *)
Theorem CreateNodes_links_closed (sites : list CallSite) (traces : list Trace) :
  valid_traces sites traces →
  ∃ sites' objs nodeList,
    CreateNodes sites traces = Return (sites', objs, nodeList) ∧
    ∀ n m,
      back_link objs m n = (λ _, true) <$> edge_weight objs n m ∧
      (is_Some (edge_weight objs n m) → n ∈ nodeList ∧ m ∈ nodeList).
Proof.
  intros Hvalid. destruct (CreateNodes_edges sites traces Hvalid) as (st & _ & HC & Hinv).
  eexists _, _, _. split; [exact HC|].
  intros n m. split; [apply (en_back _ _ Hinv)|].
  intros Hs.
  assert (∀ k, (k < length (cn_objs st))%nat → k ∈ (map_to_list (cn_nodes st)).*2) as Hin.
  { intros k Hk. apply lookup_lt_is_Some_2 in Hk as [nd Hnd].
    apply (en_registered _ _ Hinv) in Hnd.
    apply list_elem_of_fmap. exists (Node_CallSite nd, k). split; [done|].
    by apply elem_of_map_to_list. }
  split; apply Hin.
  - destruct Hs as [w Hw]. unfold edge_weight in Hw.
    destruct (cn_objs st !! n) eqn:E; [|done]. by eapply lookup_lt_Some.
  - by apply (en_closed _ _ Hinv n m).
Qed.



Lemma CreateNodes_links_closed_witness :
  ∃ sites' objs nodeList,
    CreateNodes example_sites example_traces = Return (sites', objs, nodeList) ∧
    ∀ n m,
      back_link objs m n = (λ _, true) <$> edge_weight objs n m ∧
      (is_Some (edge_weight objs n m) → n ∈ nodeList ∧ m ∈ nodeList).
Proof. apply (CreateNodes_links_closed example_sites example_traces example_valid). Defined.

Import Os Cli.

(** X23: with a [-topk] larger than the number of traces of the profile
    (and no [-regex]), [main] panics in [FilterTopK], on the slice
    [orderedTraces[k:]], after it has read the input and before it prints
    or creates anything. *)
Theorem topk_beyond_traces_panics (sort : sorter) (w : world) (f : flags)
    (input output : string) (lines : list string)
    (sites : list CallSite) (byID : gmap Z Trace) :
  sort_spec sort →
  regex f = EmptyString → args f = [input; output] →
  files w input = Some lines →
  Hprof.ParseHProfFile lines = Hprof.Parsed (sites, byID) →
  Z.of_nat (size byID) < topk f →
  main sort w f =
    Stopped [OpenInput input]
            (Panicked (SliceBoundsOutOfRange (topk f) (Z.of_nat (size byID)))).
Proof.
  intros Hsort Hre Hargs Hfile Hparse Hk. unfold main.
  rewrite Hre, Hargs. cbn [String.eqb negb andb length lookup list_lookup from_option Datatypes.id].
  rewrite andb_false_r. rewrite (bool_decide_eq_true_2 (2 = 2)%nat) by done. cbn [negb].
  unfold ParseHProfFile. cbn [mbind io_bind emit]. rewrite Hfile, Hparse.
  rewrite (bool_decide_eq_true_2 (0 < topk f)) by lia.
  cbn [mbind io_bind app].
  rewrite FilterTopK_beyond; [|done|].
  2:{ rewrite length_fmap, length_map_to_list. done. }
  cbn. by rewrite length_fmap, length_map_to_list.
Qed.

Lemma topk_beyond_traces_panics_witness :
  main merge_sorter
       (mkWorld (λ _, Some ["TRACE 1:"]%string) (λ _, None) (λ _, true) (λ _, true))
       (mkFlags 5 "" ["in.txt"; "out.dot"]%string) =
    Stopped [OpenInput "in.txt"]
            (Panicked (SliceBoundsOutOfRange
               (topk (mkFlags 5 "" ["in.txt"; "out.dot"]%string))
               (Z.of_nat (size ({[1 := mkTrace 1 [] 0]} : gmap Z Trace))))).
Proof.
  apply (topk_beyond_traces_panics merge_sorter _ _ "in.txt" "out.dot" ["TRACE 1:"]%string []
           {[1 := mkTrace 1 [] 0]});
    [apply merge_sorter_spec|reflexivity|reflexivity|reflexivity|vm_compute; reflexivity
    |vm_compute; reflexivity].
Defined.

End AggregatorFacts.

(** ** The graph of [WriteDotFormat] *)

Module DotFacts.
Import Main MainFacts AggregatorFacts Dot.

Section graph.
Variable look : loc → option view.

Lemma read_Return n v : read look n = Return v ↔ look n = Some v.
Proof. unfold read. destruct (look n); split; congruence. Qed.

Lemma dot_nodes_returns (nodes : list loc) : ∀ num tbl acc,
  (∀ n, n ∈ nodes → is_Some (look n)) →
  ∃ tbl' acc',
    dot_nodes look nodes num tbl acc = Return (tbl', acc') ∧
    dom tbl' = list_to_set nodes ∪ dom tbl.
Proof.
  induction nodes as [|node rest IH]; intros num tbl acc Hall; cbn [dot_nodes].
  - eexists _, _. split; [done|]. set_solver.
  - destruct (Hall node) as [v Hv]; [set_solver|].
    unfold read. rewrite Hv. cbn [mbind go_bind].
    destruct (IH (num + 1) (<[node := mkDotNode num (label v)]> tbl)
                 (acc ++ [mkDotNode num (label v)])) as (tbl' & acc' & Hr & Hd).
    { intros n Hn. apply Hall. set_solver. }
    eexists _, _. split; [exact Hr|]. rewrite Hd, dom_insert_L. set_solver.
Qed.

Lemma dot_nodes_readable (nodes : list loc) : ∀ num tbl acc r,
  dot_nodes look nodes num tbl acc = Return r →
  ∀ n, n ∈ nodes → is_Some (look n).
Proof.
  induction nodes as [|node rest IH]; intros num tbl acc r H n Hn; cbn [dot_nodes] in H.
  - by apply elem_of_nil in Hn.
  - unfold read in H. destruct (look node) as [v|] eqn:Hv; [|done]. cbn [mbind go_bind] in H.
    apply elem_of_cons in Hn as [->|Hn]; [by rewrite Hv|]. by eapply IH.
Qed.

Lemma node_edges_returns (tbl : gmap loc DotNode) (node : loc) (entries : list (loc * Z)) :
  node ∈ dom tbl →
  (∃ es, node_edges tbl node entries = Return es) ↔ ∀ cw, cw ∈ entries → cw.1 ∈ dom tbl.
Proof.
  intros Hnode. apply elem_of_dom in Hnode as [d Hd].
  induction entries as [|[child weight] rest IH]; cbn [node_edges].
  - split; [intros _ cw Hcw; by apply elem_of_nil in Hcw|eauto].
  - split.
    + intros [es H] cw Hcw. unfold num_of in H. rewrite Hd in H. cbn [mbind go_bind] in H.
      destruct (tbl !! child) as [d2|] eqn:Hc; [|done].
      cbn [mbind go_bind] in H.
      apply elem_of_cons in Hcw as [->|Hcw]; [by apply elem_of_dom|].
      apply IH; [|done]. destruct (node_edges tbl node rest); [eauto|done].
    + intros Hall.
      assert (child ∈ dom tbl) as [d2 Hd2]%elem_of_dom
        by (apply (Hall (child, weight)); set_solver).
      unfold num_of. rewrite Hd, Hd2. cbn [mbind go_bind].
      destruct (proj2 IH) as [es Hes]; [intros cw Hcw; apply Hall; set_solver|].
      rewrite Hes. cbn. eauto.
Qed.

Lemma dot_edges_returns (tbl : gmap loc DotNode) (nodes : list loc) :
  (∀ n, n ∈ nodes → n ∈ dom tbl) →
  (∃ es, dot_edges look tbl nodes = Return es) ↔
  ∀ n, n ∈ nodes →
    ∃ v, look n = Some v ∧
         ∀ child, is_Some (default ∅ (v_EdgeWeights v) !! child) → child ∈ dom tbl.
Proof.
  induction nodes as [|node rest IH]; intros Hdom; cbn [dot_edges].
  - split; [intros _ n Hn; by apply elem_of_nil in Hn|eauto].
  - assert (Hrest : ∀ n, n ∈ rest → n ∈ dom tbl) by (intros n Hn; apply Hdom; set_solver).
    specialize (IH Hrest).
    assert (Hnode : node ∈ dom tbl) by (apply Hdom; set_solver).
    assert (Hentries : ∀ v,
      (∀ cw, cw ∈ map_to_list (default ∅ (v_EdgeWeights v)) → cw.1 ∈ dom tbl) ↔
      ∀ child, is_Some (default ∅ (v_EdgeWeights v) !! child) → child ∈ dom tbl).
    { intros v. split.
      - intros H child [w Hw]. apply (H (child, w)). by apply elem_of_map_to_list.
      - intros H [child w] Hcw. apply elem_of_map_to_list in Hcw. apply H. eauto. }
    split.
    + intros [es H] n Hn. unfold read in H. destruct (look node) as [v|] eqn:Hv; [|done].
      cbn [mbind go_bind] in H.
      destruct (node_edges tbl node _) as [es1|] eqn:E1; [|done]. cbn [mbind go_bind] in H.
      destruct (dot_edges look tbl rest) as [es2|] eqn:E2; [|done].
      apply elem_of_cons in Hn as [->|Hn].
      * exists v. split; [done|]. apply Hentries.
        apply (node_edges_returns tbl node _ Hnode). eauto.
      * apply IH; [eauto|done].
    + intros Hall. destruct (Hall node) as (v & Hv & Hc); [set_solver|].
      unfold read. rewrite Hv. cbn [mbind go_bind].
      destruct (proj2 (node_edges_returns tbl node
                  (map_to_list (default ∅ (v_EdgeWeights v))) Hnode)) as [es1 H1];
        [by apply Hentries|].
      rewrite H1. cbn [mbind go_bind].
      destruct (proj2 IH) as [es2 H2]; [intros n Hn; apply Hall; set_solver|].
      rewrite H2. cbn. eauto.
Qed.

(** The graph construction returns exactly on the lists that are
    [closed]. *)
Lemma build_graph_returns (filename : string) (nodes : list loc) :
  (∃ g, build_graph look filename nodes = Return g) ↔ closed look nodes.
Proof.
  unfold build_graph, closed. split.
  - intros [g H].
    destruct (dot_nodes look nodes 1 ∅ []) as [[tbl acc]|] eqn:E; [|done].
    cbn [mbind go_bind fst snd] in H.
    pose proof (dot_nodes_readable nodes 1 ∅ [] _ E) as Hread.
    destruct (dot_nodes_returns nodes 1 ∅ [] Hread) as (tbl' & acc' & E' & Hdom).
    rewrite E in E'. injection E' as <- <-.
    destruct (dot_edges look tbl nodes) as [es|] eqn:E2; [|done].
    intros n Hn.
    destruct (proj1 (dot_edges_returns tbl nodes ltac:(set_solver)) (ex_intro _ es E2) n Hn)
      as (v & Hv & Hc).
    exists v. split; [done|]. intros child Hchild. specialize (Hc child Hchild). set_solver.
  - intros Hclosed.
    destruct (dot_nodes_returns nodes 1 ∅ []) as (tbl & acc & E & Hdom).
    { intros n Hn. destruct (Hclosed n Hn) as (v & Hv & _). eauto. }
    rewrite E. cbn [mbind go_bind fst snd].
    destruct (proj2 (dot_edges_returns tbl nodes ltac:(set_solver))) as [es E2].
    { intros n Hn. destruct (Hclosed n Hn) as (v & Hv & Hc). exists v. split; [done|].
      intros child Hchild. specialize (Hc child Hchild). set_solver. }
    rewrite E2. cbn. eauto.
Qed.

(** X26: the graph construction of [WriteDotFormat] returns exactly when
    every node of the list can be read (it is not nil) and every edge of
    such a node leads to a node of the list; on any other list it
    panics. *)
Theorem build_graph_returns_iff (filename : string) (nodes : list loc) :
  (∃ g, build_graph look filename nodes = Return g) ↔
  ∀ n, n ∈ nodes →
    ∃ v, look n = Some v ∧
         ∀ child, is_Some (default ∅ (v_EdgeWeights v) !! child) → child ∈ nodes.
Proof. apply build_graph_returns. Qed.

Lemma dot_nodes_spec (nodes : list loc) : ∀ num tbl acc tbl' acc',
  NoDup nodes →
  dot_nodes look nodes num tbl acc = Return (tbl', acc') →
  length acc' = (length acc + length nodes)%nat ∧
  (∀ k d, acc !! k = Some d → acc' !! k = Some d) ∧
  (∀ n, n ∉ nodes → tbl' !! n = tbl !! n) ∧
  ∀ (i : nat) n, nodes !! i = Some n →
    ∃ v, look n = Some v ∧
         acc' !! (length acc + i)%nat = Some (mkDotNode (num + Z.of_nat i) (label v)) ∧
         tbl' !! n = Some (mkDotNode (num + Z.of_nat i) (label v)).
Proof.
  induction nodes as [|node rest IH]; intros num tbl acc tbl' acc' Hnd H; cbn [dot_nodes] in H.
  - injection H as <- <-. cbn [length]. split_and!; [lia|done..|].
    intros i n Hi. by rewrite lookup_nil in Hi.
  - apply NoDup_cons in Hnd as [Hnotin Hnd].
    unfold read in H. destruct (look node) as [v|] eqn:Hv; [|done]. cbn [mbind go_bind] in H.
    destruct (IH _ _ _ _ _ Hnd H) as (Hlen & Hacc & Htbl & Hnodes).
    rewrite length_app in Hlen. cbn [length] in *.
    split_and!.
    + lia.
    + intros k d Hk. apply Hacc. by apply lookup_app_l_Some.
    + intros n Hn. apply not_elem_of_cons in Hn as [Hne Hn].
      rewrite (Htbl n Hn). by rewrite lookup_insert_ne.
    + intros [|i] n Hi; cbn in Hi.
      * injection Hi as <-. exists v. split; [done|].
        rewrite Nat.add_0_r, Z.add_0_r. split.
        -- apply Hacc. rewrite lookup_app_r, Nat.sub_diag by done. done.
        -- rewrite (Htbl node Hnotin). apply lookup_insert_eq.
      * destruct (Hnodes i n Hi) as (v' & Hv' & Ha & Ht). exists v'. split; [done|].
        rewrite length_app in Ha. cbn [length] in Ha.
        replace (length acc + S i)%nat with (length acc + 1 + i)%nat by lia.
        replace (num + Z.of_nat (S i)) with (num + 1 + Z.of_nat i) by lia. done.
Qed.

Lemma node_edges_spec (tbl : gmap loc DotNode) (node : loc) (entries : list (loc * Z)) :
  ∀ es, node_edges tbl node entries = Return es →
  Forall2 (λ e cw, ∃ d1 d2, tbl !! node = Some d1 ∧ tbl !! cw.1 = Some d2 ∧
                     e = mkDotEdge (Num d1) (Num d2) (Itoa cw.2)) es entries.
Proof.
  induction entries as [|[child weight] rest IH]; intros es H; cbn [node_edges] in H.
  - injection H as <-. constructor.
  - unfold num_of in H. destruct (tbl !! node) as [d1|] eqn:H1; [|done].
    cbn [mbind go_bind] in H. destruct (tbl !! child) as [d2|] eqn:H2; [|done].
    cbn [mbind go_bind] in H. destruct (node_edges tbl node rest) as [es'|] eqn:E; [|done].
    cbn in H. injection H as <-. constructor; [|by apply IH]. by exists d1, d2.
Qed.

Lemma dot_edges_spec (tbl : gmap loc DotNode) (nodes : list loc) :
  ∀ es, dot_edges look tbl nodes = Return es →
  ∀ e, e ∈ es ↔
    ∃ n v child w d1 d2,
      n ∈ nodes ∧ look n = Some v ∧ default ∅ (v_EdgeWeights v) !! child = Some w ∧
      tbl !! n = Some d1 ∧ tbl !! child = Some d2 ∧
      e = mkDotEdge (Num d1) (Num d2) (Itoa w).
Proof.
  induction nodes as [|node rest IH]; intros es H e; cbn [dot_edges] in H.
  - injection H as <-. split; [by intros ?%elem_of_nil|].
    intros (n & ? & ? & ? & ? & ? & Hn & _). by apply elem_of_nil in Hn.
  - unfold read in H. destruct (look node) as [v|] eqn:Hv; [|done]. cbn [mbind go_bind] in H.
    destruct (node_edges tbl node _) as [es1|] eqn:E1; [|done]. cbn [mbind go_bind] in H.
    destruct (dot_edges look tbl rest) as [es2|] eqn:E2; [|done]. cbn in H. injection H as <-.
    pose proof (node_edges_spec tbl node _ es1 E1) as HF.
    rewrite elem_of_app, (IH es2 eq_refl e). split.
    + intros [He|(n & v' & c & w & d1 & d2 & Hn & Hrest)].
      * apply list_elem_of_lookup in He as [k Hk].
        destruct (Forall2_lookup_l _ _ _ _ _ HF Hk) as ([c w] & Hcw & d1 & d2 & H1 & H2 & ->).
        apply list_elem_of_lookup_2, elem_of_map_to_list in Hcw.
        exists node, v, c, w, d1, d2. split_and!; [set_solver|done..].
      * exists n, v', c, w, d1, d2. split; [set_solver|done].
    + intros (n & v' & c & w & d1 & d2 & Hn & Hlook & Hw & H1 & H2 & ->).
      apply elem_of_cons in Hn as [->|Hn].
      * left. rewrite Hv in Hlook. injection Hlook as <-.
        apply elem_of_map_to_list, list_elem_of_lookup in Hw as [k Hk].
        destruct (Forall2_lookup_r _ _ _ _ _ HF Hk) as (e & He & d1' & d2' & H1' & H2' & ->).
        cbn [fst snd] in *. rewrite H1 in H1'. rewrite H2 in H2'.
        injection H1' as <-. injection H2' as <-. by eapply list_elem_of_lookup_2.
      * right. exists n, v', c, w, d1, d2. done.
Qed.

(** X27: the graph that [WriteDotFormat] builds on a list of distinct
    nodes. The node at position [i] has the number [i + 1] and its label;
    the edges are those of the nodes of the list, each between the numbers
    of its two ends and labelled with its weight in decimal. *)
Theorem build_graph_shape (filename : string) (nodes : list loc) (g : DotGraph) :
  NoDup nodes →
  build_graph look filename nodes = Return g →
  Graph_Filename g = filename ∧
  length (Nodes g) = length nodes ∧
  (∀ (i : nat) n, nodes !! i = Some n →
     ∃ v, look n = Some v ∧ Nodes g !! i = Some (mkDotNode (Z.of_nat i + 1) (label v))) ∧
  ∀ e, e ∈ Edges g ↔
    ∃ (i j : nat) n m v w,
      nodes !! i = Some n ∧ nodes !! j = Some m ∧ look n = Some v ∧
      default ∅ (v_EdgeWeights v) !! m = Some w ∧
      e = mkDotEdge (Z.of_nat i + 1) (Z.of_nat j + 1) (Itoa w).
Proof.
  intros Hnd H. unfold build_graph in H.
  destruct (dot_nodes look nodes 1 ∅ []) as [[tbl acc]|] eqn:E; [|done].
  cbn [mbind go_bind fst snd] in H.
  destruct (dot_edges look tbl nodes) as [es|] eqn:E2; [|done]. cbn in H. injection H as <-.
  cbn [Graph_Filename Nodes Edges].
  destruct (dot_nodes_spec nodes 1 ∅ [] tbl acc Hnd E) as (Hlen & _ & Hout & Hin).
  cbn [length Nat.add] in Hlen, Hin.
  assert (Htbl : ∀ n d, tbl !! n = Some d →
            ∃ i : nat, nodes !! i = Some n ∧ Num d = Z.of_nat i + 1).
  { intros n d Hd. destruct (decide (n ∈ nodes)) as [Hn|Hn].
    - apply list_elem_of_lookup in Hn as [i Hi]. destruct (Hin i n Hi) as (v & _ & _ & Ht).
      rewrite Hd in Ht. injection Ht as ->. exists i. split; [done|]. cbn. lia.
    - rewrite (Hout n Hn), lookup_empty in Hd. done. }
  split_and!; [done..| |].
  - intros i n Hi. destruct (Hin i n Hi) as (v & Hv & Ha & _). exists v. split; [done|].
    rewrite Ha. do 2 f_equal. lia.
  - intros e. rewrite (dot_edges_spec tbl nodes es E2 e). split.
    + intros (n & v & c & w & d1 & d2 & Hn & Hv & Hw & H1 & H2 & ->).
      destruct (Htbl n d1 H1) as (i & Hi & ->), (Htbl c d2 H2) as (j & Hj & ->).
      by exists i, j, n, c, v, w.
    + intros (i & j & n & m & v & w & Hi & Hj & Hv & Hw & ->).
      destruct (Hin i n Hi) as (v1 & _ & _ & H1), (Hin j m Hj) as (v2 & _ & _ & H2).
      eexists n, v, m, w, _, _. split_and!; [by eapply list_elem_of_lookup_2|done..|].
      cbn. f_equal; lia.
Qed.

End graph.

Lemma build_graph_shape_witness :
  Graph_Filename (mkDotGraph "in.txt"
                    [mkDotNode 1 "(5) foo[Foo.java:10]"; mkDotNode 2 "(5) bar[Bar.java:???]"]
                    [mkDotEdge 1 2 "5"]) = "in.txt"%string ∧
  length (Nodes (mkDotGraph "in.txt"
                   [mkDotNode 1 "(5) foo[Foo.java:10]"; mkDotNode 2 "(5) bar[Bar.java:???]"]
                   [mkDotEdge 1 2 "5"])) = length [0; 1]%nat ∧
  (∀ (i : nat) n, [0; 1]%nat !! i = Some n →
     ∃ v, example_look n = Some v ∧
          Nodes (mkDotGraph "in.txt"
                   [mkDotNode 1 "(5) foo[Foo.java:10]"; mkDotNode 2 "(5) bar[Bar.java:???]"]
                   [mkDotEdge 1 2 "5"]) !! i
          = Some (mkDotNode (Z.of_nat i + 1) (label v))) ∧
  ∀ e, e ∈ Edges (mkDotGraph "in.txt"
                    [mkDotNode 1 "(5) foo[Foo.java:10]"; mkDotNode 2 "(5) bar[Bar.java:???]"]
                    [mkDotEdge 1 2 "5"]) ↔
    ∃ (i j : nat) n m v w,
      [0; 1]%nat !! i = Some n ∧ [0; 1]%nat !! j = Some m ∧ example_look n = Some v ∧
      default ∅ (v_EdgeWeights v) !! m = Some w ∧
      e = mkDotEdge (Z.of_nat i + 1) (Z.of_nat j + 1) (Itoa w).
Proof.
  apply (build_graph_shape example_look "in.txt" [0; 1]%nat).
  - repeat (apply NoDup_cons_2; [set_solver|]). apply NoDup_nil_2.
  - vm_compute. reflexivity.
Defined.


Lemma stack_sites_valid sites traces sp :
  valid_traces sites traces → sp ∈ stack_sites traces → (sp < length sites)%nat.
Proof.
  intros Hv Hsp. unfold stack_sites in Hsp.
  apply elem_of_union_list in Hsp as (X & HX & Hsp).
  apply list_elem_of_fmap in HX as (t & -> & Ht).
  apply elem_of_list_to_set in Hsp. by apply (Hv t).
Qed.

(** X28: [CreateNodes] then [WriteDotFormat]: on the nodes that
    [CreateNodes] returns, in any order, the graph construction returns; it
    never finds a nil node nor an edge that leaves the list. *)
Theorem CreateNodes_graph_returns (sites : list CallSite) (traces : list Trace)
    (filename : string) :
  valid_traces sites traces →
  ∃ sites' objs nodeList,
    CreateNodes sites traces = Return (sites', objs, nodeList) ∧
    ∀ nodes, nodes ≡ₚ nodeList →
      ∃ g, build_graph (main_view sites' objs) filename nodes = Return g.
Proof.
  intros Hvalid.
  destruct (CreateNodes_edges sites traces Hvalid) as (st & He & HC & Hinv).
  destruct (each_trace_spec traces (mkCn sites [] ∅) (cn_inv_initial sites) Hvalid)
    as (st' & He' & Hs & _ & Hdom).
  rewrite He in He'. injection He' as <-. cbn [cn_sites cn_nodes] in Hs, Hdom.
  rewrite dom_empty_L, (right_id_L ∅ (∪)) in Hdom.
  eexists _, _, _. split; [exact HC|].
  intros nodes Hperm. apply build_graph_returns. intros n Hn.
  rewrite Hperm in Hn. apply list_elem_of_fmap in Hn as ([sp n'] & -> & Hin).
  apply elem_of_map_to_list in Hin. cbn [snd].
  destruct (en_nodes _ _ Hinv sp n' Hin) as (nd & Hnd & Hsite).
  assert (sp < length (cn_sites st))%nat as Hlt.
  { rewrite Hs. unfold bump_traces.
    assert (∀ l s, length (foldl (λ s t, bump_stack (TraceCount t) 0 (Stack t) s) s l)
                   = length s) as Hlen.
    { induction l as [|t l IH]; intros s; cbn [foldl]; [done|].
      by rewrite IH, bump_stack_length. }
    rewrite Hlen. apply (stack_sites_valid sites traces); [done|].
    rewrite <- Hdom. by apply elem_of_dom. }
  apply lookup_lt_is_Some_2 in Hlt as [cs Hcs].
  unfold main_view. rewrite Hnd. cbn [mbind option_bind]. rewrite Hsite, Hcs.
  cbn [mbind option_bind]. eexists. split; [done|]. cbn [v_EdgeWeights].
  intros child Hchild.
  assert (is_Some (edge_weight (cn_objs st) n' child)) as Hew
    by (unfold edge_weight; by rewrite Hnd).
  apply (en_closed _ _ Hinv) in Hew. apply lookup_lt_is_Some_2 in Hew as [cnd Hcnd].
  rewrite Hperm. apply list_elem_of_fmap. exists (Node_CallSite cnd, child). split; [done|].
  apply elem_of_map_to_list. by apply (en_registered _ _ Hinv).
Qed.

Lemma CreateNodes_graph_returns_witness :
  ∃ sites' objs nodeList,
    CreateNodes example_sites example_traces = Return (sites', objs, nodeList) ∧
    ∀ nodes, nodes ≡ₚ nodeList →
      ∃ g, build_graph (main_view sites' objs) "in.txt" nodes = Return g.
Proof.
  apply (CreateNodes_graph_returns example_sites example_traces "in.txt"
           AggregatorFacts.example_valid).
Defined.

End DotFacts.

(** ** The pipeline of the variant with [-keep] *)

Module KeepGraphFacts.
Import Main Keep KeepFacts Dot DotFacts.
Lemma kn_inv_alloc objs nodes sp :
  kn_inv (Keep.mkCn objs nodes) → nodes !! sp = None →
  kn_inv (Keep.mkCn (objs ++ [Keep.mkNode sp 0 None]) (<[sp := length objs]> nodes)).
Proof.
  intros [Hn Hr Hc] Hsp. cbn [Keep.cn_objs Keep.cn_nodes] in *.
  assert (Hlk : ∀ n nd, (objs ++ [Keep.mkNode sp 0 None]) !! n = Some nd →
            objs !! n = Some nd ∨ (n = length objs ∧ nd = Keep.mkNode sp 0 None)).
  { intros n nd H. apply lookup_app_Some in H as [H|[Hge H]]; [by left|right].
    destruct (n - length objs)%nat as [|k] eqn:Ek; cbn in H; [|done].
    injection H as <-. split; [lia|done]. }
  split; cbn [Keep.cn_objs Keep.cn_nodes].
  - intros sp' node H. destruct (decide (sp = sp')) as [->|Hne].
    + rewrite lookup_insert_eq in H. injection H as <-.
      rewrite lookup_app_r, Nat.sub_diag by done. eauto.
    + rewrite lookup_insert_ne in H by done.
      destruct (Hn _ _ H) as (nd & Hnd & Hs). exists nd. split; [|done].
      by apply lookup_app_l_Some.
  - intros n nd H. destruct (Hlk n nd H) as [H'|[-> ->]].
    + rewrite lookup_insert_ne; [by apply Hr|]. intros Heq.
      rewrite Heq, (Hr n nd H') in Hsp. done.
    + cbn. apply lookup_insert_eq.
  - intros n nd c H Hs. rewrite length_app. destruct (Hlk n nd H) as [H'|[-> ->]].
    + specialize (Hc n nd c H' Hs). lia.
    + cbn in Hs. rewrite lookup_empty in Hs. by destruct Hs.
Qed.

Lemma kn_inv_update objs nodes node c (child : option loc) :
  kn_inv (Keep.mkCn objs nodes) →
  (∀ ch, child = Some ch → (ch < length objs)%nat) →
  kn_inv (Keep.mkCn
            (match child with
             | Some ch => alter (Keep.add_edge ch c) node (alter (Keep.add_Count c) node objs)
             | None => alter (Keep.add_Count c) node objs
             end) nodes).
Proof.
  intros [Hn Hr Hc] Hch. cbn [Keep.cn_objs Keep.cn_nodes] in *.
  set (objs2 := match child with Some ch => _ | None => _ end).
  assert (Hlen : length objs2 = length objs).
  { unfold objs2. destruct child; by rewrite !length_alter. }
  assert (Hold : ∀ n nd, objs2 !! n = Some nd →
    ∃ nd0, objs !! n = Some nd0 ∧ Keep.Node_CallSite nd0 = Keep.Node_CallSite nd ∧
      ∀ k, is_Some (default ∅ (Keep.EdgeWeights nd) !! k) →
           is_Some (default ∅ (Keep.EdgeWeights nd0) !! k) ∨ child = Some k).
  { intros n nd H. unfold objs2 in H. destruct child as [ch|].
    - destruct (decide (n = node)) as [->|Hne].
      + rewrite !list_lookup_alter_eq in H. destruct (objs !! node) as [nd0|]; [|done].
        cbn in H. injection H as <-. exists nd0. split; [done|]. split; [done|].
        intros k. cbn. destruct (decide (k = ch)) as [->|Hk]; [by right|].
        rewrite lookup_insert_ne by done. by left.
      + rewrite !list_lookup_alter_ne in H by done. exists nd. eauto.
    - destruct (decide (n = node)) as [->|Hne].
      + rewrite list_lookup_alter_eq in H. destruct (objs !! node) as [nd0|]; [|done].
        cbn in H. injection H as <-. exists nd0. split; [done|]. split; [done|]. by left.
      + rewrite list_lookup_alter_ne in H by done. exists nd. eauto. }
  assert (Hnew : ∀ n nd0, objs !! n = Some nd0 →
    ∃ nd, objs2 !! n = Some nd ∧ Keep.Node_CallSite nd = Keep.Node_CallSite nd0).
  { intros n nd0 H. assert (is_Some (objs2 !! n)) as [nd Hnd].
    { apply lookup_lt_is_Some. rewrite Hlen. by eapply lookup_lt_Some. }
    exists nd. split; [done|]. destruct (Hold n nd Hnd) as (nd0' & H' & Hs & _). congruence. }
  split; cbn [Keep.cn_objs Keep.cn_nodes].
  - intros sp node' H. destruct (Hn _ _ H) as (nd0 & Hnd0 & Hs).
    destruct (Hnew _ _ Hnd0) as (nd & Hnd & Hs'). exists nd. split; [done|congruence].
  - intros n nd H. destruct (Hold n nd H) as (nd0 & Hnd0 & Hs & _). rewrite <- Hs. by apply Hr.
  - intros n nd k H Hk. rewrite Hlen. destruct (Hold n nd H) as (nd0 & Hnd0 & _ & He).
    destruct (He k Hk) as [Hk'|Hk'].
    + by apply (Hc n nd0).
    + by apply Hch.
Qed.

Lemma visit_kn c sp child st :
  kn_inv st → (∀ ch, child = Some ch → (ch < length (Keep.cn_objs st))%nat) →
  ∃ st' node,
    Keep.visit c sp child st = (st', Some node) ∧ kn_inv st' ∧
    (node < length (Keep.cn_objs st'))%nat.
Proof.
  intros Hinv Hch. unfold Keep.visit. destruct st as [objs nodes].
  cbn [Keep.cn_objs Keep.cn_nodes] in *.
  destruct (nodes !! sp) as [node|] eqn:E.
  - eexists _, node. split; [reflexivity|]. split.
    + by apply kn_inv_update.
    + cbn. destruct (kn_nodes _ Hinv sp node E) as (nd & Hnd & _). cbn in Hnd.
      apply lookup_lt_Some in Hnd. destruct child; by rewrite !length_alter.
  - eexists _, (length objs). split; [reflexivity|]. split.
    + apply kn_inv_update; [by apply kn_inv_alloc|].
      intros ch Hc. rewrite length_app. specialize (Hch ch Hc). lia.
    + cbn. destruct child; rewrite !length_alter, length_app; cbn; lia.
Qed.

Lemma walk_kn c stack : ∀ child st,
  kn_inv st → (∀ ch, child = Some ch → (ch < length (Keep.cn_objs st))%nat) →
  kn_inv (Keep.walk c stack child st).
Proof.
  induction stack as [|sp rest IH]; intros child st Hinv Hch; cbn [Keep.walk]; [done|].
  destruct (visit_kn c sp child st Hinv Hch) as (st' & node & Hv & Hinv' & Hlt).
  rewrite Hv. cbn [fst snd]. apply IH; [done|]. by intros ch [= <-].
Qed.

Lemma CreateNodes_kn (traces : list Trace) :
  kn_inv (foldl (λ st trace, Keep.walk (TraceCount trace) (Stack trace) None st)
                (Keep.mkCn [] ∅) traces).
Proof.
  assert (∀ st, kn_inv st →
    kn_inv (foldl (λ st trace, Keep.walk (TraceCount trace) (Stack trace) None st) st traces))
    as H.
  { induction traces as [|t traces IH]; intros st Hst; cbn [foldl]; [done|].
    apply IH. by apply walk_kn. }
  apply H. split; cbn; [by intros ? ? ?|by intros ? ? ?|by intros ? ? ? ?].
Qed.

Lemma visit_sites (P : loc → Prop) c sp child st :
  P sp → (∀ q, is_Some (Keep.cn_nodes st !! q) → P q) →
  ∀ q, is_Some (Keep.cn_nodes (Keep.visit c sp child st).1 !! q) → P q.
Proof.
  intros Hsp Hst q. unfold Keep.visit. destruct (Keep.cn_nodes st !! sp) eqn:E; cbn.
  - apply Hst.
  - destruct (decide (sp = q)) as [->|Hne]; [done|]. rewrite lookup_insert_ne by done. apply Hst.
Qed.

Lemma walk_sites (P : loc → Prop) c stack : ∀ child st,
  (∀ sp, sp ∈ stack → P sp) → (∀ q, is_Some (Keep.cn_nodes st !! q) → P q) →
  ∀ q, is_Some (Keep.cn_nodes (Keep.walk c stack child st) !! q) → P q.
Proof.
  induction stack as [|sp rest IH]; intros child st Hstack Hst; cbn [Keep.walk]; [done|].
  apply IH; [intros sp' Hin; apply Hstack; set_solver|].
  apply visit_sites; [apply Hstack; set_solver|done].
Qed.

Lemma CreateNodes_sites (sites : list CallSite) (traces : list Trace) (st : Keep.cn_state) :
  valid_traces sites traces →
  st = foldl (λ st trace, Keep.walk (TraceCount trace) (Stack trace) None st)
             (Keep.mkCn [] ∅) traces →
  ∀ q, is_Some (Keep.cn_nodes st !! q) → (q < length sites)%nat.
Proof.
  intros Hvalid ->.
  assert (∀ l st, (∀ t, t ∈ l → t ∈ traces) →
    (∀ q, is_Some (Keep.cn_nodes st !! q) → (q < length sites)%nat) →
    ∀ q, is_Some (Keep.cn_nodes
           (foldl (λ st trace, Keep.walk (TraceCount trace) (Stack trace) None st) st l) !! q) →
         (q < length sites)%nat) as H.
  { induction l as [|t l IH]; intros st Hl Hst; cbn [foldl]; [done|].
    apply IH; [intros t' Ht'; apply Hl; set_solver|].
    apply walk_sites; [|done]. intros sp Hsp. apply (Hvalid t); [apply Hl; set_solver|done]. }
  apply H; [done|]. intros q [x Hx]. cbn in Hx. by rewrite lookup_empty in Hx.
Qed.

Lemma pruned_node_edges (P : gset loc) (nd : Keep.Node) (k : loc) :
  default ∅ (Keep.EdgeWeights (pruned_node P nd)) !! k =
    if decide (k ∈ P) then None else default ∅ (Keep.EdgeWeights nd) !! k.
Proof.
  unfold pruned_node. cbn [Keep.EdgeWeights].
  destruct (Keep.EdgeWeights nd) as [m|]; cbn [fmap option_fmap option_map from_option].
  - pose proof (delete_pruned_lookup P m k) as Hd.
    case_bool_decide as Hs; cbn [from_option Datatypes.id] in *; [|done].
    apply map_size_empty_inv in Hs. rewrite Hs, lookup_empty in Hd. by rewrite lookup_empty.
  - rewrite lookup_empty. by case_decide.
Qed.

(** X29: [CreateNodes], [Prune] and [WriteDotFormat] of the variant with
    [-keep]: for [0 <= keep <= len(nodes)], [Prune] returns and the graph
    construction returns on the nodes it retains: the edges that [Prune]
    deletes are those that would lead out of the list. *)
Theorem keep_pipeline_graph_returns (sort : sorter) (keep : Z) (sites : list CallSite)
    (traces : list Trace) (objs : list Keep.Node) (nodes : list loc) (filename : string) :
  sort_spec sort → valid_traces sites traces →
  Keep.CreateNodes traces = (objs, nodes) →
  0 <= keep <= Z.of_nat (length nodes) →
  ∃ objs' topK,
    Prune sort keep objs nodes = Return (objs', topK) ∧
    ∃ g, build_graph (keep_view sites objs') filename topK = Return g.
Proof.
  intros Hsort Hvalid HC Hk. unfold Keep.CreateNodes in HC.
  pose proof (CreateNodes_kn traces) as Hinv.
  pose proof (CreateNodes_sites sites traces _ Hvalid eq_refl) as Hsites.
  set (st := foldl _ _ traces) in *. injection HC as <- <-.
  assert (Hv : ∀ n, n ∈ (map_to_list (Keep.cn_nodes st)).*2 →
            (n < length (Keep.cn_objs st))%nat).
  { intros n Hn. apply list_elem_of_fmap in Hn as ([sp n'] & -> & Hin).
    apply elem_of_map_to_list in Hin. destruct (kn_nodes _ Hinv sp n' Hin) as (nd & Hnd & _).
    by eapply lookup_lt_Some. }
  destruct (Prune_spec sort keep _ _ Hsort Hk Hv)
    as (objs' & topK & dropped & HP & Hperm & Hlen & _ & Hlk).
  exists objs', topK. split; [done|].
  apply build_graph_returns. intros n Hn.
  assert (n ∈ (map_to_list (Keep.cn_nodes st)).*2) as Hin by (rewrite <- Hperm; set_solver).
  destruct (lookup_lt_is_Some_2 _ _ (Hv n Hin)) as [nd0 Hnd0].
  pose proof (kn_registered _ Hinv n nd0 Hnd0) as Hreg.
  destruct (lookup_lt_is_Some_2 _ _ (Hsites _ (mk_is_Some _ _ Hreg))) as [cs Hcs].
  unfold keep_view. rewrite Hlk, decide_True, Hnd0 by done.
  cbn [fmap option_fmap option_map mbind option_bind].
  change (Keep.Node_CallSite (pruned_node (list_to_set dropped) nd0))
    with (Keep.Node_CallSite nd0).
  rewrite Hcs. cbn [mbind option_bind].
  eexists. split; [done|]. cbn [v_EdgeWeights].
  intros child Hchild. rewrite pruned_node_edges in Hchild.
  destruct (decide (child ∈ (list_to_set dropped : gset loc))) as [Hd|Hd];
    [by destruct Hchild|].
  assert (Hc : is_Some (default ∅ (Keep.EdgeWeights nd0) !! child)) by done.
  pose proof (kn_closed _ Hinv n nd0 child Hnd0 Hc) as Hlt.
  apply lookup_lt_is_Some_2 in Hlt as [cnd Hcnd].
  assert (child ∈ (map_to_list (Keep.cn_nodes st)).*2) as Hcin.
  { apply list_elem_of_fmap. exists (Keep.Node_CallSite cnd, child). split; [done|].
    apply elem_of_map_to_list. by apply (kn_registered _ Hinv). }
  rewrite <- Hperm in Hcin. set_solver.
Qed.

Lemma keep_pipeline_graph_returns_witness :
  ∃ objs' topK,
    Prune merge_sorter 1 (Keep.CreateNodes example_traces).1 (Keep.CreateNodes example_traces).2
      = Return (objs', topK) ∧
    ∃ g, build_graph (keep_view example_sites objs') "in.txt" topK = Return g.
Proof.
  apply (keep_pipeline_graph_returns merge_sorter 1 example_sites example_traces
           (Keep.CreateNodes example_traces).1 (Keep.CreateNodes example_traces).2 "in.txt");
    [apply merge_sorter_spec|apply AggregatorFacts.example_valid|reflexivity|].
  split; [lia|]. by vm_compute.
Defined.

End KeepGraphFacts.
